(** * Seastar core fragment: temporary memory allocator, fragmented LZ4
      RPC compressor and the coroutine bridge.

    A shallow embedding of
      - include/seastar/core/temporary_memory_allocator.hh and
        src/core/temporary_memory_allocator.cc,
      - rpc/lz4_fragmented_compressor.cc,
      - include/seastar/core/coroutines.hh,
    together with the properties of these components. *)

From stdpp Require Import gmap list strings.
From Stdlib Require Import ZArith Lia.
From coqutil Require Import Byte Word.LittleEndianList.

Local Open Scope Z_scope.

(** ** Exceptions raised by the modelled code *)

Inductive exception : Type :=
| bad_alloc
| runtime_error (what : string).

(** ** Integer helpers *)

(** A value stored in an [int32_t]: two's complement wrap-around. *)
Definition sint32 (z : Z) : Z := (z + 2 ^ 31) mod 2 ^ 32 - 2 ^ 31.

(** A value stored in a [uint32_t]. *)
Definition uint32 (z : Z) : Z := z mod 2 ^ 32.

(** A value stored in a [size_t] (64 bit targets). *)
Definition size_t (z : Z) : Z := z mod 2 ^ 64.

(** Modelled from the spec: [align_up] and [align_down] of
    seastar/core/align.hh, which is included but not part of the fragment:
    the spec gives the header address as [ptr & ~(BLOCK_SIZE - 1)], and
    rounding up is the same mask applied to [v + align - 1].  Addresses are
    unbounded integers: the model does not place a block at the very top of
    the address space. *)
Definition align_up (v align : Z) : Z := Z.land (v + align - 1) (Z.lnot (align - 1)).
Definition align_down (v align : Z) : Z := Z.land v (Z.lnot (align - 1)).

(** ** Temporary memory allocator
    (temporary_memory_allocator.hh, temporary_memory_allocator.cc) *)

(** Outcome of a member function of the allocator: it returns a value,
    throws (the objects keep the state they had at the throw), or the
    behaviour is undefined (a header of a block that is not live is
    accessed). *)
Inductive outcome (S A : Type) : Type :=
| Returned (a : A) (s : S)
| Thrown (e : exception) (s : S)
| Undefined.
Arguments Returned {S A} a s.
Arguments Thrown {S A} e s.
Arguments Undefined {S A}.

Definition block_size : Z := 128 * 1024.
Definition max_object_size : Z := 32 * 1024.

(** The data members of [temporary_memory_allocator]; [0] is [nullptr]. *)
Record allocator : Type := mk_allocator {
  _current : Z;
  _position_in_current : Z;
  _current_end : Z;
  _current_use_count : Z
}.

(** The allocator together with the memory it manages: [headers] maps the
    base address of every live allocation obtained from the system
    ([aligned_alloc], [posix_memalign]) to the [_use_count] of the
    [block_header] placed at its start. *)
Record world : Type := mk_world {
  this : allocator;
  headers : gmap Z Z
}.

(** What the C library answers to the one request an [alloc] call can make:
    the pointer [aligned_alloc] returns and the pair (status, pointer) of
    [posix_memalign]. *)
Record libc : Type := mk_libc {
  aligned_alloc : Z;
  posix_memalign : Z * Z
}.

Definition default_allocator : allocator := mk_allocator 0 0 0 0.
Definition fresh_world : world := mk_world default_allocator ∅.

Section temporary_memory_allocator.
(** [__STDCPP_DEFAULT_NEW_ALIGNMENT__], a constant of the platform. *)
Variable alignment : Z.

(** [sizeof(block_header)] for [struct alignas(alignment) block_header
    { int32_t _use_count; }]: four bytes rounded up to the alignment. *)
Definition sizeof_block_header : Z := align_up 4 alignment.

Definition close_current (w : world) : outcome world unit :=
  let a := this w in
  if decide (_current a = 0) then Returned tt w
  else
    match headers w !! _current a with
    | None => Undefined
    | Some use_count =>
        let use_count := sint32 (use_count + _current_use_count a) in
        let hs :=
          if decide (use_count = 0) then delete (_current a) (headers w)
          else <[_current a := use_count]> (headers w) in
        Returned tt
          (mk_world (mk_allocator 0 0 (_current_end a) 0) hs)
    end.

Definition allocate_new_block (size : Z) (sys : libc) (w : world)
  : outcome world Z :=
  let block := aligned_alloc sys in
  if decide (block = 0) then Thrown bad_alloc w
  else
    match close_current w with
    | Returned _ w' =>
        Returned (block + sizeof_block_header)
          (mk_world
             (mk_allocator block
                (block + sizeof_block_header + align_up size alignment)
                (block + block_size)
                1)
             (<[block := 0]> (headers w')))
    | Thrown e w' => Thrown e w'
    | Undefined => Undefined
    end.

Definition allocate_large_object (size : Z) (sys : libc) (w : world)
  : outcome world Z :=
  let actual_size := size_t (sizeof_block_header + size) in
  let '(ret, ptr) := posix_memalign sys in
  if decide (ret = 0) then
    let block := ptr in
    Returned (block + sizeof_block_header)
      (mk_world (this w) (<[block := 1]> (headers w)))
  else Thrown bad_alloc w.

Definition alloc (size : Z) (sys : libc) (w : world) : outcome world Z :=
  if decide (size > max_object_size) then allocate_large_object size sys w
  else
    let a := this w in
    let pos := _position_in_current a in
    let end_pos := pos + size in
    if decide (end_pos > _current_end a) then allocate_new_block size sys w
    else
      Returned pos
        (mk_world
           (mk_allocator (_current a)
              (align_up end_pos alignment)
              (_current_end a)
              (sint32 (_current_use_count a + 1)))
           (headers w)).

Definition free (ptr : Z) (w : world) : outcome world unit :=
  let p := ptr in
  let hdr := align_down p block_size in
  match headers w !! hdr with
  | None => Undefined
  | Some use_count =>
      let use_count := sint32 (use_count - 1) in
      if decide (use_count = 0)
      then Returned tt (mk_world (this w) (delete hdr (headers w)))
      else Returned tt (mk_world (this w) (<[hdr := use_count]> (headers w)))
  end.

(** A call made by a client of the allocator, with the answer of the C
    library for the calls that may need one. *)
Inductive call : Type :=
| call_alloc (size : Z) (sys : libc)
| call_free (ptr : Z).

(** The C library hands out non-null addresses aligned to [block_size]
    (the alignment both requests ask for), or reports failure. *)
Definition libc_ok (sys : libc) : Prop :=
  (aligned_alloc sys = 0 \/
     0 < aligned_alloc sys /\ aligned_alloc sys mod block_size = 0) /\
  (fst (posix_memalign sys) = 0 ->
     0 < snd (posix_memalign sys) /\ snd (posix_memalign sys) mod block_size = 0).

Definition call_ok (c : call) : Prop :=
  match c with
  | call_alloc size sys => 0 <= size < 2 ^ 64 /\ libc_ok sys
  | call_free _ => True
  end.

(** Running a sequence of calls.  A [bad_alloc] is an ordinary exception
    the client may catch, so the run goes on after it; undefined
    behaviour ends it. *)
Definition run_call (c : call) (w : world) : outcome world unit :=
  match c with
  | call_alloc size sys =>
      match alloc size sys w with
      | Returned _ w' => Returned tt w'
      | Thrown e w' => Thrown e w'
      | Undefined => Undefined
      end
  | call_free ptr => free ptr w
  end.

Fixpoint run (cs : list call) (w : world) : outcome world unit :=
  match cs with
  | [] => Returned tt w
  | c :: cs =>
      match run_call c w with
      | Returned _ w' => run cs w'
      | Thrown e w' => run cs w'
      | Undefined => Undefined
      end
  end.
End temporary_memory_allocator.

(** ** Use of the allocator by a client *)

(** The C library hands out blocks that are not live: a non-null address
    aligned to [block_size] at which no allocation starts, or failure. *)
Definition libc_fresh (sys : libc) (w : world) : Prop :=
  (aligned_alloc sys = 0 \/
     0 < aligned_alloc sys /\ aligned_alloc sys mod block_size = 0 /\
     headers w !! aligned_alloc sys = None) /\
  (fst (posix_memalign sys) = 0 ->
     0 < snd (posix_memalign sys) /\ snd (posix_memalign sys) mod block_size = 0 /\
     headers w !! snd (posix_memalign sys) = None).

#[global] Instance libc_fresh_dec sys w : Decision (libc_fresh sys w).
Proof. unfold libc_fresh. apply _. Defined.

(** One occurrence of [p] taken out of the pointers a client holds. *)
Fixpoint remove_one (p : Z) (live : list Z) : list Z :=
  match live with
  | [] => []
  | q :: live => if decide (q = p) then live else q :: remove_one p live
  end.

Section allocator_clients.
Variable alignment : Z.

(** A run of calls in which the client keeps the pointers it was given
    ([live]) until it frees them; [None] when the behaviour is
    undefined. *)
Fixpoint run_live (cs : list call) (w : world) (live : list Z)
  : option (world * list Z) :=
  match cs with
  | [] => Some (w, live)
  | call_alloc size sys :: cs =>
      match alloc alignment size sys w with
      | Returned p w' => run_live cs w' (p :: live)
      | Thrown _ w' => run_live cs w' live
      | Undefined => None
      end
  | call_free ptr :: cs =>
      match free ptr w with
      | Returned _ w' => run_live cs w' (remove_one ptr live)
      | Thrown _ _ | Undefined => None
      end
  end.

(** The contract a client keeps: it asks for at least one byte, the C
    library answers with blocks that are not live, and it frees only
    pointers it holds. *)
Fixpoint valid_use (cs : list call) (w : world) (live : list Z) : bool :=
  match cs with
  | [] => true
  | call_alloc size sys :: cs =>
      bool_decide (1 <= size /\ libc_fresh sys w) &&
      match alloc alignment size sys w with
      | Returned p w' => valid_use cs w' (p :: live)
      | Thrown _ w' => valid_use cs w' live
      | Undefined => true
      end
  | call_free ptr :: cs =>
      bool_decide (ptr ∈ live) &&
      match free ptr w with
      | Returned _ w' => valid_use cs w' (remove_one ptr live)
      | Thrown _ _ | Undefined => true
      end
  end.
End allocator_clients.

(** The number of pointers held that lie in the block at [b]. *)
Definition live_in (live : list Z) (b : Z) : Z :=
  Z.of_nat (length (filter (fun p => align_down p block_size = b) live)).

(** The counter a block must hold: for the open block the live objects
    less the allocations still to be posted, for any other block the live
    objects, a block without any being released. *)
Definition expected_header (w : world) (live : list Z) (b : Z) : option Z :=
  if decide (b = _current (this w) /\ _current (this w) <> 0)
  then Some (live_in live b - _current_use_count (this w))
  else if decide (live_in live b = 0) then None else Some (live_in live b).

(** ** Fragmented LZ4 compressor (rpc/lz4_fragmented_compressor.cc) *)

(** Result of a function of the codec: a value, an exception, or a fault:
    a failed [assert] (the model is the build with assertions) or an access
    outside a buffer. *)
Inductive result (A : Type) : Type :=
| Ok (a : A)
| Raise (e : exception)
| Fault.
Arguments Ok {A} a.
Arguments Raise {A} e.
Arguments Fault {A}.

#[global] Instance result_ret : MRet result := fun A a => Ok a.
#[global] Instance result_bind : MBind result := fun A B f m =>
  match m with
  | Ok a => f a
  | Raise e => Raise e
  | Fault => Fault
  end.

Definition last_chunk_flag : Z := Z.shiftl 1 31.
Definition chunk_header_size : Z := 4.
Definition chunk_size : Z := 128 * 1024.

(** [LZ4_MAX_INPUT_SIZE] and the macro [LZ4_COMPRESSBOUND] of lz4.h, the
    header of the LZ4 library: the conservative bound on the size of a
    compressed block. *)
Definition LZ4_MAX_INPUT_SIZE : Z := 2113929216.
Definition LZ4_COMPRESSBOUND (isize : Z) : Z :=
  if decide (isize > LZ4_MAX_INPUT_SIZE) then 0 else isize + isize / 255 + 16.

(** The streaming interface of the LZ4 library, as the codec uses it.  The
    first argument of both functions stands for the stream object: the
    bytes that went through it since it was reset, which is all the
    dictionary the library may draw on.
    - [LZ4_compress_fast_continue stream src dstCapacity] is the sequence
      of bytes written to the destination (its length is the returned
      [int]);
    - [LZ4_setStreamDecode] is the status returned by the reset of the
      decoding stream;
    - [LZ4_decompress_safe_continue stream src maxDecompressedSize] is
      [None] for a negative status and otherwise the bytes written to the
      destination. *)
Class LZ4 : Type := {
  LZ4_compress_fast_continue : list byte -> list byte -> Z -> list byte;
  LZ4_setStreamDecode : Z;
  LZ4_decompress_safe_continue : list byte -> list byte -> Z -> option (list byte)
}.

(** [temporary_buffer<char>]: a run of bytes; [size()] as an integer. *)
Definition buf_size (b : list byte) : Z := Z.of_nat (length b).

(** [temporary_buffer<char>(n)]: [n] bytes holding whatever the memory
    held, [junk] cut or padded to [n] bytes. *)
Definition temporary_buffer_new (junk : list byte) (n : Z) : list byte :=
  resize (Z.to_nat n) Byte.x00 junk.

(** [std::copy_n(src, |src|, dst + offset)] into a buffer. *)
Definition copy_n (src dst : list byte) (offset : Z) : result (list byte) :=
  if decide (0 <= offset /\ offset + buf_size src <= buf_size dst)
  then Ok (take (Z.to_nat offset) dst ++ src
             ++ drop (Z.to_nat (offset + buf_size src)) dst)
  else Fault.

(** Modelled from the spec: [write_le] of a [uint32_t] and [le_to_cpu] of
    the four bytes read back (core/byteorder.hh, included but not part of
    the fragment): headers are 4 bytes, little-endian. *)
Definition write_le (datum : Z) : list byte := le_split 4 datum.
Definition le_to_cpu (bytes : list byte) : Z := le_combine bytes.

(** Modelled from the spec: the scatter-gather buffers [snd_buf] and
    [rcv_buf] of rpc_types.hh, which is not part of the fragment: a size
    and either an ordered sequence of buffers or a single contiguous
    buffer.  The size fields are 32 bit, as the four-byte header written
    from [last_chunk_flag | size_left] requires; the constructors used by
    the codec take one buffer, or a vector and a size, and the default
    [rcv_buf] is empty. *)
Inductive buffers : Type :=
| fragmented (v : list (list byte))
| contiguous (b : list byte).

Record snd_buf : Type := mk_snd_buf {
  snd_size : Z;
  snd_bufs : buffers
}.

Record rcv_buf : Type := mk_rcv_buf {
  rcv_size : Z;
  rcv_bufs : buffers
}.

Definition snd_buf_of_buffer (b : list byte) : snd_buf :=
  mk_snd_buf (uint32 (buf_size b)) (contiguous b).
Definition snd_buf_of_vector (v : list (list byte)) (size : Z) : snd_buf :=
  mk_snd_buf (uint32 size) (fragmented v).
Definition rcv_buf_default : rcv_buf := mk_rcv_buf 0 (fragmented []).
Definition rcv_buf_of_buffer (b : list byte) : rcv_buf :=
  mk_rcv_buf (uint32 (buf_size b)) (contiguous b).
Definition rcv_buf_of_vector (v : list (list byte)) (size : Z) : rcv_buf :=
  mk_rcv_buf (uint32 size) (fragmented v).

(** The buffers a pointer to the first buffer of the variant walks over. *)
Definition buffer_list (bufs : buffers) : list (list byte) :=
  match bufs with
  | fragmented v => v
  | contiguous b => [b]
  end.

(** The bytes of a scatter-gather buffer, in order. *)
Definition linearize (bufs : buffers) : list byte := concat (buffer_list bufs).

(** A frame as it comes off the wire: the receiver sees the size and the
    buffers the sender produced. *)
Definition rcv_buf_of_snd_buf (s : snd_buf) : rcv_buf :=
  mk_rcv_buf (snd_size s) (snd_bufs s).

(** The output under construction in [compress]: [dst_buffers] is
    [dst_done ++ [dst_back]], [dst_back] being [dst_buffers.back()]. *)
Record dst_state : Type := mk_dst {
  dst_done : list (list byte);
  dst_back : list byte;
  dst_offset : Z
}.

(** The read position of [decompress]: [src] points at the head of
    [src_bufs]. *)
Record src_state : Type := mk_src {
  src_bufs : list (list byte);
  src_offset : Z;
  src_left : Z
}.

Section lz4_fragmented_compressor.
Context {lz4 : LZ4}.
(** What the memory of the [i]-th buffer allocated by a call holds at its
    allocation. *)
Variable garbage : nat -> list byte.

(** The loop [while (n)] of the lambda [write_chunk_to_dst]; [src] are the
    [n] bytes that remain to be copied from [chunk_data]. *)
Fixpoint write_chunk_loop (fuel : nat) (src : list byte) (st : dst_state)
  : result dst_state :=
  match src with
  | [] => Ok st
  | _ :: _ =>
      match fuel with
      | O => Fault
      | S fuel =>
          let st :=
            if decide (dst_offset st = buf_size (dst_back st)) then
              mk_dst (dst_done st ++ [dst_back st])
                     (temporary_buffer_new
                        (garbage (S (length (dst_done st)))) chunk_size)
                     0
            else st in
          let dst := dst_back st in
          let this_length :=
            Z.min (size_t (buf_size dst - dst_offset st)) (buf_size src) in
          dst' ← copy_n (take (Z.to_nat this_length) src) dst (dst_offset st);
          write_chunk_loop fuel (drop (Z.to_nat this_length) src)
            (mk_dst (dst_done st) dst' (dst_offset st + this_length))
      end
  end.

(** [write_chunk_to_dst(header_value, n)]: the header is written in front
    of the [n] bytes [payload] the compressor left in [chunk_data], and the
    [n + chunk_header_size] bytes are copied out. *)
Definition write_chunk_to_dst (header_value : Z) (payload : list byte)
    (st : dst_state) : result dst_state :=
  let chunk_data := write_le (uint32 header_value) ++ payload in
  write_chunk_loop (length chunk_data) chunk_data st.

(** The loop over the intermediate chunks, [while (src_left > chunk_size)].
    [src] is the list of buffers from the one [src] points at; [stream] is
    what was compressed so far. *)
Fixpoint intermediate_chunks (src : list (list byte)) (stream : list byte)
    (src_left total_compressed_size : Z) (st : dst_state)
  : result (list (list byte) * list byte * Z * Z * dst_state) :=
  match src with
  | [] =>
      if decide (src_left > chunk_size) then Fault
      else Ok (src, stream, src_left, total_compressed_size, st)
  | b :: src' =>
      if decide (src_left > chunk_size) then
        if decide (buf_size b = chunk_size) then
          let compressed :=
            LZ4_compress_fast_continue stream b (LZ4_COMPRESSBOUND chunk_size) in
          let compressed_size := buf_size compressed in
          st ← write_chunk_to_dst compressed_size compressed st;
          intermediate_chunks src' (stream ++ b)
            (uint32 (src_left - chunk_size))
            (total_compressed_size + compressed_size + chunk_header_size)
            st
        else Fault
      else Ok (src, stream, src_left, total_compressed_size, st)
  end.

Definition compress (head_space : Z) (data : snd_buf) : result snd_buf :=
  let size_left := snd_size data in
  let src := buffer_list (snd_bufs data) in
  let single_chunk_size :=
    size_t (LZ4_COMPRESSBOUND size_left + head_space + chunk_header_size) in
  if decide (single_chunk_size <= chunk_size /\ size_left <= chunk_size) then
    match src with
    | [] => Fault
    | b :: _ =>
        if decide (buf_size b = size_left) then
          let dst := temporary_buffer_new (garbage 0) single_chunk_size in
          let header := head_space in
          let compressed_data := header + chunk_header_size in
          let compressed :=
            LZ4_compress_fast_continue [] b (LZ4_COMPRESSBOUND size_left) in
          let compressed_size := buf_size compressed in
          dst ← copy_n compressed dst compressed_data;
          dst ← copy_n (write_le (Z.lor last_chunk_flag size_left)) dst header;
          let dst :=
            take (Z.to_nat (head_space + chunk_header_size + compressed_size)) dst in
          Ok (snd_buf_of_buffer dst)
        else Fault
    end
  else
    let dst_capacity := LZ4_COMPRESSBOUND chunk_size in
    let st :=
      mk_dst [] (temporary_buffer_new (garbage 0) (Z.max head_space chunk_size))
             head_space in
    '(src, stream, src_left, total_compressed_size, st) ←
      intermediate_chunks src [] (snd_size data) 0 st;
    match src with
    | [] => Fault
    | b :: _ =>
        if decide (src_left <= buf_size b) then
          let compressed :=
            LZ4_compress_fast_continue stream (take (Z.to_nat src_left) b)
              dst_capacity in
          let compressed_size := buf_size compressed in
          st ← write_chunk_to_dst (Z.lor last_chunk_flag src_left) compressed st;
          let total_compressed_size :=
            total_compressed_size + compressed_size + chunk_header_size
            + head_space in
          let last := take (Z.to_nat (dst_offset st)) (dst_back st) in
          match dst_done st with
          | [] => Ok (snd_buf_of_buffer last)
          | _ :: _ =>
              Ok (snd_buf_of_vector (dst_done st ++ [last]) total_compressed_size)
          end
        else Fault
    end.

(** The loop [while (n)] of the lambda [copy_src]; the bytes copied to
    [dst] so far are accumulated. *)
Fixpoint copy_src_loop (fuel : nat) (src : list (list byte)) (src_offset n : Z)
    (dst : list byte) : result (list byte * list (list byte) * Z) :=
  if decide (n = 0) then Ok (dst, src, src_offset)
  else
    match fuel with
    | O => Fault
    | S fuel =>
        match src with
        | [] => Fault
        | b :: src' =>
            let '(src, src_offset) :=
              if decide (src_offset = buf_size b) then (src', 0)
              else (src, src_offset) in
            match src with
            | [] => Fault
            | b :: _ =>
                let this_size := Z.min n (size_t (buf_size b - src_offset)) in
                if decide (0 <= src_offset /\ src_offset + this_size <= buf_size b) then
                  copy_src_loop fuel src (src_offset + this_size) (n - this_size)
                    (dst ++ take (Z.to_nat this_size) (drop (Z.to_nat src_offset) b))
                else Fault
            end
        end
    end.

(** [copy_src(dst, n)]: the [n] bytes read and the new read position. *)
Definition copy_src (n : Z) (st : src_state) : result (list byte * src_state) :=
  let src_left := size_t (src_left st - n) in
  '(bytes, src, src_offset) ←
    copy_src_loop (Z.to_nat n + length (src_bufs st)) (src_bufs st)
      (src_offset st) n [];
  Ok (bytes, mk_src src src_offset src_left).

Definition read_header (st : src_state) : result (Z * src_state) :=
  '(bytes, st) ← copy_src chunk_header_size st;
  Ok (le_to_cpu bytes, st).

Definition decompression_failure : exception :=
  runtime_error "RPC frame LZ4 decompression failure".

(** The loop over the intermediate chunks,
    [while (!(header_value & last_chunk_flag))]; [stream] is what was
    decompressed so far. *)
Fixpoint intermediate_headers (fuel : nat) (header_value : Z) (stream : list byte)
    (st : src_state) (dst_buffers : list (list byte)) (total_size : Z)
  : result (Z * list byte * src_state * list (list byte) * Z) :=
  if decide (Z.land header_value last_chunk_flag = 0) then
    match fuel with
    | O => Fault
    | S fuel =>
        let total_size := total_size + chunk_size in
        let dst := temporary_buffer_new (garbage (length dst_buffers)) chunk_size in
        '(chunk_buffer, st) ← copy_src header_value st;
        match LZ4_decompress_safe_continue stream chunk_buffer chunk_size with
        | None => Raise decompression_failure
        | Some out =>
            dst ← copy_n out dst 0;
            '(header_value, st) ← read_header st;
            intermediate_headers fuel header_value (stream ++ out) st
              (dst_buffers ++ [dst]) total_size
        end
    end
  else Ok (header_value, stream, st, dst_buffers, total_size).

(** The part of [decompress] after the fast path. *)
Definition decompress_chunks (src : list (list byte)) (size : Z) : result rcv_buf :=
  let st := mk_src src 0 size in
  '(header_value, st) ← read_header st;
  '(header_value, stream, st, dst_buffers, total_size) ←
    intermediate_headers (length (concat src)) header_value [] st [] 0;
  let header_value := Z.land header_value (uint32 (Z.lnot last_chunk_flag)) in
  let total_size := total_size + header_value in
  let dst := temporary_buffer_new (garbage (length dst_buffers)) header_value in
  '(chunk_buffer, st) ← copy_src (src_left st) st;
  match LZ4_decompress_safe_continue stream chunk_buffer header_value with
  | None => Raise decompression_failure
  | Some out =>
      dst ← copy_n out dst 0;
      match dst_buffers with
      | [] => Ok (rcv_buf_of_buffer dst)
      | _ :: _ => Ok (rcv_buf_of_vector (dst_buffers ++ [dst]) total_size)
      end
  end.

Definition decompress (data : rcv_buf) : result rcv_buf :=
  if decide (rcv_size data < 4) then Ok rcv_buf_default
  else if decide (LZ4_setStreamDecode = 0) then
    Raise (runtime_error "RPC frame LZ4 decompression failed to reset state")
  else
    match rcv_bufs data with
    | contiguous b =>
        if decide (chunk_header_size <= buf_size b) then
          let header := le_to_cpu (take (Z.to_nat chunk_header_size) b) in
          if decide (Z.land header last_chunk_flag = 0) then
            decompress_chunks [b] (rcv_size data)
          else
            let header := Z.land header (uint32 (Z.lnot last_chunk_flag)) in
            let src_offset := chunk_header_size in
            let src_left := size_t (rcv_size data - chunk_header_size) in
            let dst := temporary_buffer_new (garbage 0) header in
            if decide (src_offset + src_left <= buf_size b) then
              match
                LZ4_decompress_safe_continue []
                  (take (Z.to_nat src_left) (drop (Z.to_nat src_offset) b)) header
              with
              | None => Raise decompression_failure
              | Some out =>
                  dst ← copy_n out dst 0;
                  Ok (rcv_buf_of_buffer dst)
              end
            else Fault
        else Fault
    | fragmented v => decompress_chunks v (rcv_size data)
    end.
End lz4_fragmented_compressor.

(** What the codec needs from the library: the compressor stays within
    the capacity it is given, the reset of the decoding stream succeeds,
    and a block compressed with enough room decompresses, against the same
    history, to the bytes it was made from. *)
Class LZ4_correct (lz4 : LZ4) : Prop := {
  compress_within_capacity stream src dstCapacity :
    0 <= dstCapacity ->
    buf_size (LZ4_compress_fast_continue stream src dstCapacity) <= dstCapacity;
  setStreamDecode_succeeds : LZ4_setStreamDecode <> 0;
  decompress_compress stream src dstCapacity :
    buf_size src <= chunk_size ->
    LZ4_COMPRESSBOUND (buf_size src) <= dstCapacity ->
    LZ4_decompress_safe_continue stream
      (LZ4_compress_fast_continue stream src dstCapacity) (buf_size src)
    = Some src
}.

(** A codec that stores blocks as they are; it shows that the
    requirements of [LZ4_correct] can be met. *)
#[global] Instance stored_lz4 : LZ4 := {|
  LZ4_compress_fast_continue _ src dstCapacity :=
    if decide (buf_size src <= dstCapacity) then src else [];
  LZ4_setStreamDecode := 1;
  LZ4_decompress_safe_continue _ src maxDecompressedSize :=
    if decide (buf_size src <= maxDecompressedSize) then Some src else None
|}.

(** The scatter-gather convention for the input of [compress]: the size
    field is the number of bytes held, which is either in one buffer of at
    most [chunk_size] bytes or in a non-empty vector of buffers of exactly
    [chunk_size] bytes, the last of which may be shorter. *)
Definition scatter_gather (data : snd_buf) : Prop :=
  snd_size data = buf_size (linearize (snd_bufs data)) /\
  match snd_bufs data with
  | contiguous b => buf_size b <= chunk_size
  | fragmented v =>
      exists full last,
        v = full ++ [last] /\
        Forall (fun b => buf_size b = chunk_size) full /\
        buf_size last <= chunk_size
  end.

(** The bytes of a frame: for every intermediate chunk the size of its
    compressed bytes and these bytes, then the last chunk with the flag and
    the size of its plain bytes in the header. *)
Fixpoint intermediate_frames {lz4 : LZ4} (stream : list byte)
    (mids : list (list byte)) (dstCapacity : Z) : list byte :=
  match mids with
  | [] => []
  | b :: mids =>
      let compressed := LZ4_compress_fast_continue stream b dstCapacity in
      write_le (buf_size compressed) ++ compressed
      ++ intermediate_frames (stream ++ b) mids dstCapacity
  end.

Definition last_frame {lz4 : LZ4} (stream last : list byte) (dstCapacity : Z)
  : list byte :=
  write_le (Z.lor last_chunk_flag (buf_size last))
  ++ LZ4_compress_fast_continue stream last dstCapacity.

Definition frame_of {lz4 : LZ4} (mids : list (list byte)) (last : list byte)
    (dstCapacity : Z) : list byte :=
  intermediate_frames [] mids dstCapacity
  ++ last_frame (concat mids) last dstCapacity.

(** The chunk framing invariant, read off the bytes of a frame: a header
    with bit 31 set starts the last chunk, which takes the rest of the
    frame; a header with bit 31 clear holds the number of bytes of the
    chunk that follows it, after which the frame goes on. *)
Inductive well_framed : list byte -> Prop :=
| framed_last (header_value : Z) (payload : list byte) :
    0 <= header_value < 2 ^ 32 ->
    Z.testbit header_value 31 = true ->
    well_framed (write_le header_value ++ payload)
| framed_intermediate (header_value : Z) (payload rest : list byte) :
    0 <= header_value < 2 ^ 32 ->
    Z.testbit header_value 31 = false ->
    header_value = buf_size payload ->
    well_framed rest ->
    well_framed (write_le header_value ++ payload ++ rest).
(** ** The chunks of a message *)

(** The condition of the faster path for small messages. *)
Definition single_chunk (head_space : Z) (data : snd_buf) : Prop :=
  size_t (LZ4_COMPRESSBOUND (snd_size data) + head_space + chunk_header_size)
    <= chunk_size /\
  snd_size data <= chunk_size.

(** The [dstCapacity] the chunks of a message are compressed with. *)
Definition capacity (head_space : Z) (data : snd_buf) : Z :=
  if decide (single_chunk head_space data)
  then LZ4_COMPRESSBOUND (snd_size data)
  else LZ4_COMPRESSBOUND chunk_size.

(** The buffer [decompress] builds from the plain chunks [mids] and
    [fin]: one buffer for a single chunk, else one buffer per chunk and
    the sum of their sizes. *)
Definition rcv_buf_of_chunks (mids : list (list byte)) (fin : list byte) : rcv_buf :=
  match mids with
  | [] => rcv_buf_of_buffer fin
  | _ :: _ =>
      rcv_buf_of_vector (mids ++ [fin])
        (chunk_size * Z.of_nat (length mids) + buf_size fin)
  end.


(** ** Coroutine bridge (coroutines.hh) *)

(** Modelled from the spec: the promise/future pair of future.hh, which
    the fragment includes but does not contain.  The state shared by a
    promise and its future is pending, ready with a value or ready with an
    exception; [set_value] and [set_exception] take it from pending to
    ready (setting an outcome twice is outside the contract), and
    [get_future] yields the future paired with the promise, which observes
    the shared state. *)
Inductive future_state (T : Type) : Type :=
| pending
| ready_with_value (v : T)
| ready_with_exception (e : exception).
Arguments pending {T}.
Arguments ready_with_value {T} v.
Arguments ready_with_exception {T} e.

(** Modelled from the spec: [promise::set_value], from pending to ready
    with a value. *)
Definition set_value {T : Type} (v : T) (st : future_state T)
  : option (future_state T) :=
  match st with
  | pending => Some (ready_with_value v)
  | _ => None
  end.

(** Modelled from the spec: [promise::set_exception], from pending to
    ready with an exception. *)
Definition set_exception {T : Type} (e : exception) (st : future_state T)
  : option (future_state T) :=
  match st with
  | pending => Some (ready_with_exception e)
  | _ => None
  end.

(** Modelled from the spec: [promise::get_future], the paired future. *)
Definition get_future {T : Type} (st : future_state T) : future_state T := st.

(** Modelled from the spec: [future::available], true iff the shared
    state is ready. *)
Definition available {T : Type} (st : future_state T) : bool :=
  match st with
  | pending => false
  | _ => true
  end.

(** [coroutine_traits<seastar::future<T...>>::promise_type]: the task that
    embeds the promise. *)
Record promise_type (T : Type) : Type := mk_promise_type {
  _promise : future_state T
}.
Arguments mk_promise_type {T} _promise.
Arguments _promise {T} p.

Definition return_value {T : Type} (value : T) (p : promise_type T)
  : option (promise_type T) :=
  mk_promise_type <$> set_value value (_promise p).

(** [current_exception] stands for [std::current_exception()], the
    exception in flight when the handler runs. *)
Definition unhandled_exception {T : Type} (current_exception : exception)
    (p : promise_type T) : option (promise_type T) :=
  mk_promise_type <$> set_exception current_exception (_promise p).

Definition get_return_object {T : Type} (p : promise_type T) : future_state T :=
  get_future (_promise p).

(** [suspend_never] and [suspend_always] with their [await_ready]. *)
Inductive suspend : Type := suspend_never | suspend_always.

Definition await_ready (s : suspend) : bool :=
  match s with
  | suspend_never => true
  | suspend_always => false
  end.

Definition initial_suspend : suspend := suspend_never.
Definition final_suspend : suspend := suspend_never.

(** The body of a coroutine, as far as the bridge sees it: it returns a
    value, lets an exception escape, or awaits a future, which is
    available or not, and goes on. *)
Inductive coroutine_body (T : Type) : Type :=
| co_return (v : T)
| throw (e : exception)
| co_await (future_available : bool) (k : coroutine_body T).
Arguments co_return {T} v.
Arguments throw {T} e.
Arguments co_await {T} future_available k.

(** The frame of a coroutine: suspended with a rest of the body to run,
    suspended at the final suspend point, or destroyed. *)
Inductive frame_status (T : Type) : Type :=
| suspended (k : coroutine_body T)
| suspended_final
| destroyed.
Arguments suspended {T} k.
Arguments suspended_final {T}.
Arguments destroyed {T}.

(** A coroutine: its promise object, whose embedded promise shares its
    state with the future handed to the caller, and its frame. *)
Record coroutine (T : Type) : Type := mk_coroutine {
  promise : promise_type T;
  frame : frame_status T
}.
Arguments mk_coroutine {T} promise frame.
Arguments promise {T} c.
Arguments frame {T} c.

(** After the last statement of the body the coroutine awaits
    [final_suspend()]; as that is ready at once, the frame is destroyed. *)
Definition finish {T : Type} (p : promise_type T) : coroutine T :=
  if await_ready final_suspend then mk_coroutine p destroyed
  else mk_coroutine p suspended_final.

(** Modelled from the spec: the coroutine protocol of the language
    applied to the bridge (the compiler generates it, no source file holds
    it): the body runs until it completes or has to wait.  [co_return v] calls
    [return_value], an escaping exception is caught and handed to
    [unhandled_exception]; awaiting a future that is not available
    ([awaiter::await_ready] is false) leaves the frame suspended. *)
Fixpoint run_body {T : Type} (body : coroutine_body T) (p : promise_type T)
  : option (coroutine T) :=
  match body with
  | co_return v => finish <$> return_value v p
  | throw e => finish <$> unhandled_exception e p
  | co_await future_available k =>
      if future_available then run_body k p
      else Some (mk_coroutine p (suspended k))
  end.

(** A call of the coroutine: the promise is created and, as
    [initial_suspend()] is ready at once, the body starts.  The caller
    holds the return object, [get_return_object] of the promise. *)
Definition call_coroutine {T : Type} (body : coroutine_body T)
  : option (coroutine T) :=
  let p := mk_promise_type pending in
  if await_ready initial_suspend then run_body body p
  else Some (mk_coroutine p (suspended body)).

(** [promise_type::run_and_dispose]: the handle obtained from the promise
    is resumed. *)
Definition run_and_dispose {T : Type} (c : coroutine T) : option (coroutine T) :=
  match frame c with
  | suspended body => run_body body (promise c)
  | suspended_final | destroyed => None
  end.

(** [promise_type::dispose]: the handle is destroyed. *)
Definition dispose {T : Type} (c : coroutine T) : option (coroutine T) :=
  match frame c with
  | suspended _ | suspended_final => Some (mk_coroutine (promise c) destroyed)
  | destroyed => None
  end.

(** The scheduler runs the task each time the awaited future has become
    ready, as long as the frame waits for one. *)
Fixpoint schedule {T : Type} (turns : nat) (c : coroutine T) : option (coroutine T) :=
  match frame c, turns with
  | suspended _, S turns => run_and_dispose c ≫= schedule turns
  | _, _ => Some c
  end.

(** The number of times the body may have to wait. *)
Fixpoint awaits {T : Type} (body : coroutine_body T) : nat :=
  match body with
  | co_await _ k => S (awaits k)
  | _ => O
  end.

(** How the body ends. *)
Fixpoint completion {T : Type} (body : coroutine_body T) : T + exception :=
  match body with
  | co_return v => inl v
  | throw e => inr e
  | co_await _ k => completion k
  end.
(** * Properties *)

(** ** Arithmetic of the integer helpers *)

Lemma sint32_id z : - 2 ^ 31 <= z < 2 ^ 31 -> sint32 z = z.
Proof. intros H. unfold sint32. rewrite Z.mod_small; lia. Qed.

Lemma align_down_pow2 v k :
  0 <= k -> align_down v (2 ^ k) = 2 ^ k * (v / 2 ^ k).
Proof.
  intros Hk. unfold align_down.
  replace (2 ^ k - 1) with (Z.ones k) by (rewrite Z.ones_equiv; lia).
  rewrite <- Z.ldiff_land, Z.ldiff_ones_r by lia.
  rewrite Z.shiftl_mul_pow2, Z.shiftr_div_pow2 by lia. lia.
Qed.

Lemma align_down_mod v k :
  0 <= k -> align_down v (2 ^ k) = v - v mod 2 ^ k.
Proof.
  intros Hk. rewrite align_down_pow2 by lia.
  pose proof (Z.div_mod v (2 ^ k)). lia.
Qed.

Lemma align_up_pow2 v k :
  0 <= k -> align_up v (2 ^ k) = 2 ^ k * ((v + 2 ^ k - 1) / 2 ^ k).
Proof. intros Hk. unfold align_up. apply (align_down_pow2 (v + 2 ^ k - 1) k Hk). Qed.

Lemma align_up_bounds v k :
  0 <= k -> v <= align_up v (2 ^ k) < v + 2 ^ k.
Proof.
  intros Hk. rewrite align_up_pow2 by lia.
  assert (0 < 2 ^ k) by lia.
  pose proof (Z.div_mod (v + 2 ^ k - 1) (2 ^ k)).
  pose proof (Z.mod_pos_bound (v + 2 ^ k - 1) (2 ^ k)). lia.
Qed.

Lemma align_up_multiple v k :
  0 <= k -> align_up v (2 ^ k) mod 2 ^ k = 0.
Proof.
  intros Hk. rewrite align_up_pow2 by lia.
  rewrite Z.mul_comm. apply Z_mod_mult.
Qed.

Lemma align_up_le_multiple v m k :
  0 <= k -> v <= m -> m mod 2 ^ k = 0 -> align_up v (2 ^ k) <= m.
Proof.
  intros Hk Hv Hm. rewrite align_up_pow2 by lia.
  assert (Hp : 0 < 2 ^ k) by lia.
  apply Z.mod_divide in Hm; [|lia]. destruct Hm as [q ->].
  assert ((v + 2 ^ k - 1) / 2 ^ k < q + 1); [|nia].
  apply Z.div_lt_upper_bound; nia.
Qed.

Lemma align_up_0 a : align_up 0 a = 0.
Proof. unfold align_up. rewrite Z.add_0_l. apply Z.land_lnot_diag. Qed.

(** ** Temporary memory allocator *)

Section temporary_memory_allocator_properties.
Variable alignment : Z.
Variable k : Z.
(** The default new alignment is a power of two that holds an [int32_t]
    and satisfies the [static_assert]s of the class. *)
Hypothesis alignment_pow2 : alignment = 2 ^ k.
Hypothesis alignment_range : 2 <= k <= 16.

Lemma alignment_bounds : 4 <= alignment <= 65536.
Proof.
  subst alignment. split.
  - change 4 with (2 ^ 2). apply Z.pow_le_mono_r; lia.
  - change 65536 with (2 ^ 16). apply Z.pow_le_mono_r; lia.
Qed.

Lemma block_size_multiple : block_size mod alignment = 0.
Proof.
  subst alignment. unfold block_size.
  replace (128 * 1024) with (2 ^ (17 - k) * 2 ^ k).
  - apply Z_mod_mult.
  - rewrite <- Z.pow_add_r by lia. replace (17 - k + k) with 17 by lia. reflexivity.
Qed.

Lemma sizeof_block_header_eq : sizeof_block_header alignment = alignment.
Proof.
  pose proof alignment_bounds as Hb.
  unfold sizeof_block_header. subst alignment.
  pose proof (align_up_bounds 4 k ltac:(lia)) as Hr.
  pose proof (align_up_pow2 4 k ltac:(lia)) as He.
  set (q := (4 + 2 ^ k - 1) / 2 ^ k) in *.
  assert (q = 1) by nia. nia.
Qed.

Lemma mod_alignment_of_block b :
  b mod block_size = 0 -> b mod alignment = 0.
Proof.
  intros Hb. pose proof alignment_bounds.
  apply Z.mod_divide in Hb; [|unfold block_size; lia].
  pose proof block_size_multiple as Hm.
  apply Z.mod_divide in Hm; [|lia].
  apply Z.mod_divide; [lia|]. etrans; eauto.
Qed.

Lemma land_block_mask p :
  0 <= p -> Z.land p (block_size - 1) = p mod block_size.
Proof.
  intros _. change (block_size - 1) with (Z.ones 17).
  rewrite Z.land_ones by lia. reflexivity.
Qed.

(** *** Invariant of the data members *)

Definition allocator_inv (a : allocator) : Prop :=
  (_current a = 0 /\ _position_in_current a = 0 /\ _current_end a = 0) \/
  (0 < _current a /\ _current a mod block_size = 0 /\
   _current_end a = _current a + block_size /\
   _current a + sizeof_block_header alignment <= _position_in_current a /\
   _position_in_current a <= _current_end a /\
   _position_in_current a mod alignment = 0).

Lemma allocator_inv_fresh : allocator_inv (this fresh_world).
Proof. left. done. Qed.

Lemma allocate_new_block_inv size sys w p w' :
  0 <= size <= max_object_size -> libc_ok sys ->
  allocate_new_block alignment size sys w = Returned p w' ->
  allocator_inv (this w') /\
  p = _current (this w') + sizeof_block_header alignment /\
  0 < _current (this w') /\ _current (this w') mod block_size = 0.
Proof.
  intros Hsize [Hsys _]. unfold allocate_new_block.
  destruct (decide (aligned_alloc sys = 0)) as [|Hnz]; [done|].
  destruct Hsys as [|[Hpos Hal]]; [done|].
  destruct (close_current w) as [[] w1| |]; [|done..].
  intros [= <- <-]; simpl.
  pose proof alignment_bounds as Hb.
  pose proof block_size_multiple as Hbm.
  unfold allocator_inv; simpl. rewrite !sizeof_block_header_eq.
  split; [right|done].
  repeat split; try done.
  - pose proof (align_up_bounds size k ltac:(lia)) as Hu.
    rewrite <- alignment_pow2 in Hu. lia.
  - assert (align_up size alignment <= block_size - alignment); [|lia].
    rewrite alignment_pow2. apply align_up_le_multiple; [lia|..].
    + rewrite <- alignment_pow2. unfold max_object_size, block_size in *. lia.
    + rewrite <- alignment_pow2.
      rewrite <- Zminus_mod_idemp_r, Z_mod_same_full, Z.sub_0_r. done.
  - pose proof (mod_alignment_of_block _ Hal) as H1.
    pose proof (align_up_multiple size k ltac:(lia)) as H2.
    rewrite <- alignment_pow2 in H2.
    rewrite <- Z.add_assoc, Z.add_mod, H1, Z.add_0_l, Z.mod_mod by lia.
    rewrite Z.add_mod, Z_mod_same_full, H2 by lia. done.
Qed.

Lemma alloc_inv size sys w p w' :
  0 <= size -> libc_ok sys -> allocator_inv (this w) ->
  alloc alignment size sys w = Returned p w' -> allocator_inv (this w').
Proof.
  intros Hsize Hsys Hinv. unfold alloc.
  destruct (decide (size > max_object_size)).
  { unfold allocate_large_object. destruct (posix_memalign sys) as [ret ptr].
    destruct (decide (ret = 0)); [|done].
    intros [= <- <-]. done. }
  destruct (decide (_position_in_current (this w) + size > _current_end (this w))).
  { intros H. eapply allocate_new_block_inv in H; [tauto|lia|done]. }
  intros [= <- <-]; simpl.
  pose proof alignment_bounds as Hb.
  pose proof (align_up_bounds (_position_in_current (this w) + size) k ltac:(lia)) as Hu.
  rewrite <- alignment_pow2 in Hu.
  destruct Hinv as [(Hc & Hp & He)|(Hc & Hm & He & Hlo & Hhi & Hal)].
  - left. simpl. repeat split; try done.
    assert (size = 0) as -> by lia. rewrite Hp. apply align_up_0.
  - right. simpl. repeat split; try done; [lia| |].
    + rewrite alignment_pow2. apply align_up_le_multiple; [lia|lia|].
      rewrite <- alignment_pow2, He.
      rewrite Z.add_mod, (mod_alignment_of_block _ Hm), block_size_multiple by lia.
      done.
    + rewrite alignment_pow2. apply align_up_multiple. lia.
Qed.

Lemma alloc_thrown_this size sys w e w' :
  alloc alignment size sys w = Thrown e w' -> w' = w.
Proof.
  unfold alloc, allocate_large_object, allocate_new_block.
  destruct (decide (size > max_object_size)).
  { destruct (posix_memalign sys) as [ret ptr].
    destruct (decide (ret = 0)); [done|]. by inversion 1. }
  destruct (decide (_ > _)); [|done].
  destruct (decide (aligned_alloc sys = 0)); [by inversion 1|].
  unfold close_current.
  destruct (decide (_current (this w) = 0)); [done|].
  by destruct (headers w !! _current (this w)).
Qed.

Lemma free_this ptr w w' :
  free ptr w = Returned tt w' -> this w' = this w.
Proof.
  unfold free. destruct (headers w !! _); [|done].
  destruct (decide (_ = 0)); by inversion 1.
Qed.

Lemma run_inv cs : forall w w',
  Forall call_ok cs -> allocator_inv (this w) ->
  run alignment cs w = Returned tt w' -> allocator_inv (this w').
Proof.
  induction cs as [|c cs IH]; intros w w' Hok Hinv Hrun; simpl in Hrun.
  { by injection Hrun as <-. }
  apply Forall_cons in Hok as [Hc Hcs].
  destruct c as [size sys|ptr]; simpl in Hrun.
  - destruct Hc as [Hsize Hsys].
    destruct (alloc alignment size sys w) as [p w1|e w1|] eqn:Ha; [| |done].
    + eapply IH; [done| |done]. eapply alloc_inv; [| | |done]; [lia|done|done].
    + apply alloc_thrown_this in Ha. rewrite Ha in Hrun. eauto.
  - destruct (free ptr w) as [[] w1|e w1|] eqn:Hf; [| |done].
    + eapply IH; [done| |done]. apply free_this in Hf. by rewrite Hf.
    + unfold free in Hf. destruct (headers w !! _); [|done].
      by destruct (decide (_ = 0)).
Qed.

(** X5.  Every pointer handed out for a request of at least one byte
    and at most [max_object_size] bytes lies in the payload of its block,
    the object ending within the block, and is aligned. *)
Lemma alloc_pointer_in_block cs w size sys p w' :
  Forall call_ok cs -> libc_ok sys ->
  run alignment cs fresh_world = Returned tt w ->
  1 <= size <= max_object_size ->
  alloc alignment size sys w = Returned p w' ->
  sizeof_block_header alignment <= Z.land p (block_size - 1) <= block_size - size /\
  p mod alignment = 0.
Proof.
  intros Hcs Hsys Hrun Hsize Ha.
  pose proof (run_inv cs _ _ Hcs allocator_inv_fresh Hrun) as Hinv.
  pose proof alignment_bounds as Hb.
  unfold alloc in Ha.
  destruct (decide (size > max_object_size)); [lia|].
  destruct (decide (_ > _)) as [Hgt|Hle].
  - apply allocate_new_block_inv in Ha as (_ & -> & Hpos & Hal); [|lia|done].
    rewrite sizeof_block_header_eq.
    rewrite land_block_mask by lia.
    rewrite Z.add_mod, Hal, Z.add_0_l, Z.mod_mod by (unfold block_size; lia).
    rewrite (Z.mod_small alignment) by (unfold block_size; lia).
    split; [unfold block_size, max_object_size in *; lia|].
    rewrite Z.add_mod, (mod_alignment_of_block _ Hal), Z_mod_same_full by lia.
    done.
  - injection Ha as <- <-.
    destruct Hinv as [(Hc & Hp & He)|(Hc & Hm & He & Hlo & Hhi & Hal)]; [lia|].
    split; [|done].
    rewrite sizeof_block_header_eq in *.
    rewrite land_block_mask by lia.
    apply Z.mod_divide in Hm as [q Hq]; [|unfold block_size; lia].
    assert (Hmod : _position_in_current (this w) mod block_size
                   = _position_in_current (this w) - _current (this w)).
    { symmetry. apply (Z.mod_unique_pos _ _ q); unfold block_size in *; lia. }
    rewrite Hmod. lia.
Qed.

(** X6.  For a request of at least one byte a pointer that is returned
    is not null. *)
Lemma alloc_returns_non_null cs w size sys p w' :
  Forall call_ok cs -> libc_ok sys ->
  run alignment cs fresh_world = Returned tt w ->
  1 <= size ->
  alloc alignment size sys w = Returned p w' ->
  p <> 0.
Proof.
  intros Hcs Hsys Hrun Hsize Ha.
  pose proof (run_inv cs _ _ Hcs allocator_inv_fresh Hrun) as Hinv.
  pose proof alignment_bounds as Hb.
  pose proof sizeof_block_header_eq as Hh.
  unfold alloc in Ha.
  destruct (decide (size > max_object_size)).
  - unfold allocate_large_object in Ha.
    destruct Hsys as [_ Hsys].
    destruct (posix_memalign sys) as [ret ptr]. cbn [fst snd] in Hsys.
    destruct (decide (ret = 0)); [|done].
    injection Ha as <- _. specialize (Hsys ltac:(done)). lia.
  - destruct (decide (_ > _)).
    + apply allocate_new_block_inv in Ha as (_ & -> & Hpos & _);
        [lia|unfold max_object_size in *; lia|done].
    + injection Ha as <- _.
      destruct Hinv as [(Hc & Hp & He)|(Hc & Hm & He & Hlo & Hhi & Hal)]; lia.
Qed.
End temporary_memory_allocator_properties.

(** *** The deallocation path and the closing of a block *)

(** On a pointer whose block is live, [free(p)] finds the header at [p]
    aligned down to [block_size], that is at [p - p mod block_size],
    decrements its signed [_use_count] by one and gives the block back to
    the system exactly when the decremented counter is zero, leaving every
    other block and the allocator itself alone.  [close_current], when
    there is a current block, adds [_current_use_count] to the counter in
    the header of that block, gives the block back exactly when the sum is
    zero, and resets the allocator: no current block, bump position and
    count cleared. *)
Theorem free_and_close_current_spec (w : world) :
  (forall p c : Z,
     headers w !! align_down p block_size = Some c ->
     - 2 ^ 31 < c < 2 ^ 31 ->
     let hdr := Z.land p (Z.lnot (block_size - 1)) in
     hdr = p - p mod block_size /\
     exists w',
       free p w = Returned tt w' /\
       this w' = this w /\
       headers w' !! hdr = (if decide (c - 1 = 0) then None else Some (c - 1)) /\
       forall b, b <> hdr -> headers w' !! b = headers w !! b) /\
  (forall cc : Z,
     _current (this w) <> 0 ->
     headers w !! _current (this w) = Some cc ->
     - 2 ^ 31 <= cc + _current_use_count (this w) < 2 ^ 31 ->
     let sum := cc + _current_use_count (this w) in
     exists w',
       close_current w = Returned tt w' /\
       _current (this w') = 0 /\
       _position_in_current (this w') = 0 /\
       _current_use_count (this w') = 0 /\
       headers w' !! _current (this w) = (if decide (sum = 0) then None else Some sum) /\
       forall b, b <> _current (this w) -> headers w' !! b = headers w !! b).
Proof.
  split.
  - intros p c Hc Hrc hdr. split; [apply (align_down_mod p 17); lia|].
    unfold free. change (align_down p block_size) with hdr in *.
    rewrite Hc. rewrite sint32_id by lia.
    destruct (decide (c - 1 = 0)); eexists; (split; [reflexivity|]); simpl;
      (split; [done|]); split.
    + apply lookup_delete_eq.
    + intros b Hb. by apply lookup_delete_ne.
    + apply lookup_insert_eq.
    + intros b Hb. by apply lookup_insert_ne.
  - intros cc Hcur Hcc Hrs sum. unfold close_current.
    destruct (decide (_current (this w) = 0)); [done|].
    rewrite Hcc. rewrite sint32_id by lia. fold sum.
    destruct (decide (sum = 0)); eexists; (split; [reflexivity|]); simpl;
      repeat (split; [done|]); split.
    + apply lookup_delete_eq.
    + intros b Hb. by apply lookup_delete_ne.
    + apply lookup_insert_eq.
    + intros b Hb. by apply lookup_insert_ne.
Qed.

(** An open block at address [131072] into which two objects were
    allocated and one of them was freed already. *)
Definition open_block_world : world :=
  mk_world (mk_allocator 131072 (131072 + 48) (131072 + 131072) 2)
           {[ 131072 := -1 ]}.

Lemma free_and_close_current_spec_witness :
  (let hdr := Z.land (131072 + 32) (Z.lnot (block_size - 1)) in
   hdr = (131072 + 32) - (131072 + 32) mod block_size /\
   exists w',
     free (131072 + 32) open_block_world = Returned tt w' /\
     this w' = this open_block_world /\
     headers w' !! hdr = (if decide (-1 - 1 = 0) then None else Some (-1 - 1)) /\
     forall b, b <> hdr -> headers w' !! b = headers open_block_world !! b) /\
  (let sum := -1 + _current_use_count (this open_block_world) in
   exists w',
     close_current open_block_world = Returned tt w' /\
     _current (this w') = 0 /\
     _position_in_current (this w') = 0 /\
     _current_use_count (this w') = 0 /\
     headers w' !! _current (this open_block_world)
       = (if decide (sum = 0) then None else Some sum) /\
     forall b, b <> _current (this open_block_world) ->
               headers w' !! b = headers open_block_world !! b).
Proof.
  destruct (free_and_close_current_spec open_block_world) as [Hfree Hclose].
  split.
  - apply (Hfree (131072 + 32) (-1)).
    + reflexivity.
    + lia.
  - apply (Hclose (-1)).
    + simpl. lia.
    + reflexivity.
    + simpl. lia.
Defined.

(** Without a current block [close_current] does nothing. *)
Lemma close_current_no_block (w : world) :
  _current (this w) = 0 -> close_current w = Returned tt w.
Proof. intros H. unfold close_current. by rewrite decide_True. Qed.

(** *** Requests of size zero *)

(** C3.  On a default-constructed allocator [alloc(0)] takes the bump
    path ([nullptr + 0] is not beyond [_current_end = nullptr]), counts an
    allocation and returns the null pointer without raising. *)
Theorem alloc_zero_fresh_returns_null (alignment : Z) (sys : libc) :
  alloc alignment 0 sys fresh_world
  = Returned 0 (mk_world (mk_allocator 0 0 0 1) ∅).
Proof.
  unfold alloc.
  rewrite decide_False by (unfold max_object_size; lia).
  rewrite decide_False by (simpl; lia).
  simpl. rewrite align_up_0. reflexivity.
Qed.

(** Four requests that fill the payload of one block exactly. *)
Definition fill_one_block (sys : libc) : list call :=
  [call_alloc 32768 sys; call_alloc 32768 sys; call_alloc 32768 sys;
   call_alloc 32752 sys].

(** C6.  With the default new alignment 16 and the first block at address
    131072, four requests fill the block; the next [alloc(0)] returns the
    end of the block, whose offset within a block is 0, below
    [sizeof(block_header)], and whose header address (the pointer aligned
    down to [block_size]) is not the header of the block in use. *)
Theorem alloc_zero_at_block_end_leaves_block :
  let sys := mk_libc 131072 (12, 0) in
  exists w w',
    run 16 (fill_one_block sys) fresh_world = Returned tt w /\
    _current (this w) = 131072 /\
    alloc 16 0 sys w = Returned 262144 w' /\
    Z.land 262144 (block_size - 1) = 0 /\
    0 < sizeof_block_header 16 /\
    align_down 262144 block_size <> _current (this w).
Proof.
  intros sys. eexists _, _.
  split; [vm_compute; reflexivity|].
  split; [reflexivity|].
  split; [vm_compute; reflexivity|].
  vm_compute. repeat split; congruence.
Qed.

(** C2.  What the claim says of [free(p)] fails for the pointers [alloc]
    returns for requests of size zero, which lie in no block of theirs.
    On a default-constructed allocator [alloc(0)] returns the null pointer,
    and [free] of it looks for a header at address 0, where there is no
    block.  When four requests have filled the block at 131072, [alloc(0)]
    returns the end of the block, 262144: [free] of it looks for a header
    where no block is; and when the C library has placed the block of a
    large object there, [free] decrements the counter of that block and
    gives it back although the large object is live, while the counter of
    the block the pointer came from stays as it was. *)
Theorem free_of_zero_size_allocation :
  (forall (alignment : Z) (sys : libc),
     exists w,
       alloc alignment 0 sys fresh_world = Returned 0 w /\
       free 0 w = Undefined) /\
  (let sys := mk_libc 131072 (12, 0) in
   exists w w1,
     run 16 (fill_one_block sys) fresh_world = Returned tt w /\
     alloc 16 0 sys w = Returned 262144 w1 /\
     _current (this w1) = 131072 /\
     free 262144 w1 = Undefined) /\
  (let sys := mk_libc 131072 (0, 262144) in
   exists w w1 w2 w3,
     run 16 (fill_one_block sys) fresh_world = Returned tt w /\
     alloc 16 0 sys w = Returned 262144 w1 /\
     alloc 16 40000 sys w1 = Returned (262144 + sizeof_block_header 16) w2 /\
     headers w2 !! 262144 = Some 1 /\
     free 262144 w2 = Returned tt w3 /\
     headers w3 !! 262144 = None /\
     headers w3 !! 131072 = headers w2 !! 131072).
Proof.
  split; [|split].
  - intros alignment sys. eexists. split; [unfold alloc; rewrite decide_False by (unfold max_object_size; lia); rewrite decide_False by (simpl; lia); simpl; rewrite align_up_0; reflexivity|].
    reflexivity.
  - intros sys. eexists _, _.
    split; [vm_compute; reflexivity|].
    split; [vm_compute; reflexivity|].
    split; vm_compute; reflexivity.
  - intros sys. eexists _, _, _, _.
    split; [vm_compute; reflexivity|].
    split; [vm_compute; reflexivity|].
    split; [vm_compute; reflexivity|].
    split; [vm_compute; reflexivity|].
    split; [vm_compute; reflexivity|].
    split; vm_compute; reflexivity.
Qed.

(** *** A new block *)

(** C5, as it stands, fails: on a fresh allocator [alloc(16)] takes the
    new-block path and returns the address after the header, but the bump
    position is left after the first object, not after the header. *)
Lemma alloc_new_block_position_counterexample :
  let sys := mk_libc 131072 (12, 0) in
  16 <= max_object_size /\
  _position_in_current (this fresh_world) + 16 > _current_end (this fresh_world) /\
  exists w',
    alloc 16 16 sys fresh_world = Returned (131072 + sizeof_block_header 16) w' /\
    _position_in_current (this w') <> 131072 + sizeof_block_header 16.
Proof.
  intros sys. split; [unfold max_object_size; lia|]. split; [simpl; lia|].
  eexists. split; [vm_compute; reflexivity|]. vm_compute. congruence.
Qed.

(** C5, amended.  When a request of at most [max_object_size] bytes does
    not fit in the current block and [aligned_alloc] delivers a block, the
    current block is closed, the new block gets a header with a zero
    counter at its start and becomes the current one, [_current_use_count]
    is 1, the address right after the header is returned, and the bump
    position is that address plus the size rounded up to the alignment:
    past the first object and within the block. *)
Theorem alloc_new_block_spec (alignment k size : Z) (sys : libc) (w w1 : world) :
  alignment = 2 ^ k -> 2 <= k <= 16 ->
  0 <= size <= max_object_size ->
  _position_in_current (this w) + size > _current_end (this w) ->
  aligned_alloc sys <> 0 ->
  close_current w = Returned tt w1 ->
  let block := aligned_alloc sys in
  let p := block + sizeof_block_header alignment in
  alloc alignment size sys w
  = Returned p
      (mk_world
         (mk_allocator block (p + align_up size alignment) (block + block_size) 1)
         (<[block := 0]> (headers w1))) /\
  p + size <= p + align_up size alignment <= block + block_size.
Proof.
  intros Ha Hk Hsize Hend Hsys Hclose block p. split.
  - unfold alloc.
    rewrite decide_False by lia. rewrite decide_True by done.
    unfold allocate_new_block. rewrite decide_False by done.
    rewrite Hclose. reflexivity.
  - subst p. rewrite (sizeof_block_header_eq alignment k Ha Hk).
    pose proof (alignment_bounds alignment k Ha Hk) as Hb.
    pose proof (align_up_bounds size k ltac:(lia)) as Hu.
    rewrite <- Ha in Hu. split; [lia|].
    assert (align_up size alignment <= block_size - alignment); [|lia].
    rewrite Ha. apply align_up_le_multiple; [lia|..].
    + rewrite <- Ha. unfold max_object_size, block_size in *. lia.
    + rewrite <- Ha.
      rewrite <- Zminus_mod_idemp_r, Z_mod_same_full, Z.sub_0_r.
      by apply (block_size_multiple alignment k).
Qed.

Lemma alloc_new_block_spec_witness :
  let block := 131072 in
  let p := block + sizeof_block_header 16 in
  alloc 16 16 (mk_libc 131072 (12, 0)) fresh_world
  = Returned p
      (mk_world
         (mk_allocator block (p + align_up 16 16) (block + block_size) 1)
         (<[block := 0]> (headers fresh_world))) /\
  p + 16 <= p + align_up 16 16 <= block + block_size.
Proof.
  apply (alloc_new_block_spec 16 4 16 (mk_libc 131072 (12, 0)) fresh_world fresh_world).
  - reflexivity.
  - lia.
  - unfold max_object_size. lia.
  - simpl. lia.
  - simpl. lia.
  - reflexivity.
Defined.

(** C10.  On the new-block path a failing [aligned_alloc] makes [alloc]
    raise [bad_alloc] before anything is touched: the allocator and every
    block, the open one included, are as they were. *)
Theorem alloc_new_block_failure (alignment size : Z) (sys : libc) (w : world) :
  size <= max_object_size ->
  _position_in_current (this w) + size > _current_end (this w) ->
  aligned_alloc sys = 0 ->
  alloc alignment size sys w = Thrown bad_alloc w.
Proof.
  intros Hsize Hend Hsys. unfold alloc.
  rewrite decide_False by lia. rewrite decide_True by done.
  unfold allocate_new_block. by rewrite decide_True.
Qed.

Lemma alloc_new_block_failure_witness :
  alloc 16 32768 (mk_libc 0 (12, 0)) fresh_world
  = Thrown bad_alloc fresh_world.
Proof.
  apply alloc_new_block_failure.
  - unfold max_object_size. lia.
  - simpl. lia.
  - reflexivity.
Defined.

(** ** The allocator under valid use *)

Lemma live_in_nonneg live b : 0 <= live_in live b.
Proof. unfold live_in. lia. Qed.

Lemma live_in_le_length live b : live_in live b <= Z.of_nat (length live).
Proof. unfold live_in. pose proof (length_filter (fun p => align_down p block_size = b) live). lia. Qed.

Lemma live_in_cons p live b :
  live_in (p :: live) b
  = live_in live b + (if decide (align_down p block_size = b) then 1 else 0).
Proof.
  unfold live_in. rewrite filter_cons.
  destruct (decide (align_down p block_size = b)); cbn [length]; lia.
Qed.

Lemma live_in_remove_one p live b :
  p ∈ live ->
  live_in (remove_one p live) b
  = live_in live b - (if decide (align_down p block_size = b) then 1 else 0).
Proof.
  induction live as [|q live IH]; intros Hin; [by apply elem_of_nil in Hin|].
  cbn [remove_one]. destruct (decide (q = p)) as [->|Hne].
  - rewrite live_in_cons. lia.
  - apply elem_of_cons in Hin as [->|Hin]; [done|].
    rewrite !live_in_cons, IH by done. lia.
Qed.

Lemma live_in_elem p live :
  p ∈ live -> 1 <= live_in live (align_down p block_size).
Proof.
  induction live as [|q live IH]; intros Hin; [by apply elem_of_nil in Hin|].
  rewrite live_in_cons. pose proof (live_in_nonneg live (align_down p block_size)).
  apply elem_of_cons in Hin as [->|Hin].
  - rewrite decide_True by done. lia.
  - specialize (IH Hin). destruct (decide _); lia.
Qed.

Lemma length_remove_one p live : (length (remove_one p live) <= length live)%nat.
Proof.
  induction live as [|q live IH]; [done|]. cbn [remove_one].
  destruct (decide (q = p)); cbn [length]; lia.
Qed.

Lemma align_down_in_block b p :
  b mod block_size = 0 -> b <= p < b + block_size ->
  align_down p block_size = b.
Proof.
  intros Hb Hp. pose proof (align_down_mod p 17 ltac:(lia)) as Hd.
  change (2 ^ 17) with block_size in Hd. rewrite Hd.
  apply Z.mod_divide in Hb as [q Hq]; [|unfold block_size; lia].
  assert (p mod block_size = p - b); [|lia].
  symmetry. apply (Z.mod_unique_pos _ _ q); unfold block_size in *; lia.
Qed.


Section allocator_client_properties.
Variable alignment : Z.
Variable k : Z.
Hypothesis alignment_pow2 : alignment = 2 ^ k.
Hypothesis alignment_range : 2 <= k <= 16.

(** The state of the allocator and of the block counters after at most
    [n] allocations, for a client holding the pointers [live]. *)
Definition heap_inv (n : Z) (w : world) (live : list Z) : Prop :=
  allocator_inv alignment (this w) /\
  (forall b, headers w !! b = expected_header w live b) /\
  (_current (this w) <> 0 ->
     live_in live (_current (this w)) <= _current_use_count (this w)) /\
  0 <= _current_use_count (this w) <= n /\
  Z.of_nat (length live) <= n.

Lemma heap_inv_fresh : heap_inv 0 fresh_world [].
Proof.
  clear alignment_pow2 alignment_range.
  split; [apply allocator_inv_fresh|]. split_and!; try done.
  intros b. unfold expected_header. cbn [fresh_world this headers].
  rewrite lookup_empty.
  rewrite decide_False by (intros [_ H]; by apply H).
  by rewrite decide_True.
Qed.

Lemma heap_inv_mono n m w live : n <= m -> heap_inv n w live -> heap_inv m w live.
Proof.
  clear alignment_pow2 alignment_range.
  intros Hnm (? & ? & ? & ? & ?). split_and!; try done; lia.
Qed.

Lemma free_heap_inv n w live p :
  n < 2 ^ 31 -> heap_inv n w live -> p ∈ live ->
  exists w', free p w = Returned tt w' /\ heap_inv n w' (remove_one p live).
Proof.
  clear alignment_pow2 alignment_range.
  intros Hn (Hinv & Hcnt & Hopen & Hc & Hlen) Hin.
  pose proof (live_in_elem p live Hin) as Hone.
  pose proof (live_in_le_length live (align_down p block_size)) as Hmax.
  pose proof (length_remove_one p live) as Hrem.
  unfold free. set (b := align_down p block_size) in *.
  rewrite (Hcnt b). unfold expected_header.
  destruct (decide (b = _current (this w) /\ _current (this w) <> 0)) as [[Hb Hnz]|Hnb].
  - specialize (Hopen Hnz). rewrite <- Hb in Hopen.
    rewrite sint32_id by lia. rewrite decide_False by lia.
    eexists. split; [reflexivity|].
    split; [done|]. cbn [this headers]. split_and!; try done; try lia.
    + intros x. unfold expected_header. cbn [this].
      rewrite (live_in_remove_one p live x Hin). fold b.
      destruct (decide (x = b)) as [->|Hx].
      * rewrite lookup_insert_eq, decide_True by done.
        rewrite decide_True by done. f_equal. lia.
      * rewrite lookup_insert_ne by done. rewrite (Hcnt x). unfold expected_header.
        rewrite (decide_False (P := b = x)) by done.
        rewrite Z.sub_0_r. done.
    + intros _. rewrite (live_in_remove_one p live _ Hin). fold b.
      rewrite <- Hb. rewrite decide_True by done. lia.
  - rewrite decide_False by lia.
    rewrite sint32_id by lia.
    assert (Hexp : forall x, x <> b ->
              expected_header w (remove_one p live) x = expected_header w live x).
    { intros x Hx. unfold expected_header.
      rewrite (live_in_remove_one p live x Hin). fold b.
      rewrite (decide_False (P := b = x)) by done. by rewrite Z.sub_0_r. }
    assert (Hopen' : _current (this w) <> 0 ->
              live_in (remove_one p live) (_current (this w))
              <= _current_use_count (this w)).
    { intros Hnz. rewrite (live_in_remove_one p live _ Hin).
      specialize (Hopen Hnz). destruct (decide _); lia. }
    destruct (decide (live_in live b - 1 = 0)) as [Hz|Hz].
    + eexists. split; [reflexivity|].
      split; [done|]. cbn [this headers]. split_and!; try done; try lia.
      intros x. destruct (decide (x = b)) as [->|Hx].
      * rewrite lookup_delete_eq. unfold expected_header. cbn [this].
        rewrite decide_False by done.
        rewrite (live_in_remove_one p live b Hin). fold b.
        rewrite (decide_True (P := b = b)) by done. by rewrite decide_True.
      * rewrite lookup_delete_ne by done. rewrite (Hcnt x). symmetry.
        by apply Hexp.
    + eexists. split; [reflexivity|].
      split; [done|]. cbn [this headers]. split_and!; try done; try lia.
      intros x. destruct (decide (x = b)) as [->|Hx].
      * rewrite lookup_insert_eq. unfold expected_header. cbn [this].
        rewrite decide_False by done.
        rewrite (live_in_remove_one p live b Hin). fold b.
        rewrite (decide_True (P := b = b)) by done. by rewrite decide_False.
      * rewrite lookup_insert_ne by done. rewrite (Hcnt x). symmetry.
        by apply Hexp.
Qed.

Lemma libc_fresh_ok sys w : libc_fresh sys w -> libc_ok sys.
Proof.
  intros [Ha Hp]. split.
  - destruct Ha as [?|(? & ? & _)]; [by left|by right].
  - intros Hr. by destruct (Hp Hr) as (? & ? & _).
Qed.

Lemma fresh_block_not_live n w live a :
  heap_inv n w live -> headers w !! a = None ->
  live_in live a = 0 /\ (_current (this w) <> 0 -> a <> _current (this w)).
Proof.
  clear alignment_pow2 alignment_range.
  intros (_ & Hcnt & _) Ha. rewrite (Hcnt a) in Ha. unfold expected_header in Ha.
  destruct (decide (a = _current (this w) /\ _current (this w) <> 0)) as [|Hn]; [done|].
  destruct (decide (live_in live a = 0)); [|done].
  split; [done|]. intros Hnz ->. by apply Hn.
Qed.

Lemma close_current_heap_inv n w live :
  n < 2 ^ 31 -> heap_inv n w live ->
  exists w1,
    close_current w = Returned tt w1 /\
    forall x, headers w1 !! x
              = if decide (live_in live x = 0) then None else Some (live_in live x).
Proof.
  clear alignment_pow2 alignment_range.
  intros Hn (Hinv & Hcnt & Hopen & Hc & Hlen). unfold close_current.
  destruct (decide (_current (this w) = 0)) as [Hz|Hnz].
  - eexists. split; [reflexivity|]. intros x. rewrite (Hcnt x).
    unfold expected_header. rewrite decide_False; [done|]. intros [_ ?]. done.
  - specialize (Hopen Hnz). set (c := _current (this w)) in *.
    pose proof (live_in_nonneg live c) as H0.
    rewrite (Hcnt c). unfold expected_header. fold c.
    rewrite decide_True by done.
    replace (live_in live c - _current_use_count (this w) + _current_use_count (this w))
      with (live_in live c) by lia.
    rewrite sint32_id by lia.
    eexists. split; [reflexivity|]. cbn [headers]. intros x.
    assert (Hx : x <> c -> headers w !! x
              = if decide (live_in live x = 0) then None else Some (live_in live x)).
    { intros Hx. rewrite (Hcnt x). unfold expected_header. fold c.
      rewrite decide_False; [done|]. intros [? _]. done. }
    destruct (decide (live_in live c = 0)) as [Hl|Hl].
    + destruct (decide (x = c)) as [->|Hxc].
      * rewrite lookup_delete_eq. by rewrite decide_True.
      * rewrite lookup_delete_ne by done. by apply Hx.
    + destruct (decide (x = c)) as [->|Hxc].
      * rewrite lookup_insert_eq. by rewrite decide_False.
      * rewrite lookup_insert_ne by done. by apply Hx.
Qed.

(** An allocation of at least one byte is defined; when it returns, the
    counters account for the new pointer, and when it throws nothing has
    changed. *)
Lemma alloc_heap_inv n w live size sys :
  n + 1 < 2 ^ 31 -> heap_inv n w live -> 1 <= size -> libc_fresh sys w ->
  match alloc alignment size sys w with
  | Returned p w' => heap_inv (n + 1) w' (p :: live)
  | Thrown _ w' => w' = w
  | Undefined => False
  end.
Proof.
  intros Hn Hheap Hsize Hfresh.
  pose proof (alignment_bounds alignment k alignment_pow2 alignment_range) as Hb.
  pose proof (sizeof_block_header_eq alignment k alignment_pow2 alignment_range) as Hh.
  pose proof (libc_fresh_ok sys w Hfresh) as Hlibc.
  destruct (alloc alignment size sys w) as [p w'|e w'|] eqn:Ha.
  2:{ by apply alloc_thrown_this in Ha. }
  2:{ unfold alloc, allocate_large_object, allocate_new_block in Ha.
      destruct (decide (size > max_object_size)).
      { destruct (posix_memalign sys) as [ret ptr]. by destruct (decide (ret = 0)). }
      destruct (decide (_ > _)); [|done].
      destruct (decide (aligned_alloc sys = 0)); [done|].
      destruct (close_current_heap_inv n w live ltac:(lia) Hheap) as (w1 & Hcl & _).
      by rewrite Hcl in Ha. }
  pose proof Hheap as (Hinv & Hcnt & Hopen & Hc & Hlen).
  assert (Hinv' : allocator_inv alignment (this w')).
  { eapply (alloc_inv alignment k alignment_pow2 alignment_range size sys w p w');
      [lia|done|done|done]. }
  split; [done|].
  unfold alloc in Ha.
  destruct (decide (size > max_object_size)) as [Hlarge|Hsmall].
  - (* large object *)
    unfold allocate_large_object in Ha. destruct Hfresh as [_ Hfresh].
    destruct (posix_memalign sys) as [ret ptr]. cbn [fst snd] in Hfresh.
    destruct (decide (ret = 0)) as [Hret|]; [|done].
    destruct (Hfresh Hret) as (Hpos & Hal & Hnone).
    injection Ha as <- <-. cbn [this headers].
    destruct (fresh_block_not_live n w live ptr Hheap Hnone) as [Hl0 Hne].
    assert (Hblock : align_down (ptr + sizeof_block_header alignment) block_size = ptr).
    { apply align_down_in_block; [done|]. rewrite Hh. unfold block_size. lia. }
    split_and!; try lia.
    + intros x. unfold expected_header. cbn [this].
      rewrite live_in_cons, Hblock.
      destruct (decide (x = ptr)) as [->|Hx].
      * rewrite lookup_insert_eq. rewrite decide_False by (intros [? ?]; by apply Hne).
        rewrite (decide_True (P := ptr = ptr)) by done.
        rewrite decide_False by lia. f_equal. lia.
      * rewrite lookup_insert_ne by done. rewrite (Hcnt x). unfold expected_header.
        rewrite (decide_False (P := ptr = x)) by done. by rewrite Z.add_0_r.
    + intros Hnz. rewrite live_in_cons, Hblock.
      rewrite decide_False by (by apply Hne). specialize (Hopen Hnz). lia.
    + cbn [length]. lia.
  - destruct (decide (_position_in_current (this w) + size > _current_end (this w)))
      as [Hnew|Hbump].
    + (* new block *)
      unfold allocate_new_block in Ha. destruct Hfresh as [Hfresh _].
      destruct (decide (aligned_alloc sys = 0)) as [|Hnz]; [done|].
      destruct Hfresh as [|(Hpos & Hal & Hnone)]; [done|].
      destruct (close_current_heap_inv n w live ltac:(lia) Hheap) as (w1 & Hcl & Hw1).
      rewrite Hcl in Ha. injection Ha as <- <-. cbn [this headers _current _current_use_count].
      set (a := aligned_alloc sys) in *.
      destruct (fresh_block_not_live n w live a Hheap Hnone) as [Hl0 Hne].
      assert (Hblock : align_down (a + sizeof_block_header alignment) block_size = a).
      { apply align_down_in_block; [done|]. rewrite Hh. unfold block_size. lia. }
      split_and!; try lia.
      * intros x. unfold expected_header. cbn [this _current _current_use_count].
        rewrite live_in_cons, Hblock.
        destruct (decide (x = a)) as [->|Hx].
        -- rewrite lookup_insert_eq. rewrite decide_True by (split; [done|lia]).
           rewrite (decide_True (P := a = a)) by done. f_equal. lia.
        -- rewrite lookup_insert_ne by done. rewrite (Hw1 x).
           rewrite (decide_False (P := x = a /\ a <> 0)) by (intros [? _]; done).
           rewrite (decide_False (P := a = x)) by done. by rewrite Z.add_0_r.
      * intros _. rewrite live_in_cons, Hblock.
        rewrite (decide_True (P := a = a)) by done. lia.
      * cbn [length]. lia.
    + (* bump *)
      injection Ha as <- <-. cbn [this headers _current _current_use_count].
      destruct Hinv as [(Hc0 & Hp0 & He0)|(Hcpos & Hcal & Hend & Hlo & Hhi & Hpal)]; [lia|].
      set (c := _current (this w)) in *.
      assert (Hblock : align_down (_position_in_current (this w)) block_size = c).
      { apply align_down_in_block; [done|]. rewrite Hh in Hlo. lia. }
      specialize (Hopen ltac:(lia)).
      rewrite sint32_id by lia.
      split_and!; try lia.
      * intros x. unfold expected_header. cbn [this _current _current_use_count]. fold c.
        rewrite live_in_cons, Hblock. rewrite (Hcnt x). unfold expected_header. fold c.
        destruct (decide (x = c /\ c <> 0)) as [[-> _]|Hx].
        -- rewrite (decide_True (P := c = c)) by done. f_equal. lia.
        -- rewrite (decide_False (P := c = x)); [by rewrite Z.add_0_r|].
           intros <-. apply Hx. split; [done|lia].
      * intros _. rewrite live_in_cons, Hblock.
        rewrite (decide_True (P := c = c)) by done. lia.
      * cbn [length]. lia.
Qed.
End allocator_client_properties.


Lemma run_live_heap_inv (alignment k : Z) (cs : list call) :
  alignment = 2 ^ k -> 2 <= k <= 16 ->
  forall n w live,
  heap_inv alignment n w live ->
  n + Z.of_nat (length cs) < 2 ^ 31 ->
  valid_use alignment cs w live = true ->
  exists w' live',
    run_live alignment cs w live = Some (w', live') /\
    heap_inv alignment (n + Z.of_nat (length cs)) w' live'.
Proof.
  intros Ha Hk. induction cs as [|c cs IH]; intros n w live Hinv Hn Hvalid.
  { exists w, live. split; [done|]. cbn [length]. by rewrite Z.add_0_r. }
  cbn [length] in Hn |- *. rewrite Nat2Z.inj_succ in Hn |- *.
  destruct c as [size sys|ptr]; cbn [valid_use run_live] in Hvalid |- *.
  - apply andb_true_iff in Hvalid as [Hreq Hvalid].
    apply bool_decide_eq_true in Hreq as [Hsize Hfresh].
    pose proof (alloc_heap_inv alignment k Ha Hk n w live size sys ltac:(lia)
                  Hinv Hsize Hfresh) as Hstep.
    destruct (alloc alignment size sys w) as [p w'|e w'|]; [| |done].
    + destruct (IH (n + 1) w' (p :: live) Hstep ltac:(lia) Hvalid)
        as (w2 & live2 & Hrun & Hinv2).
      exists w2, live2. split; [done|].
      by replace (n + Z.succ (Z.of_nat (length cs)))
        with (n + 1 + Z.of_nat (length cs)) by lia.
    + subst w'.
      destruct (IH n w live Hinv ltac:(lia) Hvalid) as (w2 & live2 & Hrun & Hinv2).
      exists w2, live2. split; [done|].
      apply heap_inv_mono with (n := n + Z.of_nat (length cs)); [lia|done].
  - apply andb_true_iff in Hvalid as [Hheld Hvalid].
    apply bool_decide_eq_true in Hheld.
    destruct (free_heap_inv alignment n w live ptr ltac:(lia) Hinv Hheld)
      as (w' & Hfree & Hinv').
    rewrite Hfree in Hvalid |- *.
    destruct (IH n w' (remove_one ptr live) Hinv' ltac:(lia) Hvalid)
      as (w2 & live2 & Hrun & Hinv2).
    exists w2, live2. split; [done|].
    apply heap_inv_mono with (n := n + Z.of_nat (length cs)); [lia|done].
Qed.

(** X1.  A client that asks for at least one byte at a time and frees
    only pointers it holds never runs into undefined behaviour, and the
    block counters are exact: a block other than the open one is live
    exactly when the client holds pointers into it and its counter is
    their number; the counter of the open block is that number less
    [_current_use_count]. *)
Theorem valid_use_keeps_counters (alignment k : Z) (cs : list call) :
  alignment = 2 ^ k -> 2 <= k <= 16 ->
  Z.of_nat (length cs) < 2 ^ 31 ->
  valid_use alignment cs fresh_world [] = true ->
  exists w live,
    run_live alignment cs fresh_world [] = Some (w, live) /\
    forall b, headers w !! b = expected_header w live b.
Proof.
  intros Ha Hk Hlen Hvalid.
  destruct (run_live_heap_inv alignment k cs Ha Hk 0 fresh_world []
              (heap_inv_fresh alignment) ltac:(lia) Hvalid)
    as (w & live & Hrun & _ & Hcnt & _).
  by exists w, live.
Qed.

(** Two small objects, one of them freed, then a large object, and all
    of it freed in another order. *)
Definition client_calls : list call :=
  [call_alloc 16 (mk_libc 131072 (0, 262144));
   call_alloc 16 (mk_libc 393216 (0, 262144));
   call_free 131104;
   call_alloc 40000 (mk_libc 393216 (0, 262144));
   call_free 131088;
   call_free 262160].

Lemma valid_use_keeps_counters_witness :
  exists w live,
    run_live 16 client_calls fresh_world [] = Some (w, live) /\
    forall b, headers w !! b = expected_header w live b.
Proof.
  apply (valid_use_keeps_counters 16 4 client_calls).
  - reflexivity.
  - lia.
  - vm_compute. reflexivity.
  - vm_compute. reflexivity.
Defined.

(** X2.  When such a client has freed every pointer it was given, every
    block but the open one is back with the system; the open block stays,
    its counter being minus the number of allocations made in it (the
    class has no destructor that would close it). *)
Theorem all_freed_blocks_released (alignment k : Z) (cs : list call) (w : world) :
  alignment = 2 ^ k -> 2 <= k <= 16 ->
  Z.of_nat (length cs) < 2 ^ 31 ->
  valid_use alignment cs fresh_world [] = true ->
  run_live alignment cs fresh_world [] = Some (w, []) ->
  (forall b, b <> _current (this w) -> headers w !! b = None) /\
  (_current (this w) <> 0 ->
     headers w !! _current (this w) = Some (- _current_use_count (this w))).
Proof.
  intros Ha Hk Hlen Hvalid Hrun.
  destruct (run_live_heap_inv alignment k cs Ha Hk 0 fresh_world []
              (heap_inv_fresh alignment) ltac:(lia) Hvalid)
    as (w' & live & Hrun' & _ & Hcnt & _).
  rewrite Hrun in Hrun'. injection Hrun' as <- <-.
  split.
  - intros b Hb. rewrite (Hcnt b). unfold expected_header.
    rewrite decide_False by (intros [? _]; done). done.
  - intros Hnz. rewrite (Hcnt _). unfold expected_header.
    rewrite decide_True by done. done.
Qed.

Lemma all_freed_blocks_released_witness :
  exists w,
    run_live 16 client_calls fresh_world [] = Some (w, []) /\
    (forall b, b <> _current (this w) -> headers w !! b = None) /\
    (_current (this w) <> 0 ->
       headers w !! _current (this w) = Some (- _current_use_count (this w))).
Proof.
  eexists. split; [vm_compute; reflexivity|].
  apply (all_freed_blocks_released 16 4 client_calls).
  - reflexivity.
  - lia.
  - vm_compute. reflexivity.
  - vm_compute. reflexivity.
  - vm_compute. reflexivity.
Defined.


(** X3.  A large object comes and goes without a trace: the request is
    served from a block of its own, the data members of the allocator are
    not touched, and freeing the pointer gives the block back, which
    leaves allocator and memory exactly as they were. *)
Theorem large_object_alloc_free (alignment k size ptr : Z) (sys : libc) (w : world) :
  alignment = 2 ^ k -> 2 <= k <= 16 ->
  size > max_object_size ->
  posix_memalign sys = (0, ptr) ->
  ptr mod block_size = 0 ->
  headers w !! ptr = None ->
  exists w',
    alloc alignment size sys w = Returned (ptr + sizeof_block_header alignment) w' /\
    this w' = this w /\
    headers w' !! ptr = Some 1 /\
    free (ptr + sizeof_block_header alignment) w' = Returned tt w.
Proof.
  intros Ha Hk Hsize Hsys Hal Hnone.
  pose proof (alignment_bounds alignment k Ha Hk) as Hb.
  pose proof (sizeof_block_header_eq alignment k Ha Hk) as Hh.
  unfold alloc. rewrite decide_True by done.
  unfold allocate_large_object. rewrite Hsys. rewrite decide_True by done.
  eexists. split; [reflexivity|]. cbn [this headers].
  split; [done|]. split; [apply lookup_insert_eq|].
  unfold free. cbn [this headers].
  rewrite (align_down_in_block ptr)
    by (try done; rewrite Hh; unfold block_size; lia).
  rewrite lookup_insert_eq. rewrite sint32_id by lia.
  rewrite decide_True by lia.
  rewrite delete_insert_id by done. by destruct w.
Qed.

Lemma large_object_alloc_free_witness :
  exists w',
    alloc 16 524288 (mk_libc 0 (0, 131072)) fresh_world
      = Returned (131072 + sizeof_block_header 16) w' /\
    this w' = this fresh_world /\
    headers w' !! 131072 = Some 1 /\
    free (131072 + sizeof_block_header 16) w' = Returned tt fresh_world.
Proof.
  apply (large_object_alloc_free 16 4 524288 131072 (mk_libc 0 (0, 131072)) fresh_world).
  - reflexivity.
  - lia.
  - unfold max_object_size. lia.
  - reflexivity.
  - reflexivity.
  - reflexivity.
Defined.

(** X4.  Two objects allocated one after the other from the same block do
    not overlap: when a request of at most [max_object_size] bytes is
    followed by one that fits in the current block, the second object
    starts at or after the end of the first and ends within the block. *)
Theorem successive_allocations_disjoint (alignment k size1 size2 : Z)
    (sys1 sys2 : libc) (w w1 w2 : world) (p1 p2 : Z) :
  alignment = 2 ^ k -> 2 <= k <= 16 ->
  0 <= size1 <= max_object_size ->
  0 <= size2 <= max_object_size ->
  alloc alignment size1 sys1 w = Returned p1 w1 ->
  _position_in_current (this w1) + size2 <= _current_end (this w1) ->
  alloc alignment size2 sys2 w1 = Returned p2 w2 ->
  p1 + size1 <= p2 /\ p2 + size2 <= _current_end (this w2) /\
  _current (this w2) = _current (this w1).
Proof.
  intros Ha Hk Hs1 Hs2 Ha1 Hfit Ha2.
  pose proof (align_up_bounds size1 k ltac:(lia)) as Hu1.
  rewrite <- Ha in Hu1.
  assert (Hpos : p1 + size1 <= _position_in_current (this w1)).
  { unfold alloc in Ha1. rewrite decide_False in Ha1 by lia.
    destruct (decide (_ > _)).
    - unfold allocate_new_block in Ha1.
      destruct (decide (aligned_alloc sys1 = 0)); [done|].
      destruct (close_current w); [|done..].
      injection Ha1 as <- <-. cbn. lia.
    - injection Ha1 as <- <-. cbn.
      pose proof (align_up_bounds (_position_in_current (this w) + size1) k ltac:(lia)) as Hu.
      rewrite <- Ha in Hu. lia. }
  unfold alloc in Ha2. rewrite decide_False in Ha2 by lia.
  rewrite decide_False in Ha2 by lia.
  injection Ha2 as <- <-. cbn. split; [done|]. split; [lia|done].
Qed.

(** The allocator after a first allocation of 24 bytes, and after a
    second one of 8 bytes. *)
Definition after_24_bytes : world :=
  mk_world (mk_allocator 131072 131120 262144 1) {[131072 := 0]}.

Definition after_24_and_8_bytes : world :=
  mk_world (mk_allocator 131072 131136 262144 2) {[131072 := 0]}.

Lemma successive_allocations_disjoint_witness :
  131088 + 24 <= 131120 /\ 131120 + 8 <= _current_end (this after_24_and_8_bytes) /\
  _current (this after_24_and_8_bytes) = _current (this after_24_bytes).
Proof.
  apply (successive_allocations_disjoint 16 4 24 8
           (mk_libc 131072 (12, 0)) (mk_libc 0 (12, 0))
           fresh_world after_24_bytes after_24_and_8_bytes 131088 131120).
  - reflexivity.
  - lia.
  - unfold max_object_size. lia.
  - unfold max_object_size. lia.
  - vm_compute. reflexivity.
  - vm_compute. discriminate.
  - vm_compute. reflexivity.
Defined.


(** A first allocation of 16 bytes, which opens the block at 131072. *)
Definition one_allocation : list call := [call_alloc 16 (mk_libc 131072 (12, 0))].

Definition after_one_allocation : world :=
  mk_world (mk_allocator 131072 131104 262144 1) {[131072 := 0]}.

Lemma libc_ok_failing : libc_ok (mk_libc 0 (12, 0)).
Proof. split; [by left|]. cbn. lia. Qed.

Lemma one_allocation_ok : Forall call_ok one_allocation.
Proof.
  constructor; [|constructor]. split; [lia|]. split; [|cbn; lia].
  right. split; [cbn; lia|reflexivity].
Qed.

Lemma alloc_pointer_in_block_witness :
  sizeof_block_header 16 <= Z.land 131104 (block_size - 1) <= block_size - 24 /\
  131104 mod 16 = 0.
Proof.
  apply (alloc_pointer_in_block 16 4 eq_refl ltac:(lia) one_allocation
           after_one_allocation 24 (mk_libc 0 (12, 0)) 131104
           (mk_world (mk_allocator 131072 131136 262144 2) {[131072 := 0]})).
  - apply one_allocation_ok.
  - apply libc_ok_failing.
  - vm_compute. reflexivity.
  - unfold max_object_size. lia.
  - vm_compute. reflexivity.
Defined.

Lemma alloc_returns_non_null_witness :
  alloc 16 24 (mk_libc 0 (12, 0)) after_one_allocation
    = Returned 131104 (mk_world (mk_allocator 131072 131136 262144 2) {[131072 := 0]}) /\
  131104 <> 0.
Proof.
  split; [vm_compute; reflexivity|].
  apply (alloc_returns_non_null 16 4 eq_refl ltac:(lia) one_allocation
           after_one_allocation 24 (mk_libc 0 (12, 0)) 131104
           (mk_world (mk_allocator 131072 131136 262144 2) {[131072 := 0]})).
  - apply one_allocation_ok.
  - apply libc_ok_failing.
  - vm_compute. reflexivity.
  - lia.
  - vm_compute. reflexivity.
Defined.

(** ** Fragmented LZ4 compressor *)

(** *** Buffers, headers and the flag bit *)

Lemma buf_size_nonneg (b : list byte) : 0 <= buf_size b.
Proof. unfold buf_size. lia. Qed.

Lemma buf_size_app (a b : list byte) : buf_size (a ++ b) = buf_size a + buf_size b.
Proof. unfold buf_size. rewrite length_app. lia. Qed.

Lemma buf_size_nil : buf_size [] = 0.
Proof. reflexivity. Qed.

Lemma buf_size_take (n : Z) (b : list byte) :
  0 <= n <= buf_size b -> buf_size (take (Z.to_nat n) b) = n.
Proof. unfold buf_size. rewrite length_take. lia. Qed.

Lemma buf_size_drop (n : Z) (b : list byte) :
  0 <= n <= buf_size b -> buf_size (drop (Z.to_nat n) b) = buf_size b - n.
Proof. unfold buf_size. rewrite length_drop. lia. Qed.

Lemma buf_size_new (junk : list byte) (n : Z) :
  0 <= n -> buf_size (temporary_buffer_new junk n) = n.
Proof. unfold buf_size, temporary_buffer_new. rewrite length_resize. lia. Qed.

Lemma buf_size_write_le (v : Z) : buf_size (write_le v) = 4.
Proof. unfold buf_size, write_le. by rewrite length_le_split. Qed.

Lemma take_all_buf (b : list byte) : take (Z.to_nat (buf_size b)) b = b.
Proof. unfold buf_size. rewrite Nat2Z.id. apply firstn_all. Qed.

Lemma le_to_cpu_write_le (v : Z) : 0 <= v < 2 ^ 32 -> le_to_cpu (write_le v) = v.
Proof.
  intros Hv. unfold le_to_cpu, write_le. rewrite le_combine_split.
  apply Z.mod_small. simpl. lia.
Qed.

Lemma size_t_id (z : Z) : 0 <= z < 2 ^ 64 -> size_t z = z.
Proof. apply Z.mod_small. Qed.

Lemma uint32_id (z : Z) : 0 <= z < 2 ^ 32 -> uint32 z = z.
Proof. apply Z.mod_small. Qed.

Lemma land_flag_below (n : Z) : 0 <= n < 2 ^ 31 -> Z.land n last_chunk_flag = 0.
Proof.
  intros Hn. rewrite <- (Z.mod_small n (2 ^ 31)) by lia.
  rewrite <- Z.land_ones by lia. rewrite <- Z.land_assoc. apply Z.land_0_r.
Qed.

Lemma lor_flag (n : Z) : 0 <= n < 2 ^ 31 -> Z.lor last_chunk_flag n = 2 ^ 31 + n.
Proof.
  intros Hn. pose proof (land_flag_below n Hn) as H0.
  rewrite Z.land_comm in H0.
  rewrite <- Z.lxor_lor by done. symmetry. by apply Z.add_nocarry_lxor.
Qed.

Lemma testbit_31_below (n : Z) : 0 <= n < 2 ^ 31 -> Z.testbit n 31 = false.
Proof.
  intros Hn. apply Z.testbit_false; [lia|]. by rewrite Z.div_small.
Qed.

Lemma testbit_31_flag (n : Z) : Z.testbit (Z.lor last_chunk_flag n) 31 = true.
Proof. rewrite Z.lor_spec. reflexivity. Qed.

Lemma land_lor_flag (n : Z) :
  0 <= n < 2 ^ 31 -> Z.land (Z.lor last_chunk_flag n) last_chunk_flag <> 0.
Proof.
  intros Hn. rewrite Z.land_lor_distr_l, (land_flag_below n Hn).
  rewrite Z.land_diag, Z.lor_0_r. by vm_compute.
Qed.

Lemma unflag_lor_flag (n : Z) :
  0 <= n < 2 ^ 31 ->
  Z.land (Z.lor last_chunk_flag n) (uint32 (Z.lnot last_chunk_flag)) = n.
Proof.
  intros Hn. change (uint32 (Z.lnot last_chunk_flag)) with (Z.ones 31).
  rewrite Z.land_lor_distr_l.
  change (Z.land last_chunk_flag (Z.ones 31)) with 0.
  rewrite Z.lor_0_l, Z.land_ones by lia. apply Z.mod_small. lia.
Qed.

Lemma copy_n_ok (src dst : list byte) (offset : Z) :
  0 <= offset -> offset + buf_size src <= buf_size dst ->
  copy_n src dst offset
  = Ok (take (Z.to_nat offset) dst ++ src
          ++ drop (Z.to_nat (offset + buf_size src)) dst).
Proof. intros. unfold copy_n. by rewrite decide_True. Qed.

Lemma copy_n_inv (src dst dst' : list byte) (offset : Z) :
  copy_n src dst offset = Ok dst' ->
  0 <= offset /\ offset + buf_size src <= buf_size dst /\
  dst' = take (Z.to_nat offset) dst ++ src
           ++ drop (Z.to_nat (offset + buf_size src)) dst.
Proof.
  unfold copy_n. destruct (decide _) as [[? ?]|]; [|done].
  intros [= <-]. done.
Qed.

Lemma copy_n_whole (src dst : list byte) :
  buf_size src = buf_size dst -> copy_n src dst 0 = Ok src.
Proof.
  intros H. rewrite copy_n_ok by (pose proof (buf_size_nonneg src); lia).
  simpl. rewrite drop_ge by (unfold buf_size in *; lia).
  by rewrite app_nil_r.
Qed.

(** *** Writing chunks to the output buffers *)

(** The bytes written so far, the bounds of the write position, and the
    first buffer of the output as it will be returned. *)
Definition written (st : dst_state) : list byte :=
  concat (dst_done st) ++ take (Z.to_nat (dst_offset st)) (dst_back st).

Definition dst_wf (st : dst_state) : Prop :=
  0 <= dst_offset st <= buf_size (dst_back st) /\ buf_size (dst_back st) < 2 ^ 64.

Definition first_segment (st : dst_state) : list byte :=
  match dst_done st with
  | [] => take (Z.to_nat (dst_offset st)) (dst_back st)
  | b :: _ => b
  end.

Definition next_buffer (garbage : nat -> list byte) (st : dst_state) : dst_state :=
  if decide (dst_offset st = buf_size (dst_back st)) then
    mk_dst (dst_done st ++ [dst_back st])
      (temporary_buffer_new (garbage (S (length (dst_done st)))) chunk_size) 0
  else st.

Lemma write_chunk_loop_step garbage fuel x src st :
  write_chunk_loop garbage (S fuel) (x :: src) st =
  let st1 := next_buffer garbage st in
  let this_length :=
    Z.min (size_t (buf_size (dst_back st1) - dst_offset st1)) (buf_size (x :: src)) in
  dst' ← copy_n (take (Z.to_nat this_length) (x :: src)) (dst_back st1) (dst_offset st1);
  write_chunk_loop garbage fuel (drop (Z.to_nat this_length) (x :: src))
    (mk_dst (dst_done st1) dst' (dst_offset st1 + this_length)).
Proof. reflexivity. Qed.

Lemma next_buffer_spec garbage st :
  dst_wf st ->
  let st1 := next_buffer garbage st in
  0 <= dst_offset st1 < buf_size (dst_back st1) /\
  buf_size (dst_back st1) < 2 ^ 64 /\
  written st1 = written st /\
  first_segment st1 = first_segment st /\
  (dst_done st <> [] -> dst_done st1 <> []).
Proof.
  intros [Hoff Hsz]. unfold next_buffer.
  destruct (decide (dst_offset st = buf_size (dst_back st))) as [He|Hne]; simpl.
  - rewrite buf_size_new by (unfold chunk_size; lia).
    split; [unfold chunk_size; lia|]. split; [unfold chunk_size; lia|].
    unfold written, first_segment; simpl.
    rewrite He, take_all_buf, concat_app. simpl. rewrite !app_nil_r.
    split; [done|]. split; [by destruct (dst_done st)|].
    by destruct (dst_done st).
  - repeat split; try done; lia.
Qed.

Lemma write_chunk_loop_spec garbage fuel : forall src st,
  dst_wf st -> (length src <= fuel)%nat ->
  exists st',
    write_chunk_loop garbage fuel src st = Ok st' /\
    dst_wf st' /\
    written st' = written st ++ src /\
    first_segment st `prefix_of` first_segment st' /\
    (dst_done st <> [] -> dst_done st' <> []).
Proof.
  induction fuel as [|fuel IH]; intros src st Hwf Hfuel.
  { destruct src; [|simpl in Hfuel; lia].
    exists st. simpl. rewrite app_nil_r. done. }
  destruct src as [|x src].
  { exists st. simpl. rewrite app_nil_r. done. }
  rewrite write_chunk_loop_step.
  destruct (next_buffer_spec garbage st Hwf) as (Hoff & Hsz & Hw & Hf & Hd).
  set (st1 := next_buffer garbage st) in *.
  cbv zeta.
  set (room := buf_size (dst_back st1) - dst_offset st1).
  rewrite (size_t_id room) by (unfold room; lia).
  set (this_length := Z.min room (buf_size (x :: src))).
  assert (Hlen : 1 <= this_length <= buf_size (x :: src)).
  { unfold this_length, room, buf_size in *. simpl. lia. }
  assert (Htake : buf_size (take (Z.to_nat this_length) (x :: src)) = this_length).
  { apply buf_size_take. lia. }
  rewrite copy_n_ok by (unfold this_length, room in *; lia).
  rewrite Htake. simpl mbind. unfold mbind, result_bind.
  set (dst' := take (Z.to_nat (dst_offset st1)) (dst_back st1) ++ _ ++ _).
  set (st2 := mk_dst _ dst' _).
  assert (Hdst' : buf_size dst' = buf_size (dst_back st1)).
  { unfold dst'. rewrite !buf_size_app, Htake.
    rewrite buf_size_take, buf_size_drop by (unfold this_length, room in *; lia). lia. }
  destruct (IH (drop (Z.to_nat this_length) (x :: src)) st2) as (st' & Hrun & Hwf' & Hw' & Hf' & Hd').
  { unfold dst_wf, st2; simpl. rewrite Hdst'. unfold this_length, room in *. lia. }
  { rewrite length_drop. unfold buf_size in *. simpl in *. lia. }
  exists st'. split; [done|]. split; [done|].
  assert (Hw2 : written st2 = written st1 ++ take (Z.to_nat this_length) (x :: src)).
  { unfold written, st2; simpl. rewrite <- app_assoc. f_equal.
    unfold dst'. rewrite app_assoc.
    rewrite take_app_length'; [done|].
    rewrite length_app, length_take. unfold buf_size in *. lia. }
  split.
  { rewrite Hw', Hw2, Hw, <- app_assoc. by rewrite take_drop. }
  split.
  { etrans; [|exact Hf']. rewrite <- Hf.
    unfold first_segment, st2; simpl. destruct (dst_done st1); [|done].
    unfold dst'. rewrite app_assoc.
    rewrite take_app_length' by (rewrite length_app, length_take; unfold buf_size in *; lia).
    by apply prefix_app_r. }
  intros H. apply Hd'. unfold st2; simpl. by apply Hd.
Qed.

(** *** What [compress] writes *)

Arguments write_le : simpl never.
Arguments le_to_cpu : simpl never.
Arguments temporary_buffer_new : simpl never.
Arguments buf_size : simpl never.

Lemma LZ4_COMPRESSBOUND_chunk_size : LZ4_COMPRESSBOUND chunk_size = 131602.
Proof. reflexivity. Qed.

Lemma LZ4_COMPRESSBOUND_le (n : Z) :
  0 <= n <= chunk_size ->
  n <= LZ4_COMPRESSBOUND n <= LZ4_COMPRESSBOUND chunk_size.
Proof.
  intros Hn. rewrite LZ4_COMPRESSBOUND_chunk_size. unfold LZ4_COMPRESSBOUND.
  unfold chunk_size, LZ4_MAX_INPUT_SIZE in *.
  rewrite decide_False by lia.
  assert (0 <= n / 255 <= 514).
  { split; [apply Z.div_pos; lia|].
    change 514 with (131072 / 255). apply Z.div_le_mono; lia. }
  lia.
Qed.

Section compress_properties.
Context {lz4 : LZ4} {lz4_ok : LZ4_correct lz4}.
Variable garbage : nat -> list byte.

Lemma compressed_size_bound stream src cap :
  0 <= cap <= LZ4_COMPRESSBOUND chunk_size ->
  0 <= buf_size (LZ4_compress_fast_continue stream src cap) <= 131602.
Proof.
  intros Hcap. rewrite <- LZ4_COMPRESSBOUND_chunk_size.
  pose proof (compress_within_capacity stream src cap ltac:(lia)).
  pose proof (buf_size_nonneg (LZ4_compress_fast_continue stream src cap)). lia.
Qed.

Lemma write_chunk_to_dst_spec header_value payload st :
  dst_wf st ->
  exists st',
    write_chunk_to_dst garbage header_value payload st = Ok st' /\
    dst_wf st' /\
    written st' = written st ++ write_le (uint32 header_value) ++ payload /\
    first_segment st `prefix_of` first_segment st' /\
    (dst_done st <> [] -> dst_done st' <> []).
Proof.
  intros Hwf. unfold write_chunk_to_dst.
  by apply write_chunk_loop_spec.
Qed.

Lemma intermediate_chunks_inv : forall src stream sl total st src' stream' sl' total' st',
  dst_wf st -> 0 <= sl < 2 ^ 32 ->
  intermediate_chunks garbage src stream sl total st
    = Ok (src', stream', sl', total', st') ->
  exists mids,
    src = mids ++ src' /\
    Forall (fun b => buf_size b = chunk_size) mids /\
    stream' = stream ++ concat mids /\
    sl = sl' + chunk_size * Z.of_nat (length mids) /\
    0 <= sl' <= chunk_size /\
    dst_wf st' /\
    written st'
      = written st ++ intermediate_frames stream mids (LZ4_COMPRESSBOUND chunk_size) /\
    total' = total
             + buf_size (intermediate_frames stream mids (LZ4_COMPRESSBOUND chunk_size)) /\
    first_segment st `prefix_of` first_segment st' /\
    (dst_done st <> [] -> dst_done st' <> []).
Proof.
  induction src as [|b src IH]; intros stream sl total st src' stream' sl' total' st' Hwf Hsl;
    simpl.
  - destruct (decide (sl > chunk_size)); [done|].
    intros [= <- <- <- <- <-]. exists []. simpl.
    rewrite !app_nil_r. change (buf_size []) with 0.
    split_and!; try done; lia.
  - destruct (decide (sl > chunk_size)) as [Hgt|Hle].
    + destruct (decide (buf_size b = chunk_size)) as [Hb|]; [|done].
      set (c := LZ4_compress_fast_continue stream b (LZ4_COMPRESSBOUND chunk_size)).
      destruct (write_chunk_to_dst_spec (buf_size c) c st Hwf)
        as (st1 & Hw & Hwf1 & Hwr1 & Hf1 & Hd1).
      rewrite Hw. simpl.
      rewrite (uint32_id (sl - chunk_size)) by (unfold chunk_size in *; lia).
      intros Hrec. apply IH in Hrec as (mids & -> & Hmids & -> & Hsl' & Hr & Hwf' & Hwr' & Ht & Hf' & Hd');
        [|done|unfold chunk_size in *; lia].
      exists (b :: mids). cbn [intermediate_frames concat length app]. fold c.
      pose proof (compressed_size_bound stream b (LZ4_COMPRESSBOUND chunk_size)
                    ltac:(rewrite LZ4_COMPRESSBOUND_chunk_size; lia)) as Hc.
      fold c in Hc.
      rewrite uint32_id in Hwr1 by lia.
      split; [done|]. split; [by constructor|].
      split; [by rewrite <- app_assoc|]. split; [lia|]. split; [done|].
      split; [done|]. split.
      { rewrite Hwr', Hwr1. by rewrite <- !app_assoc. }
      split.
      { rewrite Ht. rewrite !buf_size_app, buf_size_write_le.
        unfold chunk_header_size. lia. }
      split; [by etrans|]. auto.
    + intros [= <- <- <- <- <-]. exists []. simpl.
      rewrite !app_nil_r. change (buf_size []) with 0.
    split_and!; try done; lia.
Qed.

Lemma intermediate_chunks_total : forall full last stream sl total st,
  Forall (fun b => buf_size b = chunk_size) full ->
  buf_size last <= chunk_size ->
  sl = chunk_size * Z.of_nat (length full) + buf_size last ->
  sl < 2 ^ 32 ->
  dst_wf st ->
  exists b tl stream' sl' total' st',
    intermediate_chunks garbage (full ++ [last]) stream sl total st
      = Ok (b :: tl, stream', sl', total', st') /\
    sl' <= buf_size b.
Proof.
  induction full as [|b full IH]; intros last stream sl total st Hfull Hlast Hsl Hlt Hwf;
    simpl.
  - simpl in Hsl. rewrite decide_False by lia.
    eexists _, _, _, _, _, _. split; [reflexivity|]. lia.
  - apply Forall_cons in Hfull as [Hb Hfull].
    pose proof (buf_size_nonneg last) as Hl0.
    destruct (decide (sl > chunk_size)) as [Hgt|Hle].
    + rewrite decide_True by done.
      set (c := LZ4_compress_fast_continue stream b (LZ4_COMPRESSBOUND chunk_size)).
      destruct (write_chunk_to_dst_spec (buf_size c) c st Hwf)
        as (st1 & Hw & Hwf1 & _).
      rewrite Hw. simpl.
      rewrite (uint32_id (sl - chunk_size)) by (unfold chunk_size in *; lia).
      apply IH; try done; simpl length in *; lia.
    + eexists _, _, _, _, _, _. split; [reflexivity|].
      simpl length in *. unfold chunk_size in *. lia.
Qed.

Lemma take_temporary_buffer_new junk (n m : Z) :
  0 <= n <= m -> take (Z.to_nat n) (temporary_buffer_new junk m) = temporary_buffer_new junk n.
Proof. intros H. unfold temporary_buffer_new. apply take_resize_le. lia. Qed.

(** What a call of [compress] that returns has done. *)
Lemma compress_inv head_space data out :
  0 <= head_space < 2 ^ 64 -> 0 <= snd_size data < 2 ^ 32 ->
  compress garbage head_space data = Ok out ->
  exists mids fin_buf tl fin cap first rest,
    buffer_list (snd_bufs data) = mids ++ fin_buf :: tl /\
    Forall (fun b => buf_size b = chunk_size) mids /\
    snd_size data
      = chunk_size * Z.of_nat (length mids) + buf_size fin /\
    fin = take (Z.to_nat (buf_size fin)) fin_buf /\
    buf_size fin <= chunk_size /\
    0 <= cap <= LZ4_COMPRESSBOUND chunk_size /\
    LZ4_COMPRESSBOUND (buf_size fin) <= cap /\
    (mids <> [] -> cap = LZ4_COMPRESSBOUND chunk_size) /\
    linearize (snd_bufs out)
      = temporary_buffer_new (garbage 0) head_space ++ frame_of mids fin cap /\
    snd_size out = uint32 (buf_size (linearize (snd_bufs out))) /\
    buffer_list (snd_bufs out) = first :: rest /\
    temporary_buffer_new (garbage 0) head_space `prefix_of` first.
Proof.
  intros Hhs Hsize. unfold compress.
  set (scs := size_t (LZ4_COMPRESSBOUND (snd_size data) + head_space + chunk_header_size)).
  destruct (decide (scs <= chunk_size /\ snd_size data <= chunk_size)) as [[Hscs Hsmall]|_].
  - (* faster path for small messages *)
    destruct (buffer_list (snd_bufs data)) as [|b tl] eqn:Hsrc; [done|].
    destruct (decide (buf_size b = snd_size data)) as [Hb|]; [|done].
    set (dst0 := temporary_buffer_new (garbage 0) scs).
    set (c := LZ4_compress_fast_continue [] b (LZ4_COMPRESSBOUND (snd_size data))).
    set (hdr := write_le (Z.lor last_chunk_flag (snd_size data))).
    destruct (copy_n c dst0 (head_space + chunk_header_size)) as [dst1| |] eqn:H1; [|done..].
    cbn [mbind result_bind].
    destruct (copy_n hdr dst1 head_space) as [dst2| |] eqn:H2; [|done..].
    cbn [mbind result_bind]. intros [= <-].
    apply copy_n_inv in H1 as (_ & Hfit1 & ->).
    apply copy_n_inv in H2 as (_ & _ & ->).
    assert (Hscs0 : 0 <= scs) by (apply Z.mod_pos_bound; lia).
    assert (Hd0 : buf_size dst0 = scs) by (by apply buf_size_new).
    pose proof (buf_size_nonneg c) as Hc0.
    unfold chunk_header_size in *.
    assert (Hhdr : buf_size hdr = 4) by apply buf_size_write_le.
    pose proof (LZ4_COMPRESSBOUND_le (snd_size data) ltac:(lia)) as Hbound.
    set (G := take (Z.to_nat head_space) dst0).
    assert (HG : G = temporary_buffer_new (garbage 0) head_space).
    { unfold G, dst0. apply take_temporary_buffer_new. lia. }
    assert (Hout :
      take (Z.to_nat (head_space + 4 + buf_size c))
        (take (Z.to_nat head_space)
           (take (Z.to_nat (head_space + 4)) dst0 ++ c
              ++ drop (Z.to_nat (head_space + 4 + buf_size c)) dst0)
         ++ hdr
         ++ drop (Z.to_nat (head_space + buf_size hdr))
              (take (Z.to_nat (head_space + 4)) dst0 ++ c
                 ++ drop (Z.to_nat (head_space + 4 + buf_size c)) dst0))
      = G ++ hdr ++ c).
    { set (R := drop (Z.to_nat (head_space + 4 + buf_size c)) dst0).
      assert (A1 : take (Z.to_nat head_space)
                     (take (Z.to_nat (head_space + 4)) dst0 ++ c ++ R) = G).
      { rewrite take_app_le by (rewrite length_take; unfold buf_size in *; lia).
        rewrite take_take. unfold G. f_equal. lia. }
      assert (A2 : drop (Z.to_nat (head_space + buf_size hdr))
                     (take (Z.to_nat (head_space + 4)) dst0 ++ c ++ R) = c ++ R).
      { rewrite Hhdr. apply drop_app_length'.
        rewrite length_take. unfold buf_size in *. lia. }
      rewrite A1, A2. rewrite !app_assoc. rewrite take_app_length'; [done|].
      rewrite !length_app. unfold G. rewrite length_take. unfold buf_size in *. lia. }
    rewrite Hout.
    exists [], b, tl, b, (LZ4_COMPRESSBOUND (snd_size data)), (G ++ hdr ++ c), [].
    cbn [length app concat].
    split_and!; try done; try lia; try (by rewrite take_all_buf).
    + by rewrite Hb.
    + unfold linearize, frame_of, last_frame.
      cbn [buffer_list concat snd_bufs snd_buf_of_buffer intermediate_frames app].
      rewrite app_nil_r, HG. rewrite Hb. done.
    + unfold linearize. cbn [snd_size snd_buf_of_buffer buffer_list concat snd_bufs].
      by rewrite app_nil_r.
    + rewrite <- HG. by apply prefix_app_r.
  - (* general path *)
    set (st0 := mk_dst [] _ head_space).
    assert (Hwf0 : dst_wf st0).
    { unfold dst_wf, st0; cbn. rewrite buf_size_new by lia. unfold chunk_size. lia. }
    assert (Hw0 : written st0 = temporary_buffer_new (garbage 0) head_space).
    { unfold written, st0; cbn. apply take_temporary_buffer_new. lia. }
    assert (Hf0 : first_segment st0 = temporary_buffer_new (garbage 0) head_space).
    { unfold first_segment, st0; cbn. apply take_temporary_buffer_new. lia. }
    destruct (intermediate_chunks garbage (buffer_list (snd_bufs data)) [] (snd_size data) 0 st0)
      as [[[[[src' stream'] sl'] total'] st1]| |] eqn:Hloop; [|done..].
    cbn [mbind result_bind].
    apply intermediate_chunks_inv in Hloop
      as (mids & Hsrc & Hmids & -> & Hsl & Hsl' & Hwf1 & Hw1 & -> & Hf1 & Hd1); [|done..].
    destruct src' as [|b tl]; [done|].
    destruct (decide (sl' <= buf_size b)) as [Hfits|]; [|done].
    set (fin := take (Z.to_nat sl') b).
    set (cap := LZ4_COMPRESSBOUND chunk_size).
    set (c := LZ4_compress_fast_continue ([] ++ concat mids) fin cap).
    destruct (write_chunk_to_dst_spec (Z.lor last_chunk_flag sl') c st1 Hwf1)
      as (st2 & Hw & Hwf2 & Hw2 & Hf2 & Hd2).
    rewrite Hw. cbn [mbind result_bind].
    assert (Hfin : buf_size fin = sl') by (apply buf_size_take; lia).
    rewrite uint32_id in Hw2
      by (rewrite lor_flag; unfold chunk_size in *; lia).
    assert (Hwritten : written st2
              = temporary_buffer_new (garbage 0) head_space ++ frame_of mids fin cap).
    { rewrite Hw2, Hw1, Hw0. unfold frame_of, last_frame. rewrite Hfin.
      by rewrite <- !app_assoc. }
    pose proof (LZ4_COMPRESSBOUND_le sl' ltac:(lia)) as Hbound.
    intros Hout.
    exists mids, b, tl, fin, cap.
    destruct (dst_done st2) as [|d ds] eqn:Hdone2.
    + injection Hout as <-.
      exists (take (Z.to_nat (dst_offset st2)) (dst_back st2)), [].
      assert (Hlin : take (Z.to_nat (dst_offset st2)) (dst_back st2) = written st2).
      { unfold written. by rewrite Hdone2. }
      rewrite Hfin. split_and!; try done; try lia.
      * unfold linearize. cbn [buffer_list concat snd_bufs snd_buf_of_buffer].
        by rewrite app_nil_r, Hlin.
      * unfold linearize. cbn [snd_size snd_buf_of_buffer buffer_list concat snd_bufs].
        by rewrite app_nil_r.
      * rewrite <- Hf0. etrans; [exact Hf1|]. etrans; [exact Hf2|].
        unfold first_segment. by rewrite Hdone2.
    + injection Hout as <-.
      exists d, (ds ++ [take (Z.to_nat (dst_offset st2)) (dst_back st2)]).
      assert (Hlin : concat (d :: ds ++ [take (Z.to_nat (dst_offset st2)) (dst_back st2)])
                     = written st2).
      { unfold written. rewrite Hdone2, app_comm_cons, concat_app.
        cbn [concat]. by rewrite app_nil_r. }
      rewrite Hfin. split_and!; try done; try lia.
      * unfold linearize. cbn [buffer_list snd_bufs snd_buf_of_vector].
        by rewrite Hlin.
      * unfold linearize. cbn [snd_size snd_buf_of_vector buffer_list snd_bufs].
        rewrite Hlin, Hwritten. f_equal.
        unfold frame_of, last_frame.
        rewrite !buf_size_app, buf_size_write_le, buf_size_new by lia.
        unfold chunk_header_size.
        change (LZ4_compress_fast_continue (concat mids) fin cap) with c. lia.
      * rewrite <- Hf0. etrans; [exact Hf1|]. etrans; [exact Hf2|].
        unfold first_segment. by rewrite Hdone2.
Qed.
End compress_properties.

Lemma buf_size_concat_full (full : list (list byte)) :
  Forall (fun b => buf_size b = chunk_size) full ->
  buf_size (concat full) = chunk_size * Z.of_nat (length full).
Proof.
  induction 1 as [|b full Hb _ IH]; [done|].
  cbn [concat length]. rewrite buf_size_app, IH, Hb. lia.
Qed.

Lemma scatter_gather_buffers (data : snd_buf) :
  scatter_gather data ->
  exists full last,
    buffer_list (snd_bufs data) = full ++ [last] /\
    Forall (fun b => buf_size b = chunk_size) full /\
    buf_size last <= chunk_size /\
    snd_size data = chunk_size * Z.of_nat (length full) + buf_size last.
Proof.
  intros [Hsize Hshape]. unfold linearize in Hsize.
  destruct (snd_bufs data) as [v|b]; cbn [buffer_list] in *.
  - destruct Hshape as (full & last & -> & Hfull & Hlast).
    exists full, last. split_and!; try done.
    rewrite Hsize, concat_app, buf_size_app, buf_size_concat_full by done.
    cbn [concat]. by rewrite app_nil_r.
  - exists [], b. split_and!; try done.
    rewrite Hsize. cbn [concat length]. rewrite app_nil_r. lia.
Qed.

Lemma LZ4_COMPRESSBOUND_range (n : Z) :
  0 <= n < 2 ^ 32 -> 0 <= LZ4_COMPRESSBOUND n < 2 ^ 33.
Proof.
  intros Hn. unfold LZ4_COMPRESSBOUND.
  destruct (decide (n > LZ4_MAX_INPUT_SIZE)); [lia|].
  assert (0 <= n / 255 <= n).
  { split; [apply Z.div_pos; lia|]. apply Z.div_le_upper_bound; lia. }
  unfold LZ4_MAX_INPUT_SIZE in *. lia.
Qed.

Section compress_total.
Context {lz4 : LZ4} {lz4_ok : LZ4_correct lz4}.
Variable garbage : nat -> list byte.

(** On an input that follows the scatter-gather convention [compress]
    returns. *)
Lemma compress_total head_space data :
  0 <= head_space < 2 ^ 63 -> snd_size data < 2 ^ 32 ->
  scatter_gather data ->
  exists out, compress garbage head_space data = Ok out.
Proof.
  intros Hhs Hlt Hsg.
  destruct (scatter_gather_buffers data Hsg) as (full & last & Hsrc & Hfull & Hlast & Hsize).
  pose proof (buf_size_nonneg last) as Hl0.
  assert (Hsize0 : 0 <= snd_size data) by (unfold chunk_size in *; lia).
  pose proof (LZ4_COMPRESSBOUND_range (snd_size data) ltac:(lia)) as Hrange.
  unfold compress.
  rewrite size_t_id by (unfold chunk_header_size; lia).
  set (scs := LZ4_COMPRESSBOUND (snd_size data) + head_space + chunk_header_size).
  destruct (decide (scs <= chunk_size /\ snd_size data <= chunk_size)) as [[Hscs Hsmall]|_].
  - pose proof (LZ4_COMPRESSBOUND_le (snd_size data) ltac:(lia)) as Hbound.
    unfold scs, chunk_header_size in *.
    destruct full as [|b full].
    2:{ cbn [length] in Hsize. unfold chunk_size in *. lia. }
    rewrite Hsrc. cbn [app]. cbn [length] in Hsize.
    rewrite decide_True by lia.
    set (dst0 := temporary_buffer_new (garbage 0) _).
    set (c := LZ4_compress_fast_continue [] last (LZ4_COMPRESSBOUND (snd_size data))).
    pose proof (compress_within_capacity [] last (LZ4_COMPRESSBOUND (snd_size data))
                  ltac:(lia)) as Hc.
    fold c in Hc. pose proof (buf_size_nonneg c) as Hc0.
    assert (Hd0 : buf_size dst0 = LZ4_COMPRESSBOUND (snd_size data) + head_space + 4).
    { apply buf_size_new. lia. }
    rewrite copy_n_ok by lia. cbn [mbind result_bind].
    rewrite copy_n_ok.
    + cbn [mbind result_bind]. eauto.
    + lia.
    + rewrite buf_size_write_le, !buf_size_app.
      rewrite buf_size_take, buf_size_drop by lia. lia.
  - set (st0 := mk_dst [] _ head_space).
    assert (Hwf0 : dst_wf st0).
    { unfold dst_wf, st0; cbn. rewrite buf_size_new by lia. unfold chunk_size. lia. }
    destruct (intermediate_chunks_total garbage full last [] (snd_size data) 0 st0)
      as (b & tl & stream' & sl' & total' & st1 & Hloop & Hfit); try done.
    rewrite Hsrc, Hloop. cbn [mbind result_bind].
    rewrite decide_True by done.
    apply intermediate_chunks_inv in Hloop
      as (mids & _ & _ & _ & _ & _ & Hwf1 & _); [|done|lia].
    set (c := LZ4_compress_fast_continue _ _ _).
    destruct (write_chunk_to_dst_spec garbage (Z.lor last_chunk_flag sl') c st1 Hwf1)
      as (st2 & Hw & _).
    rewrite Hw. cbn [mbind result_bind].
    destruct (dst_done st2); eauto.
Qed.
End compress_total.

(** *** Reading the input buffers *)

(** The bytes from the read position on. *)
Definition rest_of (src : list (list byte)) (offset : Z) : list byte :=
  match src with
  | [] => []
  | b :: tl => drop (Z.to_nat offset) b ++ concat tl
  end.

Definition offset_ok (src : list (list byte)) (offset : Z) : Prop :=
  match src with
  | [] => True
  | b :: _ => 0 <= offset <= buf_size b
  end.

Lemma copy_src_loop_spec fuel : forall src offset n dst,
  offset_ok src offset ->
  0 <= n <= buf_size (rest_of src offset) ->
  buf_size (rest_of src offset) < 2 ^ 64 ->
  (Z.to_nat n + length src <= fuel)%nat ->
  exists src' offset',
    copy_src_loop fuel src offset n dst
      = Ok (dst ++ take (Z.to_nat n) (rest_of src offset), src', offset') /\
    rest_of src' offset' = drop (Z.to_nat n) (rest_of src offset) /\
    offset_ok src' offset'.
Proof.
  induction fuel as [|fuel IH]; intros src offset n dst Hoff Hn Hlt Hfuel.
  { assert (n = 0) as -> by lia. exists src, offset. cbn.
    rewrite app_nil_r. done. }
  cbn [copy_src_loop].
  destruct (decide (n = 0)) as [->|Hn0].
  { exists src, offset. cbn. rewrite app_nil_r. done. }
  destruct src as [|b tl]; [unfold rest_of, buf_size in Hn; cbn in Hn; lia|].
  set (next := if decide (offset = buf_size b) then (tl, 0) else (b :: tl, offset)).
  assert (Hnext : rest_of next.1 next.2 = rest_of (b :: tl) offset /\
                  offset_ok next.1 next.2 /\
                  (length next.1 <= length (b :: tl))%nat /\
                  ((length next.1 < length (b :: tl))%nat \/
                   exists tl', next.1 = b :: tl' /\ next.2 < buf_size b)).
  { unfold next. destruct (decide (offset = buf_size b)) as [->|Hne]; cbn [fst snd].
    - split.
      { cbn [rest_of]. rewrite drop_ge by (unfold buf_size; lia).
        destruct tl; cbn; by rewrite ?app_nil_r. }
      split; [destruct tl; cbn; [done|]; pose proof (buf_size_nonneg l); lia|].
      cbn [length]. split; [lia|left; lia].
    - split; [done|]. split; [done|]. split; [done|]. right.
      exists tl. cbn in Hoff. split; [done|lia]. }
  destruct next as [src1 off1]. cbn [fst snd] in Hnext.
  destruct Hnext as (Hrest & Hoff1 & Hlen1 & Hprog).
  rewrite <- Hrest in *.
  destruct src1 as [|b1 tl1]; [unfold rest_of, buf_size in Hn; cbn in Hn; lia|].
  cbn [offset_ok] in Hoff1. cbn [rest_of] in Hn, Hlt |- *.
  set (R := drop (Z.to_nat off1) b1 ++ concat tl1) in *.
  assert (Hdrop : buf_size (drop (Z.to_nat off1) b1) = buf_size b1 - off1)
    by (apply buf_size_drop; lia).
  assert (HR : buf_size b1 - off1 <= buf_size R).
  { unfold R. rewrite buf_size_app, Hdrop.
    pose proof (buf_size_nonneg (concat tl1)). lia. }
  rewrite (size_t_id (buf_size b1 - off1)) by lia.
  set (this_size := Z.min n (buf_size b1 - off1)).
  rewrite decide_True by (unfold this_size; lia).
  assert (Hthis : 0 <= this_size <= buf_size b1 - off1) by (unfold this_size; lia).
  assert (Hrest' : rest_of (b1 :: tl1) (off1 + this_size)
                   = drop (Z.to_nat this_size) R).
  { cbn [rest_of]. unfold R.
    rewrite drop_app_le by (unfold buf_size in *; rewrite length_drop; lia).
    rewrite drop_drop. do 2 f_equal. lia. }
  destruct (IH (b1 :: tl1) (off1 + this_size) (n - this_size)
              (dst ++ take (Z.to_nat this_size) (drop (Z.to_nat off1) b1)))
    as (src' & offset' & Hrun & Hrem & Hok).
  { cbn [offset_ok]. lia. }
  { rewrite Hrest'. rewrite buf_size_drop by lia. unfold this_size. lia. }
  { rewrite Hrest'. rewrite buf_size_drop by lia. lia. }
  { destruct Hprog as [Hshort|(tl' & [= -> ->] & Hlt1)].
    - cbn [length] in *. lia.
    - cbn [length] in *. unfold this_size. lia. }
  exists src', offset'. rewrite Hrun. split; [|split; [|done]].
  - f_equal. f_equal. f_equal. rewrite <- app_assoc. f_equal.
    rewrite Hrest'.
    replace (take (Z.to_nat this_size) (drop (Z.to_nat off1) b1))
      with (take (Z.to_nat this_size) R).
    2:{ unfold R. apply take_app_le. unfold buf_size in *. rewrite length_drop. lia. }
    rewrite take_take_drop. f_equal. lia.
  - rewrite Hrem, Hrest', drop_drop. f_equal. lia.
Qed.

Definition remaining (st : src_state) : list byte :=
  rest_of (src_bufs st) (src_offset st).

Definition src_wf (st : src_state) : Prop :=
  offset_ok (src_bufs st) (src_offset st) /\
  src_left st = buf_size (remaining st) /\
  src_left st < 2 ^ 64.

Section read_properties.
Context {lz4 : LZ4}.

Lemma copy_src_spec n st :
  src_wf st -> 0 <= n <= src_left st ->
  exists st',
    copy_src n st = Ok (take (Z.to_nat n) (remaining st), st') /\
    remaining st' = drop (Z.to_nat n) (remaining st) /\
    src_wf st'.
Proof.
  intros (Hoff & Hleft & Hlt) Hn. unfold copy_src.
  destruct (copy_src_loop_spec (Z.to_nat n + length (src_bufs st)) (src_bufs st)
              (src_offset st) n []) as (src' & offset' & Hrun & Hrem & Hok);
    try done; try (fold (remaining st); lia).
  rewrite Hrun. cbn [mbind result_bind app].
  eexists. split; [reflexivity|]. unfold src_wf, remaining in *. cbn.
  split; [done|]. split; [done|].
  rewrite Hrem, buf_size_drop by lia.
  rewrite size_t_id by lia. lia.
Qed.

Lemma read_header_spec st :
  src_wf st -> 4 <= src_left st ->
  exists st',
    read_header st = Ok (le_to_cpu (take 4 (remaining st)), st') /\
    remaining st' = drop 4 (remaining st) /\
    src_wf st'.
Proof.
  intros Hwf Hn. unfold read_header.
  destruct (copy_src_spec chunk_header_size st Hwf) as (st' & Hrun & Hrem & Hwf').
  { unfold chunk_header_size. lia. }
  rewrite Hrun. cbn [mbind result_bind]. by exists st'.
Qed.
End read_properties.

(** *** What [decompress] reads *)

Lemma length_write_le (v : Z) : length (write_le v) = 4%nat.
Proof. apply length_le_split. Qed.

Section decompress_properties.
Context {lz4 : LZ4} {lz4_ok : LZ4_correct lz4}.
Variable garbage : nat -> list byte.

Lemma last_frame_header stream fin cap :
  buf_size fin <= chunk_size ->
  take 4 (last_frame stream fin cap)
    = write_le (Z.lor last_chunk_flag (buf_size fin)) /\
  drop 4 (last_frame stream fin cap) = LZ4_compress_fast_continue stream fin cap /\
  0 <= Z.lor last_chunk_flag (buf_size fin) < 2 ^ 32.
Proof.
  intros Hfin. unfold last_frame.
  pose proof (buf_size_nonneg fin).
  split; [|split].
  - apply take_app_length'. by rewrite length_write_le.
  - apply drop_app_length'. by rewrite length_write_le.
  - rewrite lor_flag by (unfold chunk_size in *; lia). unfold chunk_size in *. lia.
Qed.

Lemma frame_length stream mids fin cap :
  (4 * (length mids + 1) <=
   length (intermediate_frames stream mids cap
           ++ last_frame (stream ++ concat mids) fin cap))%nat.
Proof.
  revert stream. induction mids as [|b mids IH]; intros stream.
  - cbn [intermediate_frames app length]. unfold last_frame.
    rewrite length_app, length_write_le. lia.
  - cbn [intermediate_frames concat length].
    rewrite <- !app_assoc, !length_app, length_write_le.
    specialize (IH (stream ++ b)). rewrite <- app_assoc, length_app in IH. lia.
Qed.

Lemma intermediate_headers_spec fin cap : forall mids stream st dst_buffers total_size fuel,
  Forall (fun b => buf_size b = chunk_size) mids ->
  buf_size fin <= chunk_size ->
  0 <= cap <= LZ4_COMPRESSBOUND chunk_size ->
  (mids <> [] -> cap = LZ4_COMPRESSBOUND chunk_size) ->
  src_wf st ->
  (length mids <= fuel)%nat ->
  let frame :=
    intermediate_frames stream mids cap
    ++ last_frame (stream ++ concat mids) fin cap in
  remaining st = drop 4 frame ->
  exists st',
    intermediate_headers garbage fuel (le_to_cpu (take 4 frame)) stream st
      dst_buffers total_size
    = Ok (Z.lor last_chunk_flag (buf_size fin), stream ++ concat mids, st',
          dst_buffers ++ mids,
          total_size + chunk_size * Z.of_nat (length mids)) /\
    remaining st'
      = LZ4_compress_fast_continue (stream ++ concat mids) fin cap /\
    src_wf st'.
Proof.
  induction mids as [|b mids IH];
    intros stream st dst_buffers total_size fuel Hmids Hfin Hcap Hcapm Hwf Hfuel frame Hrem.
  - subst frame. cbn [intermediate_frames app concat length] in *.
    destruct (last_frame_header (stream ++ []) fin cap Hfin) as (Htake & Hdrop & Hrange).
    rewrite Htake, le_to_cpu_write_le by done.
    pose proof (buf_size_nonneg fin).
    assert (Hflag := land_lor_flag (buf_size fin) ltac:(unfold chunk_size in *; lia)).
    exists st. rewrite Hrem, Hdrop. split; [|done].
    destruct fuel; cbn [intermediate_headers]; rewrite decide_False by done;
      rewrite !app_nil_r, Z.mul_0_r, Z.add_0_r; done.
  - apply Forall_cons in Hmids as [Hb Hmids].
    specialize (Hcapm ltac:(done)).
    destruct fuel as [|fuel]; [cbn in Hfuel; lia|].
    set (z := LZ4_compress_fast_continue stream b cap).
    set (frame' := intermediate_frames (stream ++ b) mids cap
                   ++ last_frame ((stream ++ b) ++ concat mids) fin cap).
    assert (Hframe : frame = write_le (buf_size z) ++ z ++ frame').
    { unfold frame, frame'. cbn [intermediate_frames concat]. fold z.
      by rewrite <- !app_assoc. }
    clearbody frame. subst frame.
    pose proof (compressed_size_bound stream b cap Hcap) as Hz. fold z in Hz.
    rewrite take_app_length' by (by rewrite length_write_le).
    rewrite drop_app_length' in Hrem by (by rewrite length_write_le).
    rewrite le_to_cpu_write_le by lia.
    cbn [intermediate_headers].
    rewrite decide_True by (apply land_flag_below; lia).
    destruct Hwf as (Hoff & Hleft & Hlt).
    assert (Hlen : src_left st = buf_size z + buf_size frame').
    { by rewrite Hleft, Hrem, buf_size_app. }
    pose proof (buf_size_nonneg frame') as Hf0.
    destruct (copy_src_spec (buf_size z) st ltac:(done) ltac:(lia))
      as (st1 & Hcopy & Hrem1 & Hwf1).
    rewrite Hcopy. cbn [mbind result_bind].
    rewrite Hrem.
    rewrite take_app_length' by (unfold buf_size; lia).
    rewrite Hrem, drop_app_length' in Hrem1 by (unfold buf_size; lia).
    assert (Hdec : LZ4_decompress_safe_continue stream z chunk_size = Some b).
    { rewrite <- Hb. apply decompress_compress; [lia|rewrite Hb, Hcapm; lia]. }
    rewrite Hdec.
    rewrite copy_n_whole
      by (rewrite buf_size_new by (unfold chunk_size; lia); lia).
    cbn [mbind result_bind].
    pose proof (frame_length (stream ++ b) mids fin cap) as Hfl.
    fold frame' in Hfl.
    destruct (read_header_spec st1 Hwf1) as (st2 & Hread & Hrem2 & Hwf2).
    { destruct Hwf1 as (_ & -> & _). rewrite Hrem1. unfold buf_size. lia. }
    rewrite Hread. cbn [mbind result_bind]. rewrite Hrem1 in *.
    destruct (IH (stream ++ b) st2 (dst_buffers ++ [b]) (total_size + chunk_size) fuel)
      as (st' & Hrun & Hrem' & Hwf'); try done.
    { cbn in Hfuel. lia. }
    fold frame' in Hrun. rewrite Hrun.
    exists st'. cbn [concat length].
    rewrite !app_assoc in *. rewrite <- (app_assoc dst_buffers).
    split; [|done]. f_equal. f_equal. lia.
Qed.

Lemma rest_of_0 (src : list (list byte)) : rest_of src 0 = concat src.
Proof. by destruct src. Qed.

Lemma decompress_chunks_spec src size mids fin cap :
  Forall (fun b => buf_size b = chunk_size) mids ->
  buf_size fin <= chunk_size ->
  0 <= cap <= LZ4_COMPRESSBOUND chunk_size ->
  LZ4_COMPRESSBOUND (buf_size fin) <= cap ->
  (mids <> [] -> cap = LZ4_COMPRESSBOUND chunk_size) ->
  concat src = frame_of mids fin cap ->
  size = buf_size (frame_of mids fin cap) ->
  size < 2 ^ 32 ->
  exists res,
    decompress_chunks garbage src size = Ok res /\
    linearize (rcv_bufs res) = concat mids ++ fin /\
    rcv_size res = uint32 (buf_size (concat mids ++ fin)).
Proof.
  intros Hmids Hfin Hcap Hcapf Hcapm Hsrc Hsize Hlt.
  unfold decompress_chunks, frame_of in *.
  pose proof (frame_length [] mids fin cap) as Hfl. cbn [app] in Hfl.
  set (frame := intermediate_frames [] mids cap ++ last_frame (concat mids) fin cap) in *.
  set (st0 := mk_src src 0 size).
  assert (Hrem0 : remaining st0 = frame).
  { unfold remaining, st0; cbn. by rewrite rest_of_0. }
  assert (Hwf0 : src_wf st0).
  { unfold src_wf. rewrite Hrem0. unfold st0; cbn. split; [|lia].
    destruct src; cbn; [done|]. pose proof (buf_size_nonneg l). lia. }
  destruct (read_header_spec st0 Hwf0) as (st1 & Hread & Hrem1 & Hwf1).
  { unfold st0; cbn. rewrite Hsize. unfold buf_size. lia. }
  rewrite Hread. cbn [mbind result_bind]. rewrite Hrem0 in *.
  destruct (intermediate_headers_spec fin cap mids [] st1 [] 0 (length (concat src)))
    as (st2 & Hloop & Hrem2 & Hwf2); try done.
  { rewrite Hsrc. lia. }
  cbn [app] in Hloop, Hrem2. fold frame in Hloop. rewrite Hloop.
  cbn [mbind result_bind].
  pose proof (buf_size_nonneg fin) as Hf0.
  rewrite unflag_lor_flag by (unfold chunk_size in *; lia).
  destruct Hwf2 as (Hoff2 & Hleft2 & Hlt2).
  destruct (copy_src_spec (src_left st2) st2) as (st3 & Hcopy & _).
  { done. }
  { rewrite Hleft2. pose proof (buf_size_nonneg (remaining st2)). lia. }
  rewrite Hcopy. cbn [mbind result_bind].
  rewrite Hleft2, take_all_buf, Hrem2.
  rewrite decompress_compress by done.
  rewrite copy_n_whole by (by rewrite buf_size_new).
  cbn [mbind result_bind].
  destruct mids as [|b mids'] eqn:Hm.
  - eexists. split; [reflexivity|].
    unfold linearize; cbn [rcv_bufs rcv_size rcv_buf_of_buffer buffer_list concat app].
    by rewrite app_nil_r.
  - rewrite <- Hm in *. replace ([] ++ mids) with mids by done.
    assert (Hcons : exists x xs, mids = x :: xs) by (rewrite Hm; eauto).
    destruct Hcons as (x & xs & Hx).
    exists (rcv_buf_of_vector (mids ++ [fin])
              (0 + chunk_size * Z.of_nat (length mids) + buf_size fin)).
    split; [by rewrite Hx|].
    unfold linearize; cbn [rcv_bufs rcv_size rcv_buf_of_vector buffer_list].
    rewrite concat_app. cbn [concat]. rewrite app_nil_r. split; [done|].
    rewrite buf_size_app, buf_size_concat_full by done. f_equal.
Qed.

(** [decompress] on the bytes of a frame, whatever buffers they arrive
    in, yields the bytes of the chunks. *)
Lemma decompress_spec data mids fin cap :
  Forall (fun b => buf_size b = chunk_size) mids ->
  buf_size fin <= chunk_size ->
  0 <= cap <= LZ4_COMPRESSBOUND chunk_size ->
  LZ4_COMPRESSBOUND (buf_size fin) <= cap ->
  (mids <> [] -> cap = LZ4_COMPRESSBOUND chunk_size) ->
  linearize (rcv_bufs data) = frame_of mids fin cap ->
  rcv_size data = buf_size (frame_of mids fin cap) ->
  rcv_size data < 2 ^ 32 ->
  exists res,
    decompress garbage data = Ok res /\
    linearize (rcv_bufs res) = concat mids ++ fin /\
    rcv_size res = uint32 (buf_size (concat mids ++ fin)).
Proof.
  intros Hmids Hfin Hcap Hcapf Hcapm Hlin Hsize Hlt.
  pose proof (frame_length [] mids fin cap) as Hfl. cbn [app] in Hfl.
  fold (frame_of mids fin cap) in Hfl.
  unfold decompress.
  rewrite decide_False by (rewrite Hsize; unfold buf_size; lia).
  rewrite decide_False by apply setStreamDecode_succeeds.
  unfold linearize in Hlin.
  destruct (rcv_bufs data) as [v|b]; cbn [buffer_list] in Hlin.
  { apply (decompress_chunks_spec _ _ mids fin cap); done. }
  cbn [concat] in Hlin. rewrite app_nil_r in Hlin. subst b.
  rewrite decide_True by (unfold chunk_header_size, buf_size; lia).
  destruct mids as [|b mids'] eqn:Hm.
  - unfold frame_of in *. cbn [intermediate_frames concat app] in *.
    destruct (last_frame_header [] fin cap Hfin) as (Htake & Hdrop & Hrange).
    pose proof (buf_size_nonneg fin) as Hf0.
    change (Z.to_nat chunk_header_size) with 4%nat.
    rewrite Htake, le_to_cpu_write_le by done.
    rewrite decide_False by (apply land_lor_flag; unfold chunk_size in *; lia).
    rewrite unflag_lor_flag by (unfold chunk_size in *; lia).
    assert (Hc : buf_size (last_frame [] fin cap)
                 = 4 + buf_size (LZ4_compress_fast_continue [] fin cap)).
    { unfold last_frame. by rewrite buf_size_app, buf_size_write_le. }
    pose proof (buf_size_nonneg (LZ4_compress_fast_continue [] fin cap)) as Hc0.
    unfold chunk_header_size.
    rewrite size_t_id by lia.
    rewrite decide_True by lia.
    rewrite Hdrop. replace (rcv_size data - 4)
      with (buf_size (LZ4_compress_fast_continue [] fin cap)) by lia.
    rewrite take_all_buf.
    rewrite decompress_compress by done.
    rewrite copy_n_whole by (by rewrite buf_size_new).
    cbn [mbind result_bind]. eexists. split; [reflexivity|].
    unfold linearize; cbn [rcv_bufs rcv_size rcv_buf_of_buffer buffer_list concat app].
    by rewrite app_nil_r.
  - rewrite <- Hm in *.
    assert (Hhdr : Z.land (le_to_cpu (take (Z.to_nat chunk_header_size)
                                        (frame_of mids fin cap))) last_chunk_flag = 0).
    { rewrite Hm. unfold frame_of. cbn [intermediate_frames].
      rewrite <- !app_assoc.
      change (Z.to_nat chunk_header_size) with 4%nat.
      rewrite take_app_length' by (by rewrite length_write_le).
      pose proof (compressed_size_bound [] b cap Hcap).
      rewrite le_to_cpu_write_le by lia. apply land_flag_below. lia. }
    rewrite decide_True by done.
    apply (decompress_chunks_spec _ _ mids fin cap); try done.
    cbn [concat]. by rewrite app_nil_r.
Qed.
End decompress_properties.

(** *** Frames *)

Section frame_properties.
Context {lz4 : LZ4} {lz4_ok : LZ4_correct lz4}.

Lemma last_frame_well_framed stream fin cap :
  buf_size fin <= chunk_size -> well_framed (last_frame stream fin cap).
Proof.
  intros Hfin. unfold last_frame. pose proof (buf_size_nonneg fin).
  apply framed_last; [|apply testbit_31_flag].
  rewrite lor_flag by (unfold chunk_size in *; lia). unfold chunk_size in *. lia.
Qed.

Lemma frames_well_framed fin cap : forall mids stream,
  buf_size fin <= chunk_size ->
  0 <= cap <= LZ4_COMPRESSBOUND chunk_size ->
  well_framed
    (intermediate_frames stream mids cap
     ++ last_frame (stream ++ concat mids) fin cap).
Proof.
  induction mids as [|b mids IH]; intros stream Hfin Hcap.
  - cbn [intermediate_frames app]. by apply last_frame_well_framed.
  - cbn [intermediate_frames concat]. rewrite <- !app_assoc.
    pose proof (compressed_size_bound stream b cap Hcap) as Hz.
    apply framed_intermediate; [lia|apply testbit_31_below; lia|done|].
    rewrite (app_assoc stream). by apply IH.
Qed.

Lemma frame_of_well_framed mids fin cap :
  buf_size fin <= chunk_size ->
  0 <= cap <= LZ4_COMPRESSBOUND chunk_size ->
  well_framed (frame_of mids fin cap).
Proof. intros. by apply (frames_well_framed fin cap mids []). Qed.

Lemma frames_size fin cap : forall mids stream,
  0 <= cap <= LZ4_COMPRESSBOUND chunk_size ->
  buf_size (intermediate_frames stream mids cap
            ++ last_frame (stream ++ concat mids) fin cap)
  <= (Z.of_nat (length mids) + 1) * 131606.
Proof.
  induction mids as [|b mids IH]; intros stream Hcap.
  - cbn [intermediate_frames app length]. unfold last_frame.
    rewrite buf_size_app, buf_size_write_le.
    pose proof (compressed_size_bound (stream ++ concat []) fin cap Hcap). lia.
  - cbn [intermediate_frames concat length]. rewrite <- !app_assoc.
    rewrite !buf_size_app, buf_size_write_le.
    pose proof (compressed_size_bound stream b cap Hcap).
    specialize (IH (stream ++ b) Hcap).
    rewrite <- app_assoc, buf_size_app in IH. lia.
Qed.
End frame_properties.

Lemma stored_lz4_correct : LZ4_correct stored_lz4.
Proof.
  split.
  - intros stream src cap Hcap. cbn.
    destruct (decide (buf_size src <= cap)); [done|]. by rewrite buf_size_nil.
  - done.
  - intros stream src cap Hsrc Hcap. cbn.
    pose proof (buf_size_nonneg src).
    pose proof (LZ4_COMPRESSBOUND_le (buf_size src) ltac:(lia)).
    rewrite (decide_True (P := buf_size src <= cap)) by lia.
    by rewrite decide_True.
Qed.

Lemma temporary_buffer_new_0 junk : temporary_buffer_new junk 0 = [].
Proof. unfold temporary_buffer_new. apply resize_0. Qed.
(** *** The chunks [compress] cuts a message into *)

Section compress_chunks.
Context {lz4 : LZ4} {lz4_ok : LZ4_correct lz4}.
Variable garbage : nat -> list byte.

(** The loop over the intermediate chunks leaves bytes for the last
    chunk. *)
Lemma intermediate_chunks_pos : forall src stream sl total st src' stream' sl' total' st',
  0 < sl < 2 ^ 32 ->
  intermediate_chunks garbage src stream sl total st
    = Ok (src', stream', sl', total', st') ->
  0 < sl'.
Proof.
  induction src as [|b src IH]; intros stream sl total st src' stream' sl' total' st' Hsl;
    simpl.
  - destruct (decide (sl > chunk_size)); [done|]. intros [= <- <- <- <- <-]. lia.
  - destruct (decide (sl > chunk_size)) as [Hgt|Hle]; [|intros [= <- <- <- <- <-]; lia].
    destruct (decide (buf_size b = chunk_size)) as [Hb|]; [|done].
    destruct (write_chunk_to_dst _ _ _ st) as [st1| |]; [|done..].
    cbn [mbind result_bind].
    rewrite (uint32_id (sl - chunk_size)) by (unfold chunk_size in *; lia).
    apply IH. unfold chunk_size in *. lia.
Qed.

(** The invariants of [compress], with the chunks the message is cut
    into determined by the message: no chunk after the first is empty, and
    the capacity depends on the path taken only. *)
Lemma compress_chunks head_space data out :
  0 <= head_space < 2 ^ 64 -> 0 <= snd_size data < 2 ^ 32 ->
  compress garbage head_space data = Ok out ->
  exists mids fin_buf tl fin,
    buffer_list (snd_bufs data) = mids ++ fin_buf :: tl /\
    Forall (fun b => buf_size b = chunk_size) mids /\
    snd_size data
      = chunk_size * Z.of_nat (length mids) + buf_size fin /\
    fin = take (Z.to_nat (buf_size fin)) fin_buf /\
    buf_size fin <= chunk_size /\
    (mids <> [] -> 0 < buf_size fin) /\
    (single_chunk head_space data ->
       mids = [] /\ snd_bufs out = contiguous (linearize (snd_bufs out))) /\
    linearize (snd_bufs out)
      = temporary_buffer_new (garbage 0) head_space
        ++ frame_of mids fin (capacity head_space data) /\
    snd_size out = uint32 (buf_size (linearize (snd_bufs out))).
Proof.
  intros Hhs Hsize. unfold compress, capacity, single_chunk.
  set (scs := size_t (LZ4_COMPRESSBOUND (snd_size data) + head_space + chunk_header_size)).
  destruct (decide (scs <= chunk_size /\ snd_size data <= chunk_size)) as [[Hscs Hsmall]|Hgen].
  - (* faster path for small messages *)
    destruct (buffer_list (snd_bufs data)) as [|b tl] eqn:Hsrc; [done|].
    destruct (decide (buf_size b = snd_size data)) as [Hb|]; [|done].
    set (dst0 := temporary_buffer_new (garbage 0) scs).
    set (c := LZ4_compress_fast_continue [] b (LZ4_COMPRESSBOUND (snd_size data))).
    set (hdr := write_le (Z.lor last_chunk_flag (snd_size data))).
    destruct (copy_n c dst0 (head_space + chunk_header_size)) as [dst1| |] eqn:H1; [|done..].
    cbn [mbind result_bind].
    destruct (copy_n hdr dst1 head_space) as [dst2| |] eqn:H2; [|done..].
    cbn [mbind result_bind]. intros [= <-].
    apply copy_n_inv in H1 as (_ & Hfit1 & ->).
    apply copy_n_inv in H2 as (_ & _ & ->).
    assert (Hscs0 : 0 <= scs) by (apply Z.mod_pos_bound; lia).
    assert (Hd0 : buf_size dst0 = scs) by (by apply buf_size_new).
    pose proof (buf_size_nonneg c) as Hc0.
    unfold chunk_header_size in *.
    assert (Hhdr : buf_size hdr = 4) by apply buf_size_write_le.
    set (G := take (Z.to_nat head_space) dst0).
    assert (HG : G = temporary_buffer_new (garbage 0) head_space).
    { unfold G, dst0. apply take_temporary_buffer_new. lia. }
    assert (Hout :
      take (Z.to_nat (head_space + 4 + buf_size c))
        (take (Z.to_nat head_space)
           (take (Z.to_nat (head_space + 4)) dst0 ++ c
              ++ drop (Z.to_nat (head_space + 4 + buf_size c)) dst0)
         ++ hdr
         ++ drop (Z.to_nat (head_space + buf_size hdr))
              (take (Z.to_nat (head_space + 4)) dst0 ++ c
                 ++ drop (Z.to_nat (head_space + 4 + buf_size c)) dst0))
      = G ++ hdr ++ c).
    { set (R := drop (Z.to_nat (head_space + 4 + buf_size c)) dst0).
      assert (A1 : take (Z.to_nat head_space)
                     (take (Z.to_nat (head_space + 4)) dst0 ++ c ++ R) = G).
      { rewrite take_app_le by (rewrite length_take; unfold buf_size in *; lia).
        rewrite take_take. unfold G. f_equal. lia. }
      assert (A2 : drop (Z.to_nat (head_space + buf_size hdr))
                     (take (Z.to_nat (head_space + 4)) dst0 ++ c ++ R) = c ++ R).
      { rewrite Hhdr. apply drop_app_length'.
        rewrite length_take. unfold buf_size in *. lia. }
      rewrite A1, A2. rewrite !app_assoc. rewrite take_app_length'; [done|].
      rewrite !length_app. unfold G. rewrite length_take. unfold buf_size in *. lia. }
    rewrite Hout.
    exists [], b, tl, b.
    cbn [length app concat].
    assert (Hlin : linearize (snd_bufs (snd_buf_of_buffer (G ++ hdr ++ c))) = G ++ hdr ++ c).
    { unfold linearize. cbn [buffer_list concat snd_bufs snd_buf_of_buffer].
      by rewrite app_nil_r. }
    rewrite Hlin.
    split_and!; try done; try lia; try (by rewrite take_all_buf).
    unfold frame_of, last_frame. cbn [intermediate_frames app concat].
    rewrite HG, Hb. done.
  - (* general path *)
    set (st0 := mk_dst [] _ head_space).
    assert (Hwf0 : dst_wf st0).
    { unfold dst_wf, st0; cbn. rewrite buf_size_new by lia. unfold chunk_size. lia. }
    assert (Hw0 : written st0 = temporary_buffer_new (garbage 0) head_space).
    { unfold written, st0; cbn. apply take_temporary_buffer_new. lia. }
    destruct (intermediate_chunks garbage (buffer_list (snd_bufs data)) [] (snd_size data) 0 st0)
      as [[[[[src' stream'] sl'] total'] st1]| |] eqn:Hloop; [|done..].
    cbn [mbind result_bind].
    pose proof Hloop as Hpos.
    apply intermediate_chunks_inv in Hloop
      as (mids & Hsrc & Hmids & -> & Hsl & Hsl' & Hwf1 & Hw1 & -> & Hf1 & Hd1); [|done..].
    destruct src' as [|b tl]; [done|].
    destruct (decide (sl' <= buf_size b)) as [Hfits|]; [|done].
    set (fin := take (Z.to_nat sl') b).
    set (cap := LZ4_COMPRESSBOUND chunk_size).
    set (c := LZ4_compress_fast_continue ([] ++ concat mids) fin cap).
    destruct (write_chunk_to_dst_spec garbage (Z.lor last_chunk_flag sl') c st1 Hwf1)
      as (st2 & Hw & Hwf2 & Hw2 & Hf2 & Hd2).
    rewrite Hw. cbn [mbind result_bind].
    assert (Hfin : buf_size fin = sl') by (apply buf_size_take; lia).
    rewrite uint32_id in Hw2
      by (rewrite lor_flag; unfold chunk_size in *; lia).
    assert (Hwritten : written st2
              = temporary_buffer_new (garbage 0) head_space ++ frame_of mids fin cap).
    { rewrite Hw2, Hw1, Hw0. unfold frame_of, last_frame. rewrite Hfin.
      by rewrite <- !app_assoc. }
    assert (Hlast : mids <> [] -> 0 < sl').
    { intros Hne. eapply intermediate_chunks_pos; [|exact Hpos].
      destruct mids; [done|]. cbn [length] in Hsl. unfold chunk_size in *. lia. }
    intros Hout.
    exists mids, b, tl, fin.
    destruct (dst_done st2) as [|d ds] eqn:Hdone2.
    + injection Hout as <-.
      assert (Hlin : take (Z.to_nat (dst_offset st2)) (dst_back st2) = written st2).
      { unfold written. by rewrite Hdone2. }
      assert (Hlin' : linearize (snd_bufs (snd_buf_of_buffer
                        (take (Z.to_nat (dst_offset st2)) (dst_back st2)))) = written st2).
      { unfold linearize. cbn [buffer_list concat snd_bufs snd_buf_of_buffer].
        by rewrite app_nil_r, Hlin. }
      rewrite Hlin'.
      rewrite Hfin. split_and!; try done; try lia.
      cbn [snd_size snd_buf_of_buffer]. by rewrite Hlin.
    + injection Hout as <-.
      assert (Hlin : concat (d :: ds ++ [take (Z.to_nat (dst_offset st2)) (dst_back st2)])
                     = written st2).
      { unfold written. rewrite Hdone2, app_comm_cons, concat_app.
        cbn [concat]. by rewrite app_nil_r. }
      unfold linearize. cbn [buffer_list snd_bufs snd_buf_of_vector snd_size].
      rewrite !Hlin.
      rewrite Hfin. split_and!; try done; try lia.
      rewrite Hwritten. f_equal.
      unfold frame_of, last_frame.
      rewrite !buf_size_app, buf_size_write_le, buf_size_new by lia.
      unfold chunk_header_size.
      change (LZ4_compress_fast_continue (concat mids) fin cap) with c. lia.
Qed.

(** The capacity is one the chunks can be compressed with. *)
Lemma capacity_bounds head_space data (mids : list (list byte)) (fin : list byte) :
  0 <= snd_size data ->
  snd_size data = chunk_size * Z.of_nat (length mids) + buf_size fin ->
  buf_size fin <= chunk_size ->
  (single_chunk head_space data -> mids = []) ->
  0 <= capacity head_space data <= LZ4_COMPRESSBOUND chunk_size /\
  LZ4_COMPRESSBOUND (buf_size fin) <= capacity head_space data /\
  (mids <> [] -> capacity head_space data = LZ4_COMPRESSBOUND chunk_size).
Proof.
  intros H0 Hsz Hfin Hsingle. unfold capacity.
  pose proof (buf_size_nonneg fin) as Hf0.
  pose proof (LZ4_COMPRESSBOUND_le (buf_size fin) ltac:(lia)) as Hb.
  destruct (decide (single_chunk head_space data)) as [Hs|Hs].
  - rewrite (Hsingle Hs) in *. cbn [length] in Hsz.
    replace (snd_size data) with (buf_size fin) by lia.
    split; [lia|]. split; [lia|done].
  - split; [lia|]. split; [lia|done].
Qed.
End compress_chunks.

(** A message is cut into chunks in one way only. *)
Lemma chunks_unique (src mids1 tl1 mids2 tl2 : list (list byte))
    (fb1 fin1 fb2 fin2 : list byte) (size : Z) :
  src = mids1 ++ fb1 :: tl1 -> src = mids2 ++ fb2 :: tl2 ->
  size = chunk_size * Z.of_nat (length mids1) + buf_size fin1 ->
  size = chunk_size * Z.of_nat (length mids2) + buf_size fin2 ->
  buf_size fin1 <= chunk_size -> buf_size fin2 <= chunk_size ->
  (mids1 <> [] -> 0 < buf_size fin1) -> (mids2 <> [] -> 0 < buf_size fin2) ->
  fin1 = take (Z.to_nat (buf_size fin1)) fb1 ->
  fin2 = take (Z.to_nat (buf_size fin2)) fb2 ->
  mids1 = mids2 /\ fin1 = fin2.
Proof.
  intros H1 H2 Hs1 Hs2 Hf1 Hf2 Hp1 Hp2 Ht1 Ht2.
  pose proof (buf_size_nonneg fin1) as Hn1.
  pose proof (buf_size_nonneg fin2) as Hn2.
  assert (Hlen : length mids1 = length mids2).
  { destruct (decide (length mids1 = length mids2)) as [|Hne]; [done|]. exfalso.
    assert (Hm1 : mids1 <> [] -> 0 < buf_size fin1) by done.
    destruct (decide (length mids1 < length mids2)%nat).
    - assert (mids2 <> []) by (intros ->; cbn in *; lia).
      specialize (Hp2 ltac:(done)). unfold chunk_size in *. nia.
    - assert (mids1 <> []) by (intros ->; cbn in *; lia).
      specialize (Hp1 ltac:(done)). unfold chunk_size in *. nia. }
  rewrite H1 in H2.
  apply app_inj_1 in H2 as [<- [= <- <-]]; [|done].
  split; [done|]. rewrite Ht1, Ht2. f_equal. lia.
Qed.

(** *** The buffer [decompress] builds *)

Section decompress_result.
Context {lz4 : LZ4} {lz4_ok : LZ4_correct lz4}.
Variable garbage : nat -> list byte.

Lemma decompress_chunks_result src size mids fin cap :
  Forall (fun b => buf_size b = chunk_size) mids ->
  buf_size fin <= chunk_size ->
  0 <= cap <= LZ4_COMPRESSBOUND chunk_size ->
  LZ4_COMPRESSBOUND (buf_size fin) <= cap ->
  (mids <> [] -> cap = LZ4_COMPRESSBOUND chunk_size) ->
  concat src = frame_of mids fin cap ->
  size = buf_size (frame_of mids fin cap) ->
  size < 2 ^ 32 ->
  decompress_chunks garbage src size = Ok (rcv_buf_of_chunks mids fin).
Proof.
  intros Hmids Hfin Hcap Hcapf Hcapm Hsrc Hsize Hlt.
  unfold decompress_chunks, frame_of in *.
  pose proof (frame_length [] mids fin cap) as Hfl. cbn [app] in Hfl.
  set (frame := intermediate_frames [] mids cap ++ last_frame (concat mids) fin cap) in *.
  set (st0 := mk_src src 0 size).
  assert (Hrem0 : remaining st0 = frame).
  { unfold remaining, st0; cbn. by rewrite rest_of_0. }
  assert (Hwf0 : src_wf st0).
  { unfold src_wf. rewrite Hrem0. unfold st0; cbn. split; [|lia].
    destruct src; cbn; [done|]. pose proof (buf_size_nonneg l). lia. }
  destruct (read_header_spec st0 Hwf0) as (st1 & Hread & Hrem1 & Hwf1).
  { unfold st0; cbn. rewrite Hsize. unfold buf_size. lia. }
  rewrite Hread. cbn [mbind result_bind]. rewrite Hrem0 in *.
  destruct (intermediate_headers_spec garbage fin cap mids [] st1 [] 0 (length (concat src)))
    as (st2 & Hloop & Hrem2 & Hwf2); try done.
  { rewrite Hsrc. lia. }
  cbn [app] in Hloop, Hrem2. fold frame in Hloop. rewrite Hloop.
  cbn [mbind result_bind].
  pose proof (buf_size_nonneg fin) as Hf0.
  rewrite unflag_lor_flag by (unfold chunk_size in *; lia).
  destruct Hwf2 as (Hoff2 & Hleft2 & Hlt2).
  destruct (copy_src_spec (src_left st2) st2) as (st3 & Hcopy & _).
  { done. }
  { rewrite Hleft2. pose proof (buf_size_nonneg (remaining st2)). lia. }
  rewrite Hcopy. cbn [mbind result_bind].
  rewrite Hleft2, take_all_buf, Hrem2.
  rewrite decompress_compress by done.
  rewrite copy_n_whole by (by rewrite buf_size_new).
  cbn [mbind result_bind].
  destruct mids as [|b mids']; [done|].
  cbn [app rcv_buf_of_chunks]. f_equal.
Qed.

Lemma decompress_result data mids fin cap :
  Forall (fun b => buf_size b = chunk_size) mids ->
  buf_size fin <= chunk_size ->
  0 <= cap <= LZ4_COMPRESSBOUND chunk_size ->
  LZ4_COMPRESSBOUND (buf_size fin) <= cap ->
  (mids <> [] -> cap = LZ4_COMPRESSBOUND chunk_size) ->
  linearize (rcv_bufs data) = frame_of mids fin cap ->
  rcv_size data = buf_size (frame_of mids fin cap) ->
  rcv_size data < 2 ^ 32 ->
  decompress garbage data = Ok (rcv_buf_of_chunks mids fin).
Proof.
  intros Hmids Hfin Hcap Hcapf Hcapm Hlin Hsize Hlt.
  pose proof (frame_length [] mids fin cap) as Hfl. cbn [app] in Hfl.
  fold (frame_of mids fin cap) in Hfl.
  unfold decompress.
  rewrite decide_False by (rewrite Hsize; unfold buf_size; lia).
  rewrite decide_False by apply setStreamDecode_succeeds.
  unfold linearize in Hlin.
  destruct (rcv_bufs data) as [v|b]; cbn [buffer_list] in Hlin.
  { apply (decompress_chunks_result _ _ mids fin cap); done. }
  cbn [concat] in Hlin. rewrite app_nil_r in Hlin. subst b.
  rewrite decide_True by (unfold chunk_header_size, buf_size; lia).
  destruct mids as [|b mids'] eqn:Hm.
  - unfold frame_of in *. cbn [intermediate_frames concat app] in *.
    destruct (last_frame_header [] fin cap Hfin) as (Htake & Hdrop & Hrange).
    pose proof (buf_size_nonneg fin) as Hf0.
    change (Z.to_nat chunk_header_size) with 4%nat.
    rewrite Htake, le_to_cpu_write_le by done.
    rewrite decide_False by (apply land_lor_flag; unfold chunk_size in *; lia).
    rewrite unflag_lor_flag by (unfold chunk_size in *; lia).
    assert (Hc : buf_size (last_frame [] fin cap)
                 = 4 + buf_size (LZ4_compress_fast_continue [] fin cap)).
    { unfold last_frame. by rewrite buf_size_app, buf_size_write_le. }
    pose proof (buf_size_nonneg (LZ4_compress_fast_continue [] fin cap)) as Hc0.
    unfold chunk_header_size.
    rewrite size_t_id by lia.
    rewrite decide_True by lia.
    rewrite Hdrop. replace (rcv_size data - 4)
      with (buf_size (LZ4_compress_fast_continue [] fin cap)) by lia.
    rewrite take_all_buf.
    rewrite decompress_compress by done.
    rewrite copy_n_whole by (by rewrite buf_size_new).
    done.
  - rewrite <- Hm in *.
    assert (Hhdr : Z.land (le_to_cpu (take (Z.to_nat chunk_header_size)
                                        (frame_of mids fin cap))) last_chunk_flag = 0).
    { rewrite Hm. unfold frame_of. cbn [intermediate_frames].
      rewrite <- !app_assoc.
      change (Z.to_nat chunk_header_size) with 4%nat.
      rewrite take_app_length' by (by rewrite length_write_le).
      pose proof (compressed_size_bound [] b cap Hcap).
      rewrite le_to_cpu_write_le by lia. apply land_flag_below. lia. }
    rewrite decide_True by done.
    apply (decompress_chunks_result _ _ mids fin cap); try done.
    cbn [concat]. by rewrite app_nil_r.
Qed.
End decompress_result.

(** *** The buffers of the output *)

(** The sizes of the buffers under construction: the first has [N]
    bytes, the others [chunk_size]; a buffer is added only when there are
    bytes to put into it. *)
Definition dst_shape (N : Z) (st : dst_state) : Prop :=
  0 <= dst_offset st <= buf_size (dst_back st) /\
  chunk_size <= N < 2 ^ 64 /\
  match dst_done st with
  | [] => buf_size (dst_back st) = N
  | first :: rest =>
      buf_size first = N /\
      Forall (fun b => buf_size b = chunk_size) rest /\
      buf_size (dst_back st) = chunk_size /\
      0 < dst_offset st
  end.

Lemma copy_n_size (src dst dst' : list byte) (offset : Z) :
  copy_n src dst offset = Ok dst' -> buf_size dst' = buf_size dst.
Proof.
  intros H. apply copy_n_inv in H as (H0 & Hfit & ->).
  pose proof (buf_size_nonneg src) as Hs.
  unfold buf_size in *.
  rewrite !length_app, length_take, length_drop. lia.
Qed.

Section output_shape.
Context {lz4 : LZ4}.
Variable garbage : nat -> list byte.

Lemma write_chunk_loop_shape N fuel : forall src st st',
  dst_shape N st ->
  write_chunk_loop garbage fuel src st = Ok st' ->
  dst_shape N st'.
Proof.
  induction fuel as [|fuel IH]; intros src st st' Hshape.
  { destruct src; simpl; [by intros [= <-]|done]. }
  destruct src as [|x src]; [by intros [= <-]|].
  rewrite write_chunk_loop_step. cbv zeta.
  set (st1 := next_buffer garbage st).
  assert (H1 : 0 <= dst_offset st1 < buf_size (dst_back st1) /\
               chunk_size <= N < 2 ^ 64 /\
               match dst_done st1 with
               | [] => buf_size (dst_back st1) = N
               | first :: rest =>
                   buf_size first = N /\
                   Forall (fun b => buf_size b = chunk_size) rest /\
                   buf_size (dst_back st1) = chunk_size
               end).
  { destruct Hshape as (Hoff & HN & Hsz). unfold st1, next_buffer.
    destruct (decide (dst_offset st = buf_size (dst_back st))) as [Hfull|Hroom].
    - cbn [dst_done dst_back dst_offset].
      rewrite buf_size_new by (unfold chunk_size; lia).
      split; [unfold chunk_size; lia|]. split; [done|].
      destruct (dst_done st) as [|first rest]; cbn [app].
      + split; [done|]. split; [constructor|done].
      + destruct Hsz as (Hf & Hrest & Hback & _). split; [done|].
        split; [|done]. apply Forall_app. split; [done|]. by repeat constructor.
    - split; [lia|]. split; [done|].
      destruct (dst_done st); [done|]. tauto. }
  destruct H1 as (Hoff1 & HN & Hsz1).
  set (this_length := Z.min _ _).
  destruct (copy_n _ (dst_back st1) (dst_offset st1)) as [dst'| |] eqn:Hcopy; [|done..].
  cbn [mbind result_bind]. apply IH.
  pose proof (copy_n_size _ _ _ _ Hcopy) as Hsize.
  assert (Hback : buf_size (dst_back st1) < 2 ^ 64).
  { destruct (dst_done st1); [lia|]. unfold chunk_size in *. lia. }
  assert (Hlen : 0 < this_length <= buf_size (dst_back st1) - dst_offset st1).
  { unfold this_length. rewrite size_t_id by lia.
    assert (0 < buf_size (x :: src)) by (unfold buf_size; cbn [length]; lia). lia. }
  unfold dst_shape. cbn [dst_done dst_back dst_offset]. rewrite Hsize.
  split; [lia|]. split; [done|].
  destruct (dst_done st1); [done|].
  destruct Hsz1 as (? & ? & ?). split_and!; try done. lia.
Qed.

Lemma write_chunk_to_dst_shape N header_value payload st st' :
  dst_shape N st ->
  write_chunk_to_dst garbage header_value payload st = Ok st' ->
  dst_shape N st'.
Proof.
  intros Hshape. unfold write_chunk_to_dst. cbv zeta.
  by apply write_chunk_loop_shape.
Qed.

Lemma intermediate_chunks_shape N : forall src stream sl total st src' stream' sl' total' st',
  dst_shape N st ->
  intermediate_chunks garbage src stream sl total st
    = Ok (src', stream', sl', total', st') ->
  dst_shape N st'.
Proof.
  induction src as [|b src IH]; intros stream sl total st src' stream' sl' total' st' Hshape;
    simpl.
  - destruct (decide (sl > chunk_size)); [done|]. by intros [= <- <- <- <- <-].
  - destruct (decide (sl > chunk_size)); [|by intros [= <- <- <- <- <-]].
    destruct (decide (buf_size b = chunk_size)); [|done].
    destruct (write_chunk_to_dst _ _ _ st) as [st1| |] eqn:Hw; [|done..].
    cbn [mbind result_bind]. apply IH.
    by apply (write_chunk_to_dst_shape N _ _ _ _ Hshape Hw).
Qed.

(** The layout of the output of [compress]. *)
Lemma compress_shape head_space data out :
  0 <= head_space < 2 ^ 64 ->
  compress garbage head_space data = Ok out ->
  match snd_bufs out with
  | contiguous b => buf_size b <= Z.max head_space chunk_size
  | fragmented v =>
      exists first mid last,
        v = first :: mid ++ [last] /\
        buf_size first = Z.max head_space chunk_size /\
        Forall (fun b => buf_size b = chunk_size) mid /\
        0 < buf_size last <= chunk_size
  end.
Proof.
  intros Hhs. unfold compress.
  set (scs := size_t (LZ4_COMPRESSBOUND (snd_size data) + head_space + chunk_header_size)).
  destruct (decide (scs <= chunk_size /\ snd_size data <= chunk_size)) as [[Hscs Hsmall]|Hgen].
  - destruct (buffer_list (snd_bufs data)) as [|b tl]; [done|].
    destruct (decide (buf_size b = snd_size data)); [|done].
    destruct (copy_n _ _ (head_space + chunk_header_size)) as [dst1| |] eqn:H1; [|done..].
    cbn [mbind result_bind].
    destruct (copy_n _ dst1 head_space) as [dst2| |] eqn:H2; [|done..].
    cbn [mbind result_bind]. intros [= <-]. cbn [snd_bufs snd_buf_of_buffer].
    apply copy_n_size in H1, H2.
    assert (Hscs0 : 0 <= scs) by (apply Z.mod_pos_bound; lia).
    rewrite buf_size_new in H1 by done.
    unfold buf_size in *. rewrite length_take. lia.
  - set (st0 := mk_dst [] _ head_space).
    assert (Hshape0 : dst_shape (Z.max head_space chunk_size) st0).
    { unfold dst_shape, st0. cbn [dst_done dst_back dst_offset].
      rewrite buf_size_new by lia. unfold chunk_size. lia. }
    destruct (intermediate_chunks garbage _ [] (snd_size data) 0 st0)
      as [[[[[src' stream'] sl'] total'] st1]| |] eqn:Hloop; [|done..].
    cbn [mbind result_bind].
    apply (intermediate_chunks_shape _ _ _ _ _ _ _ _ _ _ _ Hshape0) in Hloop.
    destruct src' as [|b tl]; [done|].
    destruct (decide (sl' <= buf_size b)); [|done].
    destruct (write_chunk_to_dst _ _ _ st1) as [st2| |] eqn:Hw; [|done..].
    cbn [mbind result_bind].
    apply (write_chunk_to_dst_shape _ _ _ _ _ Hloop) in Hw.
    destruct Hw as (Hoff & HN & Hsz).
    destruct (dst_done st2) as [|first rest]; intros [= <-].
    + cbn [snd_bufs snd_buf_of_buffer]. rewrite buf_size_take by done. lia.
    + cbn [snd_bufs snd_buf_of_vector]. destruct Hsz as (Hf & Hrest & Hback & Hpos).
      exists first, rest, (take (Z.to_nat (dst_offset st2)) (dst_back st2)).
      rewrite buf_size_take by done. split_and!; try done; lia.
Qed.
End output_shape.


(** *** The codec *)

(** C1.  A message of at most [10 * chunk_size] bytes, presented in the
    scatter-gather convention, is compressed with no head space into a
    frame that [decompress] turns back into a buffer holding the bytes of
    the message (provided the LZ4 library keeps its contract). *)
Theorem compress_decompress_roundtrip (lz4 : LZ4) (garbage garbage' : nat -> list byte)
    (data : snd_buf) :
  LZ4_correct lz4 ->
  scatter_gather data ->
  snd_size data <= 10 * chunk_size ->
  exists out res,
    compress garbage 0 data = Ok out /\
    decompress garbage' (rcv_buf_of_snd_buf out) = Ok res /\
    linearize (rcv_bufs res) = linearize (snd_bufs data) /\
    rcv_size res = snd_size data.
Proof.
  intros Hok Hsg Hsize.
  assert (Hsize0 : 0 <= snd_size data).
  { destruct Hsg as [-> _]. apply buf_size_nonneg. }
  assert (Hlt : snd_size data < 2 ^ 32) by (unfold chunk_size in *; lia).
  destruct (compress_total garbage 0 data) as [out Hc]; [lia|done|done|].
  destruct (compress_inv garbage 0 data out)
    as (mids & fin_buf & tl & fin & cap & first & rest & Hsrc & Hmids & Hsz & Hfin
        & Hfinle & Hcap & Hcapf & Hcapm & Hlin & Hosize & _); [lia|lia|done|].
  rewrite temporary_buffer_new_0 in Hlin. cbn [app] in Hlin.
  assert (Hmsg : concat mids ++ fin = linearize (snd_bufs data)).
  { destruct Hsg as [Hs _]. unfold linearize in *. rewrite Hsrc in Hs |- *.
    rewrite concat_app in Hs |- *. cbn [concat] in Hs |- *.
    rewrite !buf_size_app, buf_size_concat_full in Hs by done.
    assert (Hle : buf_size fin <= buf_size fin_buf).
    { rewrite Hfin at 1. unfold buf_size. rewrite length_take. lia. }
    pose proof (buf_size_nonneg (concat tl)) as Htl.
    assert (Htl0 : concat tl = []).
    { apply nil_length_inv. unfold buf_size in *. lia. }
    rewrite Htl0, app_nil_r. f_equal.
    rewrite Hfin. apply take_ge. unfold buf_size in *.
    rewrite Htl0 in Hs. cbn [length] in Hs. lia. }
  pose proof (frames_size fin cap mids [] Hcap) as Hfs. cbn [app] in Hfs.
  fold (frame_of mids fin cap) in Hfs.
  pose proof (buf_size_nonneg fin) as Hfin0.
  pose proof (buf_size_nonneg (frame_of mids fin cap)) as Hfr0.
  assert (Hm : Z.of_nat (length mids) <= 10) by (unfold chunk_size in *; lia).
  assert (Hfr : buf_size (frame_of mids fin cap) < 2 ^ 32) by nia.
  destruct (decompress_spec garbage' (rcv_buf_of_snd_buf out) mids fin cap)
    as (res & Hd & Hres & Hrsize); try done.
  { cbn. rewrite Hosize, Hlin. by apply uint32_id. }
  { cbn. rewrite Hosize, Hlin. rewrite uint32_id by lia. lia. }
  exists out, res. split; [done|]. split; [done|]. split; [by rewrite Hres|].
  rewrite Hrsize, Hmsg. destruct Hsg as [<- _]. apply uint32_id. lia.
Qed.

(** The message consisting of the byte 0x41. *)
Definition message_A : snd_buf := snd_buf_of_buffer [Byte.x41].

Definition no_garbage : nat -> list byte := fun _ => [].

Lemma compress_decompress_roundtrip_witness :
  exists out res,
    compress (lz4 := stored_lz4) no_garbage 0 message_A = Ok out /\
    decompress (lz4 := stored_lz4) no_garbage (rcv_buf_of_snd_buf out) = Ok res /\
    linearize (rcv_bufs res) = linearize (snd_bufs message_A) /\
    rcv_size res = snd_size message_A.
Proof.
  apply (compress_decompress_roundtrip stored_lz4 no_garbage no_garbage message_A).
  - exact stored_lz4_correct.
  - split; [reflexivity|]. vm_compute. discriminate.
  - vm_compute. discriminate.
Defined.

(** The scenario of the one-byte message: with no head space the output is
    one buffer that starts with the header [0x80000001] in little-endian
    order. *)
Example compress_message_A :
  compress (lz4 := stored_lz4) no_garbage 0 message_A
  = Ok (snd_buf_of_buffer [Byte.x01; Byte.x00; Byte.x00; Byte.x80; Byte.x41]).
Proof. vm_compute. reflexivity. Qed.

(** For input in the scatter-gather convention the chunks are the
    message. *)
Lemma scatter_gather_chunks (data : snd_buf) (mids tl : list (list byte))
    (fin_buf fin : list byte) :
  scatter_gather data ->
  buffer_list (snd_bufs data) = mids ++ fin_buf :: tl ->
  Forall (fun b => buf_size b = chunk_size) mids ->
  snd_size data = chunk_size * Z.of_nat (length mids) + buf_size fin ->
  fin = take (Z.to_nat (buf_size fin)) fin_buf ->
  concat mids ++ fin = linearize (snd_bufs data).
Proof.
  intros [Hs _] Hsrc Hmids Hsz Hfin.
  unfold linearize in *. rewrite Hsrc in Hs |- *.
  rewrite concat_app in Hs |- *. cbn [concat] in Hs |- *.
  rewrite !buf_size_app, buf_size_concat_full in Hs by done.
  assert (Hle : buf_size fin <= buf_size fin_buf).
  { rewrite Hfin at 1. unfold buf_size. rewrite length_take. lia. }
  pose proof (buf_size_nonneg (concat tl)) as Htl.
  assert (Htl0 : concat tl = []).
  { apply nil_length_inv. unfold buf_size in *. lia. }
  rewrite Htl0, app_nil_r. f_equal.
  rewrite Hfin. apply take_ge. unfold buf_size in *.
  rewrite Htl0 in Hs. cbn [length] in Hs. lia.
Qed.

(** C7.  For any head space and any input, the bytes after the head
    space of an output of [compress] are the frame of the chunks the input
    is cut into: its leading buffers of [chunk_size] bytes and, as the last
    chunk, the rest of the [size] bytes.  For every chunk but the last the
    frame has a header with bit 31 clear that holds the number of
    compressed bytes that follow it; the one header with bit 31 set starts
    the last chunk, which ends the frame.  On input in the scatter-gather
    convention [compress] does produce an output, and the chunks are the
    bytes of the message. *)
Theorem compress_well_framed (lz4 : LZ4) (garbage : nat -> list byte)
    (head_space : Z) (data : snd_buf) :
  LZ4_correct lz4 ->
  0 <= head_space < 2 ^ 64 ->
  0 <= snd_size data < 2 ^ 32 ->
  (scatter_gather data -> head_space < 2 ^ 63 ->
   exists out, compress garbage head_space data = Ok out) /\
  (forall out, compress garbage head_space data = Ok out ->
   exists mids fin_buf tl fin,
     buffer_list (snd_bufs data) = mids ++ fin_buf :: tl /\
     Forall (fun b => buf_size b = chunk_size) mids /\
     snd_size data = chunk_size * Z.of_nat (length mids) + buf_size fin /\
     fin = take (Z.to_nat (buf_size fin)) fin_buf /\
     buf_size fin <= chunk_size /\
     (mids <> [] -> 0 < buf_size fin) /\
     (scatter_gather data -> concat mids ++ fin = linearize (snd_bufs data)) /\
     drop (Z.to_nat head_space) (linearize (snd_bufs out))
       = frame_of mids fin (capacity head_space data) /\
     well_framed (frame_of mids fin (capacity head_space data))).
Proof.
  intros Hok Hhs Hsize. split.
  - intros Hsg Hhs'. apply compress_total; [lia|lia|done].
  - intros out Hc.
    destruct (compress_chunks garbage head_space data out Hhs Hsize Hc)
      as (mids & fin_buf & tl & fin & Hsrc & Hmids & Hsz & Hfin
          & Hfinle & Hpos & Hsingle & Hlin & _).
    destruct (capacity_bounds head_space data mids fin) as (Hcap & _);
      [lia|done|done|by intros [? _]%Hsingle|].
    exists mids, fin_buf, tl, fin. split_and!; try done.
    + intros Hsg. by apply (scatter_gather_chunks data mids tl fin_buf fin).
    + rewrite Hlin. apply drop_app_length'.
      pose proof (buf_size_new (garbage 0%nat) head_space ltac:(lia)) as Hlen.
      unfold buf_size in Hlen. lia.
    + by apply frame_of_well_framed.
Qed.

(** A message of [chunk_size + 1] bytes in two buffers: [chunk_size]
    zero bytes and the byte 0x41. *)
Definition two_chunk_message : snd_buf :=
  snd_buf_of_vector [replicate (Z.to_nat chunk_size) Byte.x00; [Byte.x41]]
                    (chunk_size + 1).

Lemma two_chunk_message_scatter_gather : scatter_gather two_chunk_message.
Proof.
  assert (Hfull : buf_size (replicate (Z.to_nat chunk_size) Byte.x00) = chunk_size).
  { unfold buf_size. rewrite length_replicate. unfold chunk_size. lia. }
  split.
  - unfold linearize. cbn [two_chunk_message snd_buf_of_vector snd_size snd_bufs
      buffer_list concat]. rewrite app_nil_r, buf_size_app, Hfull.
    reflexivity.
  - exists [replicate (Z.to_nat chunk_size) Byte.x00], [Byte.x41].
    split; [reflexivity|]. split; [constructor; [exact Hfull|constructor]|].
    change (buf_size [Byte.x41]) with 1. unfold chunk_size. lia.
Qed.

Lemma compress_well_framed_witness :
  exists out mids fin,
    compress (lz4 := stored_lz4) no_garbage 8 two_chunk_message = Ok out /\
    length mids = 1%nat /\
    concat mids ++ fin = linearize (snd_bufs two_chunk_message) /\
    drop (Z.to_nat 8) (linearize (snd_bufs out))
      = frame_of mids fin (capacity 8 two_chunk_message) /\
    well_framed (frame_of mids fin (capacity 8 two_chunk_message)).
Proof.
  assert (Hsize : snd_size two_chunk_message = 131073) by reflexivity.
  destruct (compress_well_framed stored_lz4 no_garbage 8 two_chunk_message)
    as [Htotal Hframe].
  - exact stored_lz4_correct.
  - lia.
  - rewrite Hsize. lia.
  - destruct Htotal as [out Hc].
    + exact two_chunk_message_scatter_gather.
    + lia.
    + destruct (Hframe out Hc)
        as (mids & fin_buf & tl & fin & _ & _ & Hsz & _ & Hle & Hpos & Hmsg & Hdrop & Hwf).
      exists out, mids, fin. split; [exact Hc|].
      split; [|split; [exact (Hmsg two_chunk_message_scatter_gather)|split; assumption]].
      rewrite Hsize in Hsz. pose proof (buf_size_nonneg fin) as H0.
      destruct mids as [|b [|b' mids]]; cbn [length] in *; unfold chunk_size in *.
      * lia.
      * reflexivity.
      * lia.
Defined.

(** C8.  For a head space of at most [chunk_size - 4] bytes and an input
    in the scatter-gather convention, the first buffer of the output
    starts with the first [head_space] bytes of the first buffer as it was
    allocated, whatever its size, and the frame starts right after them. *)
Theorem compress_preserves_head_space (lz4 : LZ4) (garbage : nat -> list byte)
    (head_space : Z) (data : snd_buf) :
  LZ4_correct lz4 ->
  scatter_gather data ->
  snd_size data < 2 ^ 32 ->
  0 <= head_space <= chunk_size - 4 ->
  exists out head tail rest mids fin cap,
    compress garbage head_space data = Ok out /\
    buffer_list (snd_bufs out) = (head ++ tail) :: rest /\
    buf_size head = head_space /\
    (forall n, head_space <= n ->
       head = take (Z.to_nat head_space) (temporary_buffer_new (garbage 0%nat) n)) /\
    tail ++ concat rest = frame_of mids fin cap /\
    well_framed (frame_of mids fin cap).
Proof.
  intros Hok Hsg Hlt Hhs.
  assert (Hsize0 : 0 <= snd_size data).
  { destruct Hsg as [-> _]. apply buf_size_nonneg. }
  destruct (compress_total garbage head_space data) as [out Hc];
    [unfold chunk_size in *; lia|done|done|].
  destruct (compress_inv garbage head_space data out)
    as (mids & fin_buf & tl & fin & cap & first & rest & Hsrc & Hmids & Hsz & Hfin
        & Hfinle & Hcap & Hcapf & Hcapm & Hlin & Hosize & Hfirst & [tail ->]);
    [unfold chunk_size in *; lia|lia|done|].
  exists out, (temporary_buffer_new (garbage 0%nat) head_space), tail, rest, mids, fin, cap.
  split; [done|]. split; [done|]. split; [apply buf_size_new; lia|].
  split; [intros n Hn; symmetry; apply take_temporary_buffer_new; lia|].
  split; [|by apply frame_of_well_framed].
  unfold linearize in Hlin. rewrite Hfirst in Hlin. cbn [concat] in Hlin.
  rewrite <- app_assoc in Hlin. by apply app_inv_head in Hlin.
Qed.

Lemma compress_preserves_head_space_witness :
  exists out head tail rest mids fin cap,
    compress (lz4 := stored_lz4) no_garbage 8 message_A = Ok out /\
    buffer_list (snd_bufs out) = (head ++ tail) :: rest /\
    buf_size head = 8 /\
    (forall n, 8 <= n ->
       head = take (Z.to_nat 8) (temporary_buffer_new (no_garbage 0%nat) n)) /\
    tail ++ concat rest = frame_of (lz4 := stored_lz4) mids fin cap /\
    well_framed (frame_of (lz4 := stored_lz4) mids fin cap).
Proof.
  apply (compress_preserves_head_space stored_lz4 no_garbage 8 message_A).
  - exact stored_lz4_correct.
  - split; [reflexivity|]. vm_compute. discriminate.
  - vm_compute. reflexivity.
  - unfold chunk_size. lia.
Defined.

(** C4, as it stands, fails: an input of three bytes is not rejected,
    [decompress] returns an empty buffer and raises nothing. *)
Lemma decompress_short_input_counterexample :
  let data := rcv_buf_of_buffer [Byte.x01; Byte.x00; Byte.x00] in
  rcv_size data < 4 /\
  decompress (lz4 := stored_lz4) no_garbage data = Ok rcv_buf_default /\
  forall e, decompress (lz4 := stored_lz4) no_garbage data <> Raise e.
Proof.
  intros data. split; [vm_compute; reflexivity|]. split; [reflexivity|].
  intros e. discriminate.
Qed.

(** C4, amended.  For an input whose size is below 4, [decompress]
    returns the default-constructed [rcv_buf], of size 0 and without any
    buffer, before it touches the stream or the data. *)
Theorem decompress_short_input (lz4 : LZ4) (garbage : nat -> list byte)
    (data : rcv_buf) :
  rcv_size data < 4 ->
  decompress garbage data = Ok rcv_buf_default /\
  rcv_size rcv_buf_default = 0 /\
  linearize (rcv_bufs rcv_buf_default) = [].
Proof.
  intros Hsize. unfold decompress. by rewrite decide_True.
Qed.

Lemma decompress_short_input_witness :
  decompress (lz4 := stored_lz4) no_garbage
    (rcv_buf_of_buffer [Byte.x01; Byte.x00; Byte.x00]) = Ok rcv_buf_default /\
  rcv_size rcv_buf_default = 0 /\
  linearize (rcv_bufs rcv_buf_default) = [].
Proof.
  apply (decompress_short_input stored_lz4 no_garbage).
  vm_compute. reflexivity.
Defined.
(** *** Properties of the codec beyond the round trip *)

Section wire_properties.
Context {lz4 : LZ4} {lz4_ok : LZ4_correct lz4}.
Variables garbage garbage' : nat -> list byte.

(** The chunks [compress] cuts a message in the scatter-gather
    convention into, and the frame it makes of them. *)
Lemma compress_chunks_of_message head_space data out :
  scatter_gather data ->
  snd_size data <= 32000 * chunk_size ->
  0 <= head_space < 2 ^ 64 ->
  compress garbage head_space data = Ok out ->
  exists mids fin cap,
    Forall (fun b => buf_size b = chunk_size) mids /\
    buf_size fin <= chunk_size /\
    0 <= cap <= LZ4_COMPRESSBOUND chunk_size /\
    LZ4_COMPRESSBOUND (buf_size fin) <= cap /\
    (mids <> [] -> cap = LZ4_COMPRESSBOUND chunk_size) /\
    (mids <> [] -> 0 < buf_size fin) /\
    concat mids ++ fin = linearize (snd_bufs data) /\
    drop (Z.to_nat head_space) (linearize (snd_bufs out)) = frame_of mids fin cap /\
    buf_size (frame_of mids fin cap) < 2 ^ 32 - chunk_size.
Proof.
  intros Hsg Hsize Hhs Hc.
  assert (Hsize0 : 0 <= snd_size data).
  { destruct Hsg as [-> _]. apply buf_size_nonneg. }
  assert (Hlt : snd_size data < 2 ^ 32) by (unfold chunk_size in *; lia).
  destruct (compress_chunks garbage head_space data out)
    as (mids & fin_buf & tl & fin & Hsrc & Hmids & Hsz & Hfin
        & Hfinle & Hpos & Hsingle & Hlin & Hosize); [lia|lia|done|].
  destruct (capacity_bounds head_space data mids fin) as (Hcap & Hcapf & Hcapm);
    [done|done|done|by intros [? _]%Hsingle|].
  exists mids, fin, (capacity head_space data). do 6 (split; [done|]).
  pose proof (buf_size_new (garbage 0%nat) head_space ltac:(lia)) as Hlen.
  split; [|split].
  - destruct Hsg as [Hs _]. unfold linearize in *. rewrite Hsrc in Hs |- *.
    rewrite concat_app in Hs |- *. cbn [concat] in Hs |- *.
    rewrite !buf_size_app, buf_size_concat_full in Hs by done.
    assert (Hle : buf_size fin <= buf_size fin_buf).
    { rewrite Hfin at 1. unfold buf_size. rewrite length_take. lia. }
    pose proof (buf_size_nonneg (concat tl)) as Htl.
    assert (Htl0 : concat tl = []).
    { apply nil_length_inv. unfold buf_size in *. lia. }
    rewrite Htl0, app_nil_r. f_equal.
    rewrite Hfin. apply take_ge. unfold buf_size in *.
    rewrite Htl0 in Hs. cbn [length] in Hs. lia.
  - rewrite Hlin. apply drop_app_length'. unfold buf_size in Hlen. lia.
  - pose proof (frames_size fin (capacity head_space data) mids [] Hcap) as Hfs.
    cbn [app] in Hfs. fold (frame_of mids fin (capacity head_space data)) in Hfs.
    pose proof (buf_size_nonneg fin) as Hfin0.
    assert (Hm : Z.of_nat (length mids) <= 32000) by (unfold chunk_size in *; lia).
    unfold chunk_size. nia.
Qed.

(** What [decompress] makes of the frame of these chunks, in whatever
    buffers its bytes arrive. *)
Lemma decompress_wire head_space data out wire :
  scatter_gather data ->
  snd_size data <= 32000 * chunk_size ->
  0 <= head_space < 2 ^ 64 ->
  compress garbage head_space data = Ok out ->
  linearize (rcv_bufs wire) = drop (Z.to_nat head_space) (linearize (snd_bufs out)) ->
  rcv_size wire = buf_size (linearize (rcv_bufs wire)) ->
  exists mids fin,
    decompress garbage' wire = Ok (rcv_buf_of_chunks mids fin) /\
    Forall (fun b => buf_size b = chunk_size) mids /\
    buf_size fin <= chunk_size /\
    (mids <> [] -> 0 < buf_size fin) /\
    concat mids ++ fin = linearize (snd_bufs data) /\
    snd_size data < 2 ^ 32.
Proof.
  intros Hsg Hsize Hhs Hc Hwire Hwsize.
  destruct (compress_chunks_of_message head_space data out Hsg Hsize Hhs Hc)
    as (mids & fin & cap & Hmids & Hfin & Hcap & Hcapf & Hcapm & Hpos & Hmsg & Hframe & Hlt).
  exists mids, fin. rewrite Hframe in Hwire. rewrite Hwire in Hwsize.
  split; [|split_and!; try done; unfold chunk_size in *; lia].
  apply (decompress_result garbage' wire mids fin cap); try done.
  unfold chunk_size in *. lia.
Qed.
End wire_properties.

Lemma rcv_buf_of_chunks_linearize mids fin :
  linearize (rcv_bufs (rcv_buf_of_chunks mids fin)) = concat mids ++ fin.
Proof.
  unfold linearize. destruct mids as [|b mids]; cbn [rcv_buf_of_chunks rcv_bufs
    rcv_buf_of_buffer rcv_buf_of_vector buffer_list concat app].
  - by rewrite app_nil_r.
  - rewrite <- app_assoc. f_equal. rewrite concat_app. cbn [concat].
    by rewrite app_nil_r.
Qed.

Lemma rcv_buf_of_chunks_size mids fin :
  Forall (fun b => buf_size b = chunk_size) mids ->
  buf_size (concat mids ++ fin) < 2 ^ 32 ->
  rcv_size (rcv_buf_of_chunks mids fin) = buf_size (concat mids ++ fin).
Proof.
  intros Hmids Hlt. pose proof (buf_size_nonneg (concat mids ++ fin)) as H0.
  pose proof (buf_size_nonneg fin) as Hf0.
  rewrite buf_size_app, buf_size_concat_full in * by done.
  destruct mids as [|b mids]; cbn [rcv_buf_of_chunks rcv_size rcv_buf_of_buffer
    rcv_buf_of_vector]; apply uint32_id; cbn [length] in *; lia.
Qed.

(** X7.  The round trip holds for any head space and any segmentation of
    the wire: when the bytes after the head space of a compressed message
    of at most [32000 * chunk_size] bytes reach [decompress] in buffers cut
    anywhere, it returns the bytes and the size of the message. *)
Theorem decompress_any_segmentation (lz4 : LZ4) (garbage garbage' : nat -> list byte)
    (head_space : Z) (data out : snd_buf) (wire : rcv_buf) :
  LZ4_correct lz4 ->
  scatter_gather data ->
  snd_size data <= 32000 * chunk_size ->
  0 <= head_space < 2 ^ 64 ->
  compress garbage head_space data = Ok out ->
  linearize (rcv_bufs wire) = drop (Z.to_nat head_space) (linearize (snd_bufs out)) ->
  rcv_size wire = buf_size (linearize (rcv_bufs wire)) ->
  exists res,
    decompress garbage' wire = Ok res /\
    linearize (rcv_bufs res) = linearize (snd_bufs data) /\
    rcv_size res = snd_size data.
Proof.
  intros Hok Hsg Hsize Hhs Hc Hwire Hwsize.
  destruct (decompress_wire garbage garbage' head_space data out wire)
    as (mids & fin & Hd & Hmids & Hfin & _ & Hmsg & Hlt); try done.
  exists (rcv_buf_of_chunks mids fin). split; [done|].
  rewrite rcv_buf_of_chunks_linearize. split; [done|].
  destruct Hsg as [Hs _].
  rewrite rcv_buf_of_chunks_size; [by rewrite Hmsg| done |].
  rewrite Hmsg, <- Hs. done.
Qed.

(** A message of three bytes sent with a head space of two bytes, the
    frame arriving in two buffers cut in the middle of the header. *)
Definition message_ABC : snd_buf := snd_buf_of_buffer [Byte.x41; Byte.x42; Byte.x43].

Definition frame_ABC : snd_buf :=
  snd_buf_of_buffer [Byte.x00; Byte.x00; Byte.x03; Byte.x00; Byte.x00; Byte.x80;
                     Byte.x41; Byte.x42; Byte.x43].

Definition frame_ABC_in_two : rcv_buf :=
  mk_rcv_buf 7 (fragmented [[Byte.x03; Byte.x00];
                            [Byte.x00; Byte.x80; Byte.x41; Byte.x42; Byte.x43]]).

Lemma message_ABC_scatter_gather : scatter_gather message_ABC.
Proof. split; [reflexivity|]. vm_compute. discriminate. Qed.

Lemma decompress_any_segmentation_witness :
  exists res,
    decompress (lz4 := stored_lz4) no_garbage frame_ABC_in_two = Ok res /\
    linearize (rcv_bufs res) = linearize (snd_bufs message_ABC) /\
    rcv_size res = snd_size message_ABC.
Proof.
  apply (decompress_any_segmentation stored_lz4 no_garbage no_garbage 2 message_ABC
           frame_ABC).
  - exact stored_lz4_correct.
  - exact message_ABC_scatter_gather.
  - vm_compute. discriminate.
  - lia.
  - vm_compute. reflexivity.
  - reflexivity.
  - reflexivity.
Defined.

(** X8.  What [decompress] returns for such a frame is laid out in the
    scatter-gather convention, one buffer per chunk: a message of at most
    [chunk_size] bytes comes back in one buffer, a longer one in buffers of
    exactly [chunk_size] bytes followed by a last one that is not empty,
    the size being the number of bytes held. *)
Theorem decompress_scatter_gather (lz4 : LZ4) (garbage garbage' : nat -> list byte)
    (head_space : Z) (data out : snd_buf) (wire res : rcv_buf) :
  LZ4_correct lz4 ->
  scatter_gather data ->
  snd_size data <= 32000 * chunk_size ->
  0 <= head_space < 2 ^ 64 ->
  compress garbage head_space data = Ok out ->
  linearize (rcv_bufs wire) = drop (Z.to_nat head_space) (linearize (snd_bufs out)) ->
  rcv_size wire = buf_size (linearize (rcv_bufs wire)) ->
  decompress garbage' wire = Ok res ->
  scatter_gather (mk_snd_buf (rcv_size res) (rcv_bufs res)) /\
  match rcv_bufs res with
  | contiguous b => snd_size data <= chunk_size
  | fragmented v => chunk_size < snd_size data /\ exists b, last v = Some b /\ b <> []
  end.
Proof.
  intros Hok Hsg Hsize Hhs Hc Hwire Hwsize Hres.
  destruct (decompress_wire garbage garbage' head_space data out wire)
    as (mids & fin & Hd & Hmids & Hfin & Hpos & Hmsg & Hlt); try done.
  rewrite Hd in Hres. injection Hres as <-.
  destruct Hsg as [Hs _].
  split; [split|]; cbn [snd_size snd_bufs].
  - rewrite rcv_buf_of_chunks_linearize.
    apply rcv_buf_of_chunks_size; [done|]. by rewrite Hmsg, <- Hs.
  - destruct mids as [|b mids]; cbn [rcv_buf_of_chunks rcv_bufs rcv_buf_of_buffer
      rcv_buf_of_vector]; [done|].
    exists (b :: mids), fin. done.
  - rewrite Hs, <- Hmsg, buf_size_app, buf_size_concat_full by done.
    pose proof (buf_size_nonneg fin) as Hf0.
    destruct mids as [|b mids]; cbn [rcv_buf_of_chunks rcv_bufs rcv_buf_of_buffer
      rcv_buf_of_vector length].
    + lia.
    + specialize (Hpos ltac:(done)). split; [unfold chunk_size in *; lia|].
      exists fin. split; [apply last_snoc|]. intros ->. unfold buf_size in Hpos.
      cbn in Hpos. lia.
Qed.

Lemma decompress_scatter_gather_witness :
  scatter_gather (mk_snd_buf 3 (contiguous [Byte.x41; Byte.x42; Byte.x43])) /\
  snd_size message_ABC <= chunk_size.
Proof.
  apply (decompress_scatter_gather stored_lz4 no_garbage no_garbage 2 message_ABC
           frame_ABC frame_ABC_in_two
           (rcv_buf_of_buffer [Byte.x41; Byte.x42; Byte.x43])).
  - exact stored_lz4_correct.
  - exact message_ABC_scatter_gather.
  - vm_compute. discriminate.
  - lia.
  - vm_compute. reflexivity.
  - reflexivity.
  - reflexivity.
  - vm_compute. reflexivity.
Defined.

(** X9.  The buffers of the output of [compress]: either one buffer, or a
    first buffer of [max head_space chunk_size] bytes, buffers of exactly
    [chunk_size] bytes, and a last buffer that is not empty and has at most
    [chunk_size] bytes.  With a head space of at most [chunk_size] bytes
    and fewer than [2 ^ 32] bytes in all, the output is in the
    scatter-gather convention. *)
Theorem compress_output_buffers (lz4 : LZ4) (garbage : nat -> list byte)
    (head_space : Z) (data out : snd_buf) :
  LZ4_correct lz4 ->
  0 <= head_space < 2 ^ 64 ->
  0 <= snd_size data < 2 ^ 32 ->
  compress garbage head_space data = Ok out ->
  match snd_bufs out with
  | contiguous b => buf_size b <= Z.max head_space chunk_size
  | fragmented v =>
      exists first mid last,
        v = first :: mid ++ [last] /\
        buf_size first = Z.max head_space chunk_size /\
        Forall (fun b => buf_size b = chunk_size) mid /\
        0 < buf_size last <= chunk_size
  end /\
  (head_space <= chunk_size ->
   buf_size (linearize (snd_bufs out)) < 2 ^ 32 ->
   scatter_gather out).
Proof.
  intros Hok Hhs Hsize Hc.
  pose proof (compress_shape garbage head_space data out Hhs Hc) as Hshape.
  split; [done|]. intros Hle Hlt.
  destruct (compress_chunks garbage head_space data out Hhs Hsize Hc)
    as (_ & _ & _ & _ & _ & _ & _ & _ & _ & _ & _ & _ & Hosize).
  split.
  - rewrite Hosize. apply uint32_id.
    pose proof (buf_size_nonneg (linearize (snd_bufs out))). lia.
  - destruct (snd_bufs out) as [v|b]; [|lia].
    destruct Hshape as (first & mid & last & -> & Hf & Hmid & Hlast).
    exists (first :: mid), last. split; [done|]. split; [|lia].
    constructor; [lia|done].
Qed.

Lemma compress_output_buffers_witness :
  buf_size [Byte.x00; Byte.x00; Byte.x03; Byte.x00; Byte.x00; Byte.x80;
            Byte.x41; Byte.x42; Byte.x43] <= Z.max 2 chunk_size /\
  (2 <= chunk_size ->
   buf_size (linearize (snd_bufs frame_ABC)) < 2 ^ 32 ->
   scatter_gather frame_ABC).
Proof.
  apply (compress_output_buffers stored_lz4 no_garbage 2 message_ABC frame_ABC).
  - exact stored_lz4_correct.
  - lia.
  - change (snd_size message_ABC) with 3. lia.
  - vm_compute. reflexivity.
Defined.

(** X10.  No byte of uninitialised memory ends up in the frame: whatever
    the buffers [compress] allocates hold, the bytes of the output after
    the head space and its size are the same. *)
Theorem compress_frame_deterministic (lz4 : LZ4) (garbage garbage' : nat -> list byte)
    (head_space : Z) (data out out' : snd_buf) :
  LZ4_correct lz4 ->
  0 <= head_space < 2 ^ 64 ->
  0 <= snd_size data < 2 ^ 32 ->
  compress garbage head_space data = Ok out ->
  compress garbage' head_space data = Ok out' ->
  drop (Z.to_nat head_space) (linearize (snd_bufs out))
    = drop (Z.to_nat head_space) (linearize (snd_bufs out')) /\
  snd_size out = snd_size out'.
Proof.
  intros Hok Hhs Hsize Hc Hc'.
  destruct (compress_chunks garbage head_space data out Hhs Hsize Hc)
    as (mids & fin_buf & tl & fin & Hsrc & Hmids & Hsz & Hfin
        & Hfinle & Hpos & _ & Hlin & Hosize).
  destruct (compress_chunks garbage' head_space data out' Hhs Hsize Hc')
    as (mids' & fin_buf' & tl' & fin' & Hsrc' & Hmids' & Hsz' & Hfin'
        & Hfinle' & Hpos' & _ & Hlin' & Hosize').
  destruct (chunks_unique _ _ _ _ _ _ _ _ _ _ Hsrc Hsrc' Hsz Hsz' Hfinle Hfinle'
              Hpos Hpos' Hfin Hfin') as [<- <-].
  pose proof (buf_size_new (garbage 0%nat) head_space ltac:(lia)) as Hlen.
  pose proof (buf_size_new (garbage' 0%nat) head_space ltac:(lia)) as Hlen'.
  split.
  - rewrite Hlin, Hlin'.
    rewrite !drop_app_length' by (unfold buf_size in *; lia). done.
  - rewrite Hosize, Hosize', Hlin, Hlin', !buf_size_app, Hlen, Hlen'. done.
Qed.

(** Memory that holds the byte 0xff wherever it is allocated. *)
Definition garbage_ff : nat -> list byte := fun _ => replicate 16 Byte.xff.

Lemma compress_frame_deterministic_witness :
  drop (Z.to_nat 2) (linearize (snd_bufs frame_ABC))
    = drop (Z.to_nat 2)
        (linearize (snd_bufs (snd_buf_of_buffer
           [Byte.xff; Byte.xff; Byte.x03; Byte.x00; Byte.x00; Byte.x80;
            Byte.x41; Byte.x42; Byte.x43]))) /\
  snd_size frame_ABC
    = snd_size (snd_buf_of_buffer
        [Byte.xff; Byte.xff; Byte.x03; Byte.x00; Byte.x00; Byte.x80;
         Byte.x41; Byte.x42; Byte.x43]).
Proof.
  apply (compress_frame_deterministic stored_lz4 no_garbage garbage_ff 2 message_ABC).
  - exact stored_lz4_correct.
  - lia.
  - change (snd_size message_ABC) with 3. lia.
  - vm_compute. reflexivity.
  - vm_compute. reflexivity.
Defined.

(** X11.  The faster path in closed form: a message in one buffer [b]
    with [LZ4_COMPRESSBOUND (size b) + head_space + 4 <= chunk_size] is
    compressed into one buffer that holds the head space, the header with
    the flag and the size of [b], and the compressed bytes of [b]. *)
Theorem compress_single_chunk (lz4 : LZ4) (garbage : nat -> list byte)
    (head_space : Z) (b : list byte) :
  LZ4_correct lz4 ->
  0 <= head_space ->
  buf_size b <= chunk_size ->
  LZ4_COMPRESSBOUND (buf_size b) + head_space + chunk_header_size <= chunk_size ->
  compress garbage head_space (snd_buf_of_buffer b)
  = Ok (snd_buf_of_buffer
          (temporary_buffer_new (garbage 0%nat) head_space
           ++ write_le (Z.lor last_chunk_flag (buf_size b))
           ++ LZ4_compress_fast_continue [] b (LZ4_COMPRESSBOUND (buf_size b)))).
Proof.
  intros Hok Hhs Hb Hfast.
  pose proof (buf_size_nonneg b) as Hb0.
  pose proof (LZ4_COMPRESSBOUND_le (buf_size b) ltac:(lia)) as Hbound.
  assert (Hsize : snd_size (snd_buf_of_buffer b) = buf_size b).
  { cbn [snd_size snd_buf_of_buffer]. apply uint32_id. unfold chunk_size in *. lia. }
  assert (Hsg : scatter_gather (snd_buf_of_buffer b)).
  { split; [|done]. rewrite Hsize. unfold linearize.
    cbn [snd_bufs snd_buf_of_buffer buffer_list concat]. by rewrite app_nil_r. }
  unfold chunk_header_size in Hfast.
  destruct (compress_total garbage head_space (snd_buf_of_buffer b)) as [out Hc];
    [unfold chunk_size in *; lia|rewrite Hsize; unfold chunk_size in *; lia|done|].
  rewrite Hc. f_equal.
  destruct (compress_chunks garbage head_space (snd_buf_of_buffer b) out)
    as (mids & fin_buf & tl & fin & Hsrc & Hmids & Hsz & Hfin
        & Hfinle & Hpos & Hsingle & Hlin & Hosize);
    [unfold chunk_size in *; lia|rewrite Hsize; unfold chunk_size in *; lia|done|].
  assert (Hs : single_chunk head_space (snd_buf_of_buffer b)).
  { unfold single_chunk. rewrite Hsize. unfold chunk_header_size.
    rewrite size_t_id by (unfold chunk_size in *; lia). lia. }
  destruct (Hsingle Hs) as [-> Hcont].
  cbn [snd_bufs snd_buf_of_buffer buffer_list app length] in Hsrc, Hsz.
  injection Hsrc as <- _.
  assert (Hfb : fin = b).
  { rewrite Hfin. apply take_ge. unfold buf_size in *. lia. }
  unfold capacity in Hlin. rewrite decide_True in Hlin by done.
  rewrite Hsize, Hfb in Hlin. unfold frame_of, last_frame in Hlin.
  cbn [intermediate_frames app concat] in Hlin.
  destruct out as [osize obufs]. cbn [snd_size snd_bufs] in *.
  rewrite Hlin in Hcont, Hosize. by rewrite Hosize, Hcont.
Qed.

Lemma compress_single_chunk_witness :
  compress (lz4 := stored_lz4) no_garbage 2 (snd_buf_of_buffer [Byte.x41; Byte.x42; Byte.x43])
  = Ok (snd_buf_of_buffer
          (temporary_buffer_new (no_garbage 0%nat) 2
           ++ write_le (Z.lor last_chunk_flag (buf_size [Byte.x41; Byte.x42; Byte.x43]))
           ++ LZ4_compress_fast_continue [] [Byte.x41; Byte.x42; Byte.x43]
                (LZ4_COMPRESSBOUND (buf_size [Byte.x41; Byte.x42; Byte.x43])))).
Proof.
  apply (compress_single_chunk stored_lz4 no_garbage 2 [Byte.x41; Byte.x42; Byte.x43]).
  - exact stored_lz4_correct.
  - lia.
  - vm_compute. discriminate.
  - vm_compute. discriminate.
Defined.

(** *** Frames that announce more than they hold *)

(** [copy_src] runs off the end of the input when asked for more bytes
    than are left. *)
Lemma copy_src_loop_short fuel : forall src offset n dst,
  offset_ok src offset ->
  buf_size (rest_of src offset) < n ->
  copy_src_loop fuel src offset n dst = Fault.
Proof.
  induction fuel as [|fuel IH]; intros src offset n dst Hoff Hn;
    pose proof (buf_size_nonneg (rest_of src offset)) as H0; cbn [copy_src_loop];
    rewrite decide_False by lia; [done|].
  assert (Hn0 : 0 < n) by lia.
  destruct src as [|b src]; [done|].
  cbn [offset_ok rest_of] in Hoff, Hn.
  rewrite buf_size_app, buf_size_drop in Hn by done.
  assert (Hmin : forall x, 0 <= Z.min n (size_t x)).
  { intros x. unfold size_t. pose proof (Z.mod_pos_bound x (2 ^ 64) ltac:(lia)). lia. }
  destruct (decide (offset = buf_size b)) as [->|Hne].
  - destruct src as [|b' src]; [done|].
    specialize (Hmin (buf_size b' - 0)).
    destruct (decide _) as [[_ Hfit]|]; [|done].
    apply IH.
    + cbn [offset_ok]. lia.
    + cbn [rest_of concat] in *. rewrite buf_size_app in *.
      rewrite buf_size_drop by lia. lia.
  - specialize (Hmin (buf_size b - offset)).
    destruct (decide _) as [[Hlo Hfit]|]; [|done].
    apply IH.
    + cbn [offset_ok]. lia.
    + cbn [rest_of]. rewrite buf_size_app, buf_size_drop by lia. lia.
Qed.

(** X12.  The sizes in the headers are trusted: when the header of the
    first chunk has bit 31 clear and announces more compressed bytes than
    follow it in the input, [decompress] reads beyond the end of the
    input. *)
Theorem decompress_truncated_frame (lz4 : LZ4) (garbage : nat -> list byte)
    (data : rcv_buf) :
  LZ4_setStreamDecode <> 0 ->
  rcv_size data = buf_size (linearize (rcv_bufs data)) ->
  4 <= rcv_size data < 2 ^ 64 ->
  Z.land (le_to_cpu (take 4 (linearize (rcv_bufs data)))) last_chunk_flag = 0 ->
  rcv_size data - 4 < le_to_cpu (take 4 (linearize (rcv_bufs data))) ->
  decompress garbage data = Fault.
Proof.
  intros Hreset Hsize Hrange Hflag Hshort.
  unfold decompress.
  rewrite decide_False by lia. rewrite decide_False by done.
  assert (Hchunks : forall src,
    concat src = linearize (rcv_bufs data) ->
    decompress_chunks garbage src (rcv_size data) = Fault).
  { intros src Hsrc. unfold decompress_chunks.
    set (st0 := mk_src src 0 (rcv_size data)).
    assert (Hrem0 : remaining st0 = linearize (rcv_bufs data)).
    { unfold remaining, st0; cbn. by rewrite rest_of_0. }
    assert (Hwf0 : src_wf st0).
    { unfold src_wf. rewrite Hrem0. unfold st0; cbn. split; [|lia].
      destruct src; cbn; [done|]. pose proof (buf_size_nonneg l). lia. }
    destruct (read_header_spec st0 Hwf0) as (st1 & Hread & Hrem1 & Hwf1).
    { unfold st0; cbn. lia. }
    rewrite Hread. cbn [mbind result_bind]. rewrite Hrem0 in *.
    destruct (length (concat src)) as [|fuel] eqn:Hlen.
    { rewrite Hsrc in Hlen. unfold buf_size in *. lia. }
    cbn [intermediate_headers]. rewrite decide_True by done.
    unfold copy_src.
    rewrite copy_src_loop_short; [done|apply Hwf1|].
    destruct Hwf1 as (_ & _ & _). fold (remaining st1). rewrite Hrem1.
    unfold buf_size in *. rewrite length_drop. lia. }
  unfold linearize in *.
  destruct (rcv_bufs data) as [v|b]; cbn [buffer_list] in *.
  { by apply Hchunks. }
  cbn [concat] in *. rewrite app_nil_r in *.
  rewrite decide_True by (unfold chunk_header_size; lia).
  change (Z.to_nat chunk_header_size) with 4%nat.
  rewrite decide_True by done.
  apply Hchunks. cbn [concat]. by rewrite app_nil_r.
Qed.

(** A header that announces five bytes, followed by one byte. *)
Definition truncated_frame : rcv_buf :=
  rcv_buf_of_buffer [Byte.x05; Byte.x00; Byte.x00; Byte.x00; Byte.x41].

Lemma decompress_truncated_frame_witness :
  decompress (lz4 := stored_lz4) no_garbage truncated_frame = Fault.
Proof.
  apply (decompress_truncated_frame stored_lz4 no_garbage truncated_frame).
  - discriminate.
  - reflexivity.
  - change (rcv_size truncated_frame) with 5. lia.
  - reflexivity.
  - vm_compute. reflexivity.
Defined.

(** *** The input [compress] accepts and the size of its output *)

(** X13.  [compress] completes only on input cut into chunks: the
    buffers it consumes before the last one have exactly [chunk_size] bytes
    each, the last chunk has at most [chunk_size] bytes and its buffer
    holds them; on the faster path the one buffer has exactly [size]
    bytes.  On any other input it does not complete: an assertion fails
    or a read runs past a buffer. *)
Theorem compress_requires_chunks (lz4 : LZ4) (garbage : nat -> list byte)
    (head_space : Z) (data out : snd_buf) :
  LZ4_correct lz4 ->
  0 <= head_space < 2 ^ 64 ->
  0 <= snd_size data < 2 ^ 32 ->
  compress garbage head_space data = Ok out ->
  exists mids fin_buf tl,
    buffer_list (snd_bufs data) = mids ++ fin_buf :: tl /\
    Forall (fun b => buf_size b = chunk_size) mids /\
    0 <= snd_size data - chunk_size * Z.of_nat (length mids)
      <= Z.min chunk_size (buf_size fin_buf) /\
    (mids <> [] -> chunk_size * Z.of_nat (length mids) < snd_size data) /\
    (single_chunk head_space data -> mids = [] /\ buf_size fin_buf = snd_size data).
Proof.
  intros Hok Hhs Hsize Hc.
  destruct (compress_chunks garbage head_space data out Hhs Hsize Hc)
    as (mids & fin_buf & tl & fin & Hsrc & Hmids & Hsz & Hfin
        & Hfinle & Hpos & Hsingle & _).
  exists mids, fin_buf, tl.
  pose proof (buf_size_nonneg fin) as Hf0.
  assert (Hle : buf_size fin <= buf_size fin_buf).
  { rewrite Hfin at 1. unfold buf_size. rewrite length_take. lia. }
  split_and!; try done; try lia.
  - intros Hne. specialize (Hpos Hne). lia.
  - intros Hs. destruct (Hsingle Hs) as [-> _]. split; [done|].
    revert Hc. unfold compress. fold (single_chunk head_space data).
    rewrite decide_True by done.
    cbn [app] in Hsrc. rewrite Hsrc.
    destruct (decide (buf_size fin_buf = snd_size data)); done.
Qed.

Lemma compress_requires_chunks_witness :
  exists mids fin_buf tl,
    buffer_list (snd_bufs message_ABC) = mids ++ fin_buf :: tl /\
    Forall (fun b => buf_size b = chunk_size) mids /\
    0 <= snd_size message_ABC - chunk_size * Z.of_nat (length mids)
      <= Z.min chunk_size (buf_size fin_buf) /\
    (mids <> [] -> chunk_size * Z.of_nat (length mids) < snd_size message_ABC) /\
    (single_chunk 2 message_ABC -> mids = [] /\ buf_size fin_buf = snd_size message_ABC).
Proof.
  apply (compress_requires_chunks stored_lz4 no_garbage 2 message_ABC frame_ABC).
  - exact stored_lz4_correct.
  - lia.
  - change (snd_size message_ABC) with 3. lia.
  - vm_compute. reflexivity.
Defined.

(** X14.  Compression expands a message by at most the head space and,
    for every chunk, the header and what [LZ4_COMPRESSBOUND] allows for a
    chunk: the output holds at most
    [head_space + (size / chunk_size + 1) * (LZ4_COMPRESSBOUND chunk_size + 4)]
    bytes. *)
Theorem compress_output_size (lz4 : LZ4) (garbage : nat -> list byte)
    (head_space : Z) (data out : snd_buf) :
  LZ4_correct lz4 ->
  0 <= head_space < 2 ^ 64 ->
  0 <= snd_size data < 2 ^ 32 ->
  compress garbage head_space data = Ok out ->
  buf_size (linearize (snd_bufs out))
  <= head_space
     + (snd_size data / chunk_size + 1)
       * (LZ4_COMPRESSBOUND chunk_size + chunk_header_size).
Proof.
  intros Hok Hhs Hsize Hc.
  destruct (compress_chunks garbage head_space data out Hhs Hsize Hc)
    as (mids & fin_buf & tl & fin & Hsrc & Hmids & Hsz & Hfin
        & Hfinle & Hpos & Hsingle & Hlin & _).
  pose proof (buf_size_nonneg fin) as Hf0.
  destruct (capacity_bounds head_space data mids fin) as (Hcap & _);
    [lia|done|done|by intros [? _]%Hsingle|].
  pose proof (frames_size fin (capacity head_space data) mids [] Hcap) as Hfs.
  cbn [app] in Hfs. fold (frame_of mids fin (capacity head_space data)) in Hfs.
  rewrite Hlin, buf_size_app, buf_size_new by lia.
  rewrite LZ4_COMPRESSBOUND_chunk_size. unfold chunk_header_size.
  assert (Hm : Z.of_nat (length mids) <= snd_size data / chunk_size).
  { apply Z.div_le_lower_bound; unfold chunk_size in *; lia. }
  nia.
Qed.

Lemma compress_output_size_witness :
  buf_size (linearize (snd_bufs frame_ABC))
  <= 2 + (snd_size message_ABC / chunk_size + 1)
         * (LZ4_COMPRESSBOUND chunk_size + chunk_header_size).
Proof.
  apply (compress_output_size stored_lz4 no_garbage 2 message_ABC frame_ABC).
  - exact stored_lz4_correct.
  - lia.
  - change (snd_size message_ABC) with 3. lia.
  - vm_compute. reflexivity.
Defined.


(** ** Coroutine bridge *)

Lemma schedule_destroyed {T : Type} (turns : nat) (c : coroutine T) :
  frame c = destroyed -> schedule turns c = Some c.
Proof. intros H. destruct turns; cbn; by rewrite H. Qed.

(** Started with a pending promise and scheduled often enough, a
    coroutine runs to completion: the frame is destroyed and the state of
    the promise is the outcome of the body. *)
Lemma run_body_completes {T : Type} (body : coroutine_body T) :
  forall (p : promise_type T) (turns : nat),
  _promise p = pending ->
  (awaits body <= turns)%nat ->
  exists c,
    run_body body p ≫= schedule turns = Some c /\
    frame c = destroyed /\
    _promise (promise c)
      = match completion body with
        | inl v => ready_with_value v
        | inr e => ready_with_exception e
        end.
Proof.
  induction body as [v|e|ready k IH]; intros p turns Hp Hturns.
  - eexists. cbn. unfold return_value. rewrite Hp. cbn.
    rewrite schedule_destroyed by done. done.
  - eexists. cbn. unfold unhandled_exception. rewrite Hp. cbn.
    rewrite schedule_destroyed by done. done.
  - cbn [awaits] in Hturns. destruct ready; cbn [run_body completion].
    + apply IH; [done|lia].
    + destruct turns as [|turns]; [lia|].
      cbn. apply IH; [done|lia].
Qed.

(** C9.  [unhandled_exception] hands the exception in flight to
    [set_exception] of the embedded promise; so when the body of a
    coroutine ends with an exception [e] that nothing caught, the future
    obtained from [get_return_object] is ready with the exception [e], not
    with a value, and the frame is destroyed. *)
Theorem coroutine_exception_capture {T : Type} (body : coroutine_body T)
    (e : exception) :
  completion body = inr e ->
  (forall p : promise_type T,
     unhandled_exception e p = mk_promise_type <$> set_exception e (_promise p)) /\
  exists c,
    call_coroutine body ≫= schedule (awaits body) = Some c /\
    get_return_object (promise c) = ready_with_exception e /\
    available (get_return_object (promise c)) = true /\
    (forall v, get_return_object (promise c) <> ready_with_value v) /\
    frame c = destroyed.
Proof.
  intros He. split; [done|].
  destruct (run_body_completes body (mk_promise_type pending) (awaits body))
    as (c & Hrun & Hframe & Hstate); [done|done|].
  rewrite He in Hstate.
  exists c. unfold call_coroutine, get_return_object, get_future. cbn [await_ready initial_suspend].
  rewrite Hstate. done.
Qed.

(** A coroutine that waits once for a future and then throws. *)
Definition throwing_body : coroutine_body Z :=
  co_await false (throw (runtime_error "domain error")).

Lemma coroutine_exception_capture_witness :
  (forall p : promise_type Z,
     unhandled_exception (runtime_error "domain error") p
     = mk_promise_type <$> set_exception (runtime_error "domain error") (_promise p)) /\
  exists c,
    call_coroutine throwing_body ≫= schedule (awaits throwing_body) = Some c /\
    get_return_object (promise c) = ready_with_exception (runtime_error "domain error") /\
    available (get_return_object (promise c)) = true /\
    (forall v, get_return_object (promise c) <> ready_with_value v) /\
    frame c = destroyed.
Proof.
  apply (coroutine_exception_capture throwing_body (runtime_error "domain error")).
  reflexivity.
Defined.

(** *** The future and the frame *)

(** What ties the future to the frame at any moment: while the frame
    waits the promise is pending, and a frame is never left at the final
    suspend point. *)
Definition frame_inv {T : Type} (c : coroutine T) : Prop :=
  match frame c with
  | suspended _ => _promise (promise c) = pending
  | suspended_final => False
  | destroyed => available (_promise (promise c)) = true
  end.

Lemma run_body_frame_inv {T : Type} (body : coroutine_body T) :
  forall (p : promise_type T) (turns : nat),
  _promise p = pending ->
  exists c, run_body body p ≫= schedule turns = Some c /\ frame_inv c.
Proof.
  induction body as [v|e|ready k IH]; intros p turns Hp.
  - eexists. cbn. unfold return_value. rewrite Hp. cbn.
    rewrite schedule_destroyed by done. done.
  - eexists. cbn. unfold unhandled_exception. rewrite Hp. cbn.
    rewrite schedule_destroyed by done. done.
  - destruct ready; cbn [run_body]; [by apply IH|].
    destruct turns as [|turns]; cbn.
    + eexists. split; [done|]. done.
    + by apply IH.
Qed.

(** X15.  [return_value] hands the value to [set_value] of the embedded
    promise; so when the body of a coroutine ends with [co_return v], the
    future obtained from [get_return_object] is ready with the value [v],
    not with an exception, once the scheduler has run the task as often as
    the body waits, and the frame is destroyed. *)
Theorem coroutine_value_delivery {T : Type} (body : coroutine_body T) (v : T)
    (turns : nat) :
  completion body = inl v ->
  (awaits body <= turns)%nat ->
  exists c,
    call_coroutine body ≫= schedule turns = Some c /\
    get_return_object (promise c) = ready_with_value v /\
    available (get_return_object (promise c)) = true /\
    (forall e, get_return_object (promise c) <> ready_with_exception e) /\
    frame c = destroyed.
Proof.
  intros Hv Hturns.
  destruct (run_body_completes body (mk_promise_type pending) turns)
    as (c & Hrun & Hframe & Hstate); [done|done|].
  rewrite Hv in Hstate.
  exists c. unfold call_coroutine, get_return_object, get_future.
  cbn [await_ready initial_suspend]. rewrite Hstate. done.
Qed.

(** A coroutine that waits for two futures, the first of which is
    available, and returns 42. *)
Definition returning_body : coroutine_body Z :=
  co_await true (co_await false (co_return 42%Z)).

Lemma coroutine_value_delivery_witness :
  exists c,
    call_coroutine returning_body ≫= schedule 2 = Some c /\
    get_return_object (promise c) = ready_with_value 42%Z /\
    available (get_return_object (promise c)) = true /\
    (forall e, get_return_object (promise c) <> ready_with_exception e) /\
    frame c = destroyed.
Proof.
  apply (coroutine_value_delivery returning_body 42%Z 2).
  - reflexivity.
  - cbn. lia.
Defined.

(** X16.  However often the scheduler has run the task, the coroutine is
    in one of two states: its frame waits for a future and the future of
    the coroutine is not available, or its frame is destroyed and the
    future is available.  As [initial_suspend] and [final_suspend] never
    suspend, no frame is left at the final suspend point. *)
Theorem coroutine_future_tracks_frame {T : Type} (body : coroutine_body T)
    (turns : nat) :
  exists c,
    call_coroutine body ≫= schedule turns = Some c /\
    frame c <> suspended_final /\
    (available (get_return_object (promise c)) = true <-> frame c = destroyed).
Proof.
  destruct (run_body_frame_inv body (mk_promise_type pending) turns eq_refl)
    as (c & Hrun & Hinv).
  exists c. split; [done|].
  unfold frame_inv, get_return_object, get_future in *.
  destruct (frame c); [|done|done].
  rewrite Hinv. done.
Qed.
